(** * The two-lane rendezvous stream of the thor kernel

    A shallow embedding of [thor/kernel/src/generic/stream.cpp] and
    [thor/kernel/src/generic/error.hpp], and the properties of the IPC
    core that are stated about it.

    The kernel state is threaded explicitly: stream objects live in a heap
    indexed by their address, universes in a table indexed by the address
    a weak pointer names, receive buffers in a byte-addressed memory, and
    every completion that fires is appended to a log.  A failed assertion
    aborts the computation.  One kernel path runs at a time: the stream
    mutex, which is taken and released inside [submit] and
    [decrementPeers], and the memory orders of the atomic peer counts do
    not appear; neither do the lines written to the info logger. *)

From Stdlib Require Import ZArith String Strings.Byte.
From stdpp Require Import base option list gmap.

Open Scope Z_scope.

(** ** error.hpp *)

Inductive Error :=
| kErrSuccess
| kErrBufferTooSmall
| kErrThreadExited
| kErrClosedLocally
| kErrClosedRemotely.

(** ** Aborting computations over the kernel state *)

(** How a kernel path stops without returning: a failed [assert] (with the
    asserted text), a dereference of a pointer that names no live object,
    an array access outside [0..1], or a lock that is taken while it is
    already held.  The [__builtin_trap] at the end of [Stream::submit]
    follows an assertion that always fails, so the assertion is what stops
    that path. *)
Inductive Panic :=
| AssertionFailed (msg : string)
| BadPointer
| OutOfBounds
| Deadlock.

Inductive Result (A : Type) :=
| Ok (a : A)
| Abort (why : Panic).
Arguments Ok {A} a.
Arguments Abort {A} why.

(** ** Data model *)

(** Address of a [Stream] object in the kernel heap. *)
Abbreviation StreamId := nat (only parsing).
(** Address a [frigg::WeakPtr<Universe>] names. *)
Abbreviation UniverseId := nat (only parsing).
(** Numeric name of a descriptor inside a universe. *)
Abbreviation Handle := Z (only parsing).
(** Opaque to the stream code; echoed back in the completion. *)
Definition SubmitInfo := Z.

(** [LaneHandle]: a stream pointer, possibly null, and a lane index, as the
    constructor and destructor of stream.cpp use them.  The non-null form
    is what [LaneHandle(adoptLane, stream, lane)] builds. *)
Inductive LaneHandle :=
| LaneHandle_null
| LaneHandle_adopt (_stream : StreamId) (_lane : Z).

Record LaneDescriptor := mkLaneDescriptor { _handle : LaneHandle }.

(** [LaneDescriptor()] *)
Definition LaneDescriptor_empty : LaneDescriptor :=
  mkLaneDescriptor LaneHandle_null.

(** [LaneHandle(adoptLane, conversation, lane)] on a shared pointer that
    may be null. *)
Definition adoptLane (conversation : option StreamId) (lane : Z) : LaneHandle :=
  match conversation with
  | Some c => LaneHandle_adopt c lane
  | None => LaneHandle_null
  end.

(** Modelled from the spec: [AnyDescriptor] is declared in kernel.hpp,
    which is not part of the sources at hand.  It is "a sum of the
    descriptor flavors the surrounding OS exposes (memory, thread, lane,
    etc.); the core only carries and attaches them". *)
Inductive AnyDescriptor :=
| MemoryAccessDescriptor (memory : nat)
| ThreadDescriptor (thread : nat)
| AnyLaneDescriptor (lane : LaneDescriptor).

(** Modelled from the spec: [Universe] is declared in kernel.hpp.  It is "a
    per-principal table mapping numeric Handle to AnyDescriptor", mutable
    only under its lock, with monotonic handle allocation. *)
Record Universe := mkUniverse {
  lock : bool;
  _descriptorMap : gmap Z AnyDescriptor;
  _nextHandle : Handle;
}.

(** Modelled from the spec: the accessor of a receive item is declared in
    kernel.hpp; it names the recipient's buffer, here a range of the
    byte-addressed memory. *)
Record Accessor := mkAccessor {
  acc_address : nat;
  acc_length : nat;
}.

(** Modelled from the spec: the item classes are declared in kernel.hpp.
    An item is "a tagged value, one of: Offer, Accept, SendBuffer,
    RecvBuffer, PushDescriptor (carrying an AnyDescriptor), PullDescriptor",
    with its submit info; the fields are those that [transfer] reads
    ([_universe], [buffer], [accessor], [_lane]).  The constructors stand
    for the classes that [classOf] tells apart. *)
Inductive StreamControl :=
| Offer (info : SubmitInfo)
| Accept (info : SubmitInfo) (_universe : UniverseId)
| SendFromBuffer (info : SubmitInfo) (buffer : list byte)
| RecvToBuffer (info : SubmitInfo) (accessor : Accessor)
| PushDescriptor (info : SubmitInfo) (_lane : AnyDescriptor)
| PullDescriptor (info : SubmitInfo) (_universe : UniverseId).

Definition OfferBase_classOf (x : StreamControl) : bool :=
  match x with Offer _ => true | _ => false end.
Definition AcceptBase_classOf (x : StreamControl) : bool :=
  match x with Accept _ _ => true | _ => false end.
Definition SendFromBufferBase_classOf (x : StreamControl) : bool :=
  match x with SendFromBuffer _ _ => true | _ => false end.
Definition RecvToBufferBase_classOf (x : StreamControl) : bool :=
  match x with RecvToBuffer _ _ => true | _ => false end.
Definition PushDescriptorBase_classOf (x : StreamControl) : bool :=
  match x with PushDescriptor _ _ => true | _ => false end.
Definition PullDescriptorBase_classOf (x : StreamControl) : bool :=
  match x with PullDescriptor _ _ => true | _ => false end.

Definition info_of (x : StreamControl) : SubmitInfo :=
  match x with
  | Offer i | Accept i _ | SendFromBuffer i _ | RecvToBuffer i _
  | PushDescriptor i _ | PullDescriptor i _ => i
  end.

(** Modelled from the spec: the event types are declared in kernel.hpp.
    [kEventAccept] and [kEventRecvDescriptor] are the two that stream.cpp
    names; the other four stand for the completions of the remaining item
    kinds of the table of completion shapes. *)
Inductive EventType :=
| kEventOffer
| kEventAccept
| kEventSendString
| kEventRecvString
| kEventSendDescriptor
| kEventRecvDescriptor.

(** Modelled from the spec: [AsyncEvent] is declared in kernel.hpp.  A
    completion is "composed of (Error, submit-info, optional payload)";
    stream.cpp sets [error] and [handle]; the fields a policy does not set
    are [None]. *)
Record AsyncEvent := mkAsyncEvent {
  ev_type : EventType;
  ev_submitInfo : SubmitInfo;
  ev_error : Error;
  ev_handle : option Handle;
  ev_length : option nat;
}.

(** A two-element array indexed by a lane number, as [_peerCount],
    [_laneBroken] and [_processQueue] are. *)
Definition idx {A} (lane : Z) (a : A * A) : A :=
  if lane =? 0 then fst a else snd a.
Definition upd {A} (lane : Z) (x : A) (a : A * A) : A * A :=
  if lane =? 0 then (x, snd a) else (fst a, x).

(** [Stream]: the members that stream.cpp reads and writes, with the use
    count of the control block of the shared pointer that owns it
    ([control().counter()]). *)
Record Stream := mkStream {
  counter : Z;
  _peerCount : Z * Z;
  _laneBroken : bool * bool;
  _processQueue : list StreamControl * list StreamControl;
  _conversationQueue : list StreamId;
}.

Definition set_counter (n : Z) (s : Stream) : Stream :=
  mkStream n (_peerCount s) (_laneBroken s) (_processQueue s) (_conversationQueue s).
Definition set_peerCount (lane : Z) (n : Z) (s : Stream) : Stream :=
  mkStream (counter s) (upd lane n (_peerCount s)) (_laneBroken s)
    (_processQueue s) (_conversationQueue s).
Definition set_laneBroken (lane : Z) (b : bool) (s : Stream) : Stream :=
  mkStream (counter s) (_peerCount s) (upd lane b (_laneBroken s))
    (_processQueue s) (_conversationQueue s).
Definition set_processQueue (lane : Z) (l : list StreamControl) (s : Stream) : Stream :=
  mkStream (counter s) (_peerCount s) (_laneBroken s)
    (upd lane l (_processQueue s)) (_conversationQueue s).
Definition set_conversationQueue (l : list StreamId) (s : Stream) : Stream :=
  mkStream (counter s) (_peerCount s) (_laneBroken s) (_processQueue s) l.

(** The state of the kernel that the stream code reads and writes. *)
Record Kernel := mkKernel {
  heap : list (option Stream);
  universes : gmap nat Universe;
  memory : gmap nat byte;
  events : list AsyncEvent;
}.

Definition set_heap (h : list (option Stream)) (k : Kernel) : Kernel :=
  mkKernel h (universes k) (memory k) (events k).
Definition set_universes (u : gmap nat Universe) (k : Kernel) : Kernel :=
  mkKernel (heap k) u (memory k) (events k).
Definition set_memory (m : gmap nat byte) (k : Kernel) : Kernel :=
  mkKernel (heap k) (universes k) m (events k).
Definition set_events (e : list AsyncEvent) (k : Kernel) : Kernel :=
  mkKernel (heap k) (universes k) (memory k) e.

(** ** The monad of kernel paths *)

Definition M (A : Type) : Type := Kernel -> Result (A * Kernel).

Definition ret {A} (a : A) : M A := fun k => Ok (a, k).
Definition bind {A B} (m : M A) (f : A -> M B) : M B :=
  fun k => match m k with
           | Ok (a, k') => f a k'
           | Abort why => Abort why
           end.
Definition panic {A} (why : Panic) : M A := fun _ => Abort why.

Declare Scope kernel_scope.
Delimit Scope kernel_scope with kernel.
Notation "x <- m ;; f" := (bind m (fun x => f))
  (at level 100, m at next level, right associativity) : kernel_scope.
Notation "m ;;; f" := (bind m (fun _ => f))
  (at level 100, right associativity) : kernel_scope.
Open Scope kernel_scope.

(** [assert(c)] with the asserted text. *)
Definition assert (c : bool) (msg : string) : M unit :=
  if c then ret tt else panic (AssertionFailed msg).

Definition get_kernel : M Kernel := fun k => Ok (k, k).

(** Dereference of a stream pointer. *)
Definition deref (s : StreamId) : M Stream :=
  fun k => match heap k !! s with
           | Some (Some st) => Ok (st, k)
           | _ => Abort BadPointer
           end.

(** Write through a stream pointer. *)
Definition store (s : StreamId) (st : Stream) : M unit :=
  fun k => match heap k !! s with
           | Some (Some _) => Ok (tt, set_heap (<[s := Some st]> (heap k)) k)
           | _ => Abort BadPointer
           end.

Definition modify (s : StreamId) (f : Stream -> Stream) : M unit :=
  st <- deref s ;; store s (f st).

(** Post an event to the completion log. *)
Definition post (e : AsyncEvent) : M unit :=
  fun k => Ok (tt, set_events (events k ++ [e]) k).

(** ** Universes *)

(** Run [f] on the universe a pointer names, writing the result back. *)
Definition with_universe {A} (u : UniverseId)
    (f : Universe -> Result (A * Universe)) : M A :=
  fun k => match universes k !! u with
           | Some un =>
               match f un with
               | Ok (a, un') => Ok (a, set_universes (<[u := un']> (universes k)) k)
               | Abort why => Abort why
               end
           | None => Abort BadPointer
           end.

(** [Universe::Guard lock(&universe->lock)] and the end of its scope. *)
Definition Guard_acquire (un : Universe) : Result (unit * Universe) :=
  if lock un then Abort Deadlock
  else Ok (tt, mkUniverse true (_descriptorMap un) (_nextHandle un)).
Definition Guard_release (un : Universe) : Result (unit * Universe) :=
  Ok (tt, mkUniverse false (_descriptorMap un) (_nextHandle un)).

(** Modelled from the spec: [Universe::attachDescriptor] is defined outside
    the sources at hand.  It "takes an AnyDescriptor, allocates a fresh
    numeric Handle, installs the mapping under the universe lock, and
    returns the handle.  Handle allocation is monotonic per universe".  The
    guard that the caller passes must hold the universe's lock. *)
Definition attachDescriptor (descriptor : AnyDescriptor) (un : Universe)
    : Result (Handle * Universe) :=
  if lock un then
    let handle := _nextHandle un in
    Ok (handle, mkUniverse (lock un)
                  (<[handle := descriptor]> (_descriptorMap un)) (handle + 1))
  else Abort (AssertionFailed "guard.protects(&lock)").

(** [weak_universe.grab()] followed by [assert(universe)]. *)
Definition grab (weak_universe : UniverseId) : M unit :=
  k <- get_kernel ;;
  assert (match universes k !! weak_universe with Some _ => true | None => false end)
    "universe".

(** [AcceptPolicy::makeEvent] *)
Definition AcceptPolicy_makeEvent (info : SubmitInfo) (error : Error)
    (weak_universe : UniverseId) (lane : LaneDescriptor) : M AsyncEvent :=
  grab weak_universe ;;;
  with_universe weak_universe Guard_acquire ;;;
  handle <- with_universe weak_universe (attachDescriptor (AnyLaneDescriptor lane)) ;;
  with_universe weak_universe Guard_release ;;;
  ret (mkAsyncEvent kEventAccept info error (Some handle) None).

(** [PullDescriptorPolicy::makeEvent] *)
Definition PullDescriptorPolicy_makeEvent (info : SubmitInfo) (error : Error)
    (weak_universe : UniverseId) (lane : AnyDescriptor) : M AsyncEvent :=
  grab weak_universe ;;;
  with_universe weak_universe Guard_acquire ;;;
  handle <- with_universe weak_universe (attachDescriptor lane) ;;
  with_universe weak_universe Guard_release ;;;
  ret (mkAsyncEvent kEventRecvDescriptor info error (Some handle) None).

(** ** Completions

    The [complete] methods of the item classes are declared in kernel.hpp.
    "Every item carries a completion sink, a single-shot producer of a
    result, and a submit-info opaque to the core (echoed back into the
    result)"; the payload per kind is the one of the table of completion
    shapes. *)

(** Modelled from the spec: [OfferBase::complete(error)], absent from the
    sources; an Offer completes with the payload "()". *)
Definition OfferBase_complete (info : SubmitInfo) (error : Error) : M unit :=
  post (mkAsyncEvent kEventOffer info error None None).

(** Modelled from the spec: [AcceptBase::complete(error, universe, lane)],
    absent from the sources; an Accept completes with "an attached handle",
    which [AcceptPolicy::makeEvent] of stream.cpp produces. *)
Definition AcceptBase_complete (info : SubmitInfo) (error : Error)
    (universe : UniverseId) (lane : LaneDescriptor) : M unit :=
  e <- AcceptPolicy_makeEvent info error universe lane ;; post e.

(** Modelled from the spec: [SendFromBufferBase::complete(error)], absent
    from the sources; a SendBuffer completes with the payload "()". *)
Definition SendFromBufferBase_complete (info : SubmitInfo) (error : Error) : M unit :=
  post (mkAsyncEvent kEventSendString info error None None).

(** Modelled from the spec: [RecvToBufferBase::complete(error, length)],
    absent from the sources; a RecvBuffer completes with the "number of
    bytes written into the recipient's buffer". *)
Definition RecvToBufferBase_complete (info : SubmitInfo) (error : Error)
    (length : nat) : M unit :=
  post (mkAsyncEvent kEventRecvString info error None (Some length)).

(** Modelled from the spec: [PushDescriptorBase::complete(error)], absent
    from the sources; a PushDescriptor completes with the payload "()". *)
Definition PushDescriptorBase_complete (info : SubmitInfo) (error : Error) : M unit :=
  post (mkAsyncEvent kEventSendDescriptor info error None None).

(** Modelled from the spec: [PullDescriptorBase::complete(error, universe,
    lane)], absent from the sources; a PullDescriptor completes with "an
    attached handle", which [PullDescriptorPolicy::makeEvent] of stream.cpp
    produces. *)
Definition PullDescriptorBase_complete (info : SubmitInfo) (error : Error)
    (universe : UniverseId) (lane : AnyDescriptor) : M unit :=
  e <- PullDescriptorPolicy_makeEvent info error universe lane ;; post e.

(** ** Receive buffers *)

Fixpoint write_bytes (address : nat) (data : list byte) (m : gmap nat byte)
    : gmap nat byte :=
  match data with
  | [] => m
  | b :: rest => write_bytes (S address) rest (<[address := b]> m)
  end.

Definition read_bytes (address size : nat) (m : gmap nat byte) : list (option byte) :=
  map (fun i => m !! (address + i)%nat) (seq 0 size).

(** Modelled from the spec: [accessor.copyTo(pointer, size)] is defined
    outside the sources at hand.  "Send/Recv: copy the send buffer into the
    recv accessor": the [size] bytes at [pointer] are written to the start
    of the recipient's buffer. *)
Definition copyTo (accessor : Accessor) (data : list byte) (size : nat) : M unit :=
  fun k => Ok (tt, set_memory
                     (write_bytes (acc_address accessor) (take size data) (memory k)) k).

(** ** Peer counts and lane handles *)

(** The value of an [int] after arithmetic on it. *)
Definition wrap_int (z : Z) : Z := (z + 2 ^ 31) mod 2 ^ 32 - 2 ^ 31.

(** [!(p & ~int(1))]: [p] is a lane number. *)
Definition is_lane (p : Z) : bool := Z.land p (Z.lnot 1) =? 0.

(** An index into one of the two-element arrays; outside them the access
    has no meaning. *)
Definition in_bounds (lane : Z) : M unit :=
  if is_lane lane then ret tt else panic OutOfBounds.

(** [Stream::incrementPeers] *)
Definition incrementPeers (stream : StreamId) (lane : Z) : M unit :=
  in_bounds lane ;;;
  st <- deref stream ;;
  let count := idx lane (_peerCount st) in
  store stream (set_peerCount lane (wrap_int (count + 1)) st) ;;;
  assert (negb (count =? 0)) "count".

(** [Stream::decrementPeers] *)
Definition decrementPeers (stream : StreamId) (lane : Z) : M bool :=
  in_bounds lane ;;;
  st <- deref stream ;;
  let count := idx lane (_peerCount st) in
  store stream (set_peerCount lane (wrap_int (count - 1)) st) ;;;
  if 1 <? count then ret false
  else
    (st <- deref stream ;;
     assert (negb (idx lane (_laneBroken st))) "!stream->_laneBroken[lane]" ;;;
     store stream (set_laneBroken lane true st) ;;;
     ret true).

(** Modelled from the spec: [_stream.control().decrement()] belongs to the
    shared pointer library, outside the sources at hand.  It gives up one
    reference of the control block; with the last one the stream is
    destroyed ("when both lanes are broken the stream destructor runs").
    [Stream::~Stream] only writes a log line, so destruction frees the
    heap cell together with whatever is still queued in it. *)
Definition control_decrement (stream : StreamId) : M unit :=
  st <- deref stream ;;
  if counter st =? 1
  then (fun k => Ok (tt, set_heap (<[stream := None]> (heap k)) k))
  else store stream (set_counter (counter st - 1) st).

(** End of the scope of a [frigg::SharedPtr<Stream>]. *)
Definition SharedPtr_release (p : option StreamId) : M unit :=
  match p with
  | Some s => control_decrement s
  | None => ret tt
  end.

(** [LaneHandle::LaneHandle(const LaneHandle &other)] *)
Definition LaneHandle_copy (other : LaneHandle) : M LaneHandle :=
  match other with
  | LaneHandle_null => ret LaneHandle_null
  | LaneHandle_adopt stream lane =>
      incrementPeers stream lane ;;; ret (LaneHandle_adopt stream lane)
  end.

(** [LaneHandle::~LaneHandle] *)
Definition LaneHandle_drop (h : LaneHandle) : M unit :=
  match h with
  | LaneHandle_null => ret tt
  | LaneHandle_adopt stream lane =>
      last <- decrementPeers stream lane ;;
      if last then control_decrement stream else ret tt
  end.

(** Copy of an [AnyDescriptor] passed by value: the lane flavour copies its
    [LaneHandle], the others carry no reference that the stream code
    counts. *)
Definition AnyDescriptor_copy (d : AnyDescriptor) : M AnyDescriptor :=
  match d with
  | AnyLaneDescriptor (mkLaneDescriptor h) =>
      h' <- LaneHandle_copy h ;; ret (AnyLaneDescriptor (mkLaneDescriptor h'))
  | _ => ret d
  end.

(** ** transfer *)

(** [transfer(offer, accept, lane)] *)
Definition transfer_offer_accept (offer accept : StreamControl)
    (lane : LaneDescriptor) : M unit :=
  match offer, accept with
  | Offer offer_info, Accept accept_info accept_universe =>
      OfferBase_complete offer_info kErrSuccess ;;;
      AcceptBase_complete accept_info kErrSuccess accept_universe lane
  | _, _ => panic BadPointer
  end.

(** [transfer(from, to)] *)
Definition transfer_send_recv (from to : StreamControl) : M unit :=
  match from, to with
  | SendFromBuffer from_info buffer, RecvToBuffer to_info accessor =>
      assert (length buffer <=? acc_length accessor)%nat
        "from->buffer.size() <= to->accessor.length()" ;;;
      copyTo accessor buffer (length buffer) ;;;
      SendFromBufferBase_complete from_info kErrSuccess ;;;
      RecvToBufferBase_complete to_info kErrSuccess (length buffer)
  | _, _ => panic BadPointer
  end.

(** [transfer(push, pull)] *)
Definition transfer_push_pull (push pull : StreamControl) : M unit :=
  match push, pull with
  | PushDescriptor push_info push_lane, PullDescriptor pull_info pull_universe =>
      PushDescriptorBase_complete push_info kErrSuccess ;;;
      lane <- AnyDescriptor_copy push_lane ;;
      PullDescriptorBase_complete pull_info kErrSuccess pull_universe lane
  | _, _ => panic BadPointer
  end.

(** ** Stream *)

(** [Stream::Stream], inside a fresh control block. *)
Definition Stream_new : Stream :=
  mkStream 1 (1, 1) (false, false) ([], []) [].

(** [frigg::makeShared<Stream>] on the kernel allocator: the new object gets an
    address that no object has had. *)
Definition makeShared_Stream : M StreamId :=
  fun k => Ok (length (heap k), set_heap (heap k ++ [Some Stream_new]) k).

(** [_processQueue[lane].addBack(item)] *)
Definition addBack (lane : Z) (item : StreamControl) (s : Stream) : Stream :=
  set_processQueue lane (idx lane (_processQueue s) ++ [item]) s.

(** [_conversationQueue.removeFront()]; on an empty list there is no front
    element to unlink. *)
Definition conversation_removeFront (self : StreamId) : M (option StreamId) :=
  this <- deref self ;;
  match _conversationQueue this with
  | c :: rest => store self (set_conversationQueue rest this) ;;; ret (Some c)
  | [] => panic BadPointer
  end.

(** The part of [Stream::submit] after the lock is released: [u] was
    submitted on lane [p], [v] was taken from the queue of lane [q]. *)
Definition submit_matched (p q : Z) (u v : StreamControl)
    (conversation : option StreamId) : M LaneDescriptor :=
  if OfferBase_classOf u && AcceptBase_classOf v then
    let lane1 := adoptLane conversation p in
    let lane2 := adoptLane conversation q in
    transfer_offer_accept u v (mkLaneDescriptor lane2) ;;;
    let result := mkLaneDescriptor (adoptLane conversation p) in
    LaneHandle_drop lane1 ;;;
    SharedPtr_release conversation ;;;
    ret result
  else if OfferBase_classOf v && AcceptBase_classOf u then
    let lane1 := adoptLane conversation p in
    let lane2 := adoptLane conversation q in
    transfer_offer_accept v u (mkLaneDescriptor lane1) ;;;
    let result := mkLaneDescriptor (adoptLane conversation p) in
    LaneHandle_drop lane2 ;;;
    SharedPtr_release conversation ;;;
    ret result
  else if SendFromBufferBase_classOf u && RecvToBufferBase_classOf v then
    transfer_send_recv u v ;;;
    SharedPtr_release conversation ;;;
    ret LaneDescriptor_empty
  else if SendFromBufferBase_classOf v && RecvToBufferBase_classOf u then
    transfer_send_recv v u ;;;
    SharedPtr_release conversation ;;;
    ret LaneDescriptor_empty
  else if PushDescriptorBase_classOf u && PullDescriptorBase_classOf v then
    transfer_push_pull u v ;;;
    SharedPtr_release conversation ;;;
    ret LaneDescriptor_empty
  else
    panic (AssertionFailed "Operations do not match").

(** [Stream::submit] *)
Definition submit (self : StreamId) (p : Z) (u : StreamControl) : M LaneDescriptor :=
  assert (is_lane p) "!(p & ~int(1))" ;;;
  let q := 1 - p in
  this <- deref self ;;
  assert (negb (idx p (_laneBroken this))) "!_laneBroken[p]" ;;;
  match idx q (_processQueue this) with
  | v :: rest =>
      store self (set_processQueue q rest this) ;;;
      conversation <-
        (if OfferBase_classOf v || AcceptBase_classOf v
         then conversation_removeFront self
         else ret None) ;;
      submit_matched p q u v conversation
  | [] =>
      if idx q (_laneBroken this) then
        panic (AssertionFailed "Handle remotely broken lanes")
      else if OfferBase_classOf u || AcceptBase_classOf u then
        modify self (addBack p u) ;;;
        conversation <- makeShared_Stream ;;
        modify conversation (set_counter 3) ;;;
        modify conversation (set_peerCount 0 2) ;;;
        modify conversation (set_peerCount 1 2) ;;;
        let handle := adoptLane (Some conversation) p in
        modify self (fun s =>
          set_conversationQueue (_conversationQueue s ++ [conversation]) s) ;;;
        ret (mkLaneDescriptor handle)
      else
        modify self (addBack p u) ;;;
        ret LaneDescriptor_empty
  end.

(** [LaneDescriptor::submit] *)
Definition LaneDescriptor_submit (d : LaneDescriptor) (control : StreamControl)
    : M LaneDescriptor :=
  match _handle d with
  | LaneHandle_adopt stream lane => submit stream lane control
  | LaneHandle_null => panic BadPointer
  end.

(** Modelled from the spec: the constructor of top-level streams is outside
    the sources at hand.  "new_stream() -> (LaneHandle, LaneHandle):
    construct a top-level stream, return handles for lane 0 and lane 1";
    the peer counts that [Stream::Stream] sets, 1 and 1, stand for these
    two handles, and the control block holds one reference per lane. *)
Definition createStream : M (LaneHandle * LaneHandle) :=
  stream <- makeShared_Stream ;;
  modify stream (set_counter 2) ;;;
  ret (LaneHandle_adopt stream 0, LaneHandle_adopt stream 1).

Definition empty_kernel : Kernel := mkKernel [] ∅ ∅ [].

(** ** Vocabulary of the properties *)

(** The kernel after a write through the stream pointer [s]. *)
Definition write_stream (s : StreamId) (st : Stream) (K : Kernel) : Kernel :=
  set_heap (<[s := Some st]> (heap K)) K.

(** The items that open a conversation. *)
Definition handshake (x : StreamControl) : bool :=
  OfferBase_classOf x || AcceptBase_classOf x.

(** The pairs of kinds for which [Stream::submit] has a branch: [u] is the
    item submitted, [v] the one taken from the queue. *)
Definition handled (u v : StreamControl) : bool :=
  OfferBase_classOf u && AcceptBase_classOf v
  || OfferBase_classOf v && AcceptBase_classOf u
  || SendFromBufferBase_classOf u && RecvToBufferBase_classOf v
  || SendFromBufferBase_classOf v && RecvToBufferBase_classOf u
  || PushDescriptorBase_classOf u && PullDescriptorBase_classOf v.

(** The pairs that match: Offer with Accept, SendBuffer with RecvBuffer,
    PushDescriptor with PullDescriptor, whichever of the two arrives
    first. *)
Definition legal (u v : StreamControl) : bool :=
  match u, v with
  | Offer _, Accept _ _ | Accept _ _, Offer _
  | SendFromBuffer _ _, RecvToBuffer _ _ | RecvToBuffer _ _, SendFromBuffer _ _
  | PushDescriptor _ _, PullDescriptor _ _ | PullDescriptor _ _, PushDescriptor _ _ => true
  | _, _ => false
  end.

(** Items parked on a stream, oldest first; at most one of the two queues
    holds any. *)
Definition parked (st : Stream) : list StreamControl :=
  fst (_processQueue st) ++ snd (_processQueue st).

Fixpoint handshakes (l : list StreamControl) : list StreamControl :=
  match l with
  | [] => []
  | x :: rest => if handshake x then x :: handshakes rest else handshakes rest
  end.

(** The parked handshake items, each with the conversation that was created
    when it was parked. *)
Definition pending_conversations (st : Stream) : list (StreamControl * StreamId) :=
  zip (handshakes (parked st)) (_conversationQueue st).

(** A conversation as [submit] creates it, apart from its peer counts and
    its own queues: three references and no broken lane. *)
Definition fresh_conversation (child : Stream) : Prop :=
  counter child = 3 /\ _laneBroken child = (false, false).

(** What holds of the heap between any two calls of [submit]. *)
Record kernel_inv (K : Kernel) : Prop := mk_kernel_inv {
  inv_one_side : forall s st, heap K !! s = Some (Some st) ->
    fst (_processQueue st) = [] \/ snd (_processQueue st) = [];
  inv_aligned : forall s st, heap K !! s = Some (Some st) ->
    length (_conversationQueue st) = length (handshakes (parked st));
  inv_child : forall s st c, heap K !! s = Some (Some st) ->
    c ∈ _conversationQueue st ->
    c <> s /\ exists child, heap K !! c = Some (Some child) /\ fresh_conversation child;
  inv_unique : forall s1 st1 i s2 st2 j c,
    heap K !! s1 = Some (Some st1) -> heap K !! s2 = Some (Some st2) ->
    _conversationQueue st1 !! i = Some c -> _conversationQueue st2 !! j = Some c ->
    s1 = s2 /\ i = j;
}.

(** No queue of conversations mentions [c]. *)
Definition unreferenced (K : Kernel) (c : StreamId) : Prop :=
  forall s st, heap K !! s = Some (Some st) -> c ∉ _conversationQueue st.

Definition same_queues (st st' : Stream) : Prop :=
  _processQueue st' = _processQueue st /\
  _conversationQueue st' = _conversationQueue st.

Definition same_control (st st' : Stream) : Prop :=
  counter st' = counter st /\ _laneBroken st' = _laneBroken st.

(** How the heap may change after the lock of [submit] is released: no
    object appears, the queues of every stream stay, and only the
    conversation [c] that was taken from the queue may lose references, get
    a lane broken or be destroyed. *)
Definition evolves (c : option StreamId) (H H' : list (option Stream)) : Prop :=
  forall s,
    match H !! s, H' !! s with
    | Some (Some st), Some (Some st') =>
        same_queues st st' /\ (Some s <> c -> same_control st st')
    | Some (Some st), Some None => Some s = c
    | Some None, Some None => True
    | None, None => True
    | _, _ => False
    end.

(** A universe whose handles in use are below the next one to allocate. *)
Definition universe_wf (un : Universe) : Prop :=
  forall h, is_Some (_descriptorMap un !! h) -> h < _nextHandle un.

(** What one call of [submit] on a stream did with its item: parked it on
    its lane, or paired it with the item [v] at the head of the opposite
    queue; [d] is the descriptor that the call returned. *)
Inductive Step :=
| Parked (stream : nat) (lane : Z) (u : StreamControl) (d : LaneDescriptor)
| Paired (stream : nat) (lane : Z) (u v : StreamControl) (d : LaneDescriptor).

Definition observe (self : StreamId) (p : Z) (u : StreamControl)
    : M (LaneDescriptor -> Step) :=
  this <- deref self ;;
  ret (match idx (1 - p) (_processQueue this) with
       | v :: _ => Paired self p u v
       | [] => Parked self p u
       end).

(** A sequence of submits on the streams of the kernel, with what each of
    them did. *)
Fixpoint run (inputs : list (nat * Z * StreamControl)) : M (list Step) :=
  match inputs with
  | [] => ret []
  | (self, p, u) :: rest =>
      step <- observe self p u ;;
      d <- submit self p u ;;
      steps <- run rest ;;
      ret (step d :: steps)
  end.

(** The items put on the queue of [lane] of [stream], and the items taken
    from it, in the order in which that happened. *)
Fixpoint enqueued (stream : nat) (lane : Z) (steps : list Step) : list StreamControl :=
  match steps with
  | [] => []
  | Parked s p u _ :: rest =>
      if (s =? stream)%nat && (p =? lane)
      then u :: enqueued stream lane rest else enqueued stream lane rest
  | Paired _ _ _ _ _ :: rest => enqueued stream lane rest
  end.

Fixpoint dequeued (stream : nat) (lane : Z) (steps : list Step) : list StreamControl :=
  match steps with
  | [] => []
  | Parked _ _ _ _ :: rest => dequeued stream lane rest
  | Paired s p _ v _ :: rest =>
      if (s =? stream)%nat && (1 - p =? lane)
      then v :: dequeued stream lane rest else dequeued stream lane rest
  end.

(** The handle of the other lane of the same stream. *)
Definition opposite (h : LaneHandle) : LaneHandle :=
  match h with
  | LaneHandle_adopt c lane => LaneHandle_adopt c (1 - lane)
  | LaneHandle_null => LaneHandle_null
  end.

(** The handshake items parked on [stream], each with the handle that was
    returned to its submitter when it was parked. *)
Fixpoint handles_parked (stream : nat) (steps : list Step)
    : list (StreamControl * LaneHandle) :=
  match steps with
  | [] => []
  | Parked s _ u d :: rest =>
      if (s =? stream)%nat && handshake u
      then (u, _handle d) :: handles_parked stream rest
      else handles_parked stream rest
  | Paired _ _ _ _ _ :: rest => handles_parked stream rest
  end.

(** The handshake items taken from a queue of [stream], each with the
    opposite of the handle that was returned to the submitter it was
    paired with. *)
Fixpoint handles_paired (stream : nat) (steps : list Step)
    : list (StreamControl * LaneHandle) :=
  match steps with
  | [] => []
  | Parked _ _ _ _ :: rest => handles_paired stream rest
  | Paired s _ _ v d :: rest =>
      if (s =? stream)%nat && handshake v
      then (v, opposite (_handle d)) :: handles_paired stream rest
      else handles_paired stream rest
  end.

(** The lane on which the parked items of a stream are. *)
Definition parked_lane (st : Stream) : Z :=
  match fst (_processQueue st) with
  | [] => 1
  | _ :: _ => 0
  end.

(** The parked handshake items, each with the handle of its own side of
    the conversation that is pending for it. *)
Definition pending_handles (st : Stream) : list (StreamControl * LaneHandle) :=
  map (fun vc => (fst vc, LaneHandle_adopt (snd vc) (parked_lane st)))
    (pending_conversations st).

(** The events posted since the log was [log], all carrying [kErrSuccess]. *)
Definition success_since (log : list AsyncEvent) (K : Kernel) : Prop :=
  exists new, events K = log ++ new /\ Forall (fun e => ev_error e = kErrSuccess) new.

(** ** Kernel states of the scenarios *)

Definition universe_empty : Universe := mkUniverse false ∅ 1.

(** One top-level stream at address 0 and one universe at address 7. *)
Definition k_fresh : Kernel :=
  mkKernel [Some (mkStream 2 (1, 1) (false, false) ([], []) [])]
    (<[7%nat := universe_empty]> ∅) ∅ [].

(** The kernel after [m], or [K] itself when [m] does not return. *)
Definition after {A} (m : M A) (K : Kernel) : Kernel :=
  match m K with
  | Ok (_, K') => K'
  | Abort _ => K
  end.

Definition hello : list byte := [x68; x65; x6c; x6c; x6f].

(** A descriptor that can be copied: the lane handle that it may carry
    names a lane, of a live stream, whose peer count is not zero. *)
Definition copyable (K : Kernel) (d : AnyDescriptor) : Prop :=
  match d with
  | AnyLaneDescriptor (mkLaneDescriptor (LaneHandle_adopt s lane)) =>
      is_lane lane = true /\
      exists st, heap K !! s = Some (Some st) /\ idx lane (_peerCount st) <> 0
  | _ => True
  end.

(** [m] keeps [I]: whenever [m] returns from a state in [I], it returns
    into [I]. *)
Definition keeps {A} (I : Kernel -> Prop) (m : M A) : Prop :=
  forall K a K', I K -> m K = Ok (a, K') -> I K'.

(** [m] never stops with [why]. *)
Definition avoids {A} (why : Panic) (m : M A) : Prop :=
  forall K, m K <> Abort why.

(** The universe after a descriptor was attached to it under its lock. *)
Definition attached (d : AnyDescriptor) (un : Universe) : Universe :=
  mkUniverse false (<[_nextHandle un := d]> (_descriptorMap un)) (_nextHandle un + 1).

(** The kernel after the stream [s] was destroyed. *)
Definition free_stream (s : StreamId) (K : Kernel) : Kernel :=
  set_heap (<[s := None]> (heap K)) K.

(** A stream after the last handle on [lane] was dropped: the count is
    decremented, the lane is broken and one reference is given up. *)
Definition lane_closed (lane : Z) (st : Stream) : Stream :=
  set_counter (counter st - 1)
    (set_laneBroken lane true
       (set_peerCount lane (wrap_int (idx lane (_peerCount st) - 1)) st)).

(** The log of completions is [E]. *)
Definition log_is (E : list AsyncEvent) (K : Kernel) : Prop := events K = E.

(** Where the dispatch of [submit] ends when no branch takes the pair. *)
Definition mismatch : Panic := AssertionFailed "Operations do not match".

(** The heap is [H]. *)
Definition heap_is (H : list (option Stream)) (K : Kernel) : Prop := heap K = H.

(** The heap has evolved from [H0] with [c] as the conversation that was
    taken from the queue. *)
Definition heap_evolved (c : option StreamId) (H0 : list (option Stream))
    (K : Kernel) : Prop :=
  evolves c H0 (heap K).

(** The top-level stream of [k_fresh], and what the scenarios leave of
    it. *)
Definition stream_with (queue0 : list StreamControl) (conversations : list nat)
    : Stream :=
  mkStream 2 (1, 1) (false, false) (queue0, []) conversations.

Definition recv16 : StreamControl := RecvToBuffer 2 (mkAccessor 100 16).
Definition recv3 : StreamControl := RecvToBuffer 2 (mkAccessor 100 3).
Definition memory5 : AnyDescriptor := MemoryAccessDescriptor 5.

Definition k_send_parked : Kernel := after (submit 0%nat 0 (SendFromBuffer 1 hello)) k_fresh.
Definition k_recv_parked : Kernel := after (submit 0%nat 0 recv16) k_fresh.
Definition k_offer_parked : Kernel := after (submit 0%nat 0 (Offer 1)) k_fresh.
Definition k_push_parked : Kernel := after (submit 0%nat 0 (PushDescriptor 1 memory5)) k_fresh.
Definition k_pull_parked : Kernel := after (submit 0%nat 0 (PullDescriptor 1 7%nat)) k_fresh.
Definition k_lane1_closed : Kernel := after (LaneHandle_drop (LaneHandle_adopt 0%nat 1)) k_fresh.

(** What [m] returns from [K], if it returns. *)
Definition returned {A} (m : M A) (K : Kernel) : option A :=
  match m K with
  | Ok (a, _) => Some a
  | Abort _ => None
  end.

(** "A" then "B" sent on lane 0 of stream 0, then two receives on lane 1
    into buffers at 100 and at 200. *)
Definition two_sends_two_recvs : list (nat * Z * StreamControl) :=
  [(0%nat, 0, SendFromBuffer 1 [x41]); (0%nat, 0, SendFromBuffer 2 [x42]);
   (0%nat, 1, RecvToBuffer 3 (mkAccessor 100 1));
   (0%nat, 1, RecvToBuffer 4 (mkAccessor 200 1))].

(** ** Vocabulary of the further properties *)

(** The conversation that a [submit] on lane [p] takes from the queue of
    conversations: the oldest one, when the item at the head of the
    opposite queue is an Offer or an Accept. *)
Definition taken_conversation (p : Z) (this : Stream) : option StreamId :=
  match idx (1 - p) (_processQueue this) with
  | v :: _ => if handshake v then head (_conversationQueue this) else None
  | [] => None
  end.

(** Whether a [submit] of [u] on lane [p] parks an Offer or an Accept. *)
Definition parks_handshake (p : Z) (u : StreamControl) (this : Stream) : bool :=
  match idx (1 - p) (_processQueue this) with
  | [] => handshake u
  | _ :: _ => false
  end.

(** The submit infos of the items that the pairing steps completed. *)
Fixpoint completed (steps : list Step) : list SubmitInfo :=
  match steps with
  | [] => []
  | Parked _ _ _ _ :: rest => completed rest
  | Paired _ _ u v _ :: rest => info_of u :: info_of v :: completed rest
  end.

(** Nothing is parked on any stream. *)
Definition idle (K : Kernel) : Prop :=
  forall s st, heap K !! s = Some (Some st) ->
    _processQueue st = ([], []) /\ _conversationQueue st = [].

(** The universes are [U]; the memory is [mem]. *)
Definition universes_are (U : gmap nat Universe) (K : Kernel) : Prop :=
  universes K = U.
Definition memory_is (mem : gmap nat byte) (K : Kernel) : Prop := memory K = mem.

(** A handle is dropped and then used again. *)
Definition drop_twice (h : LaneHandle) : M unit :=
  LaneHandle_drop h ;;; LaneHandle_drop h.
Definition copy_after_drop (h : LaneHandle) : M LaneHandle :=
  LaneHandle_drop h ;;; LaneHandle_copy h.

(** A handle is copied and the copy is destroyed. *)
Definition copy_then_drop (h : LaneHandle) : M unit :=
  h' <- LaneHandle_copy h ;; LaneHandle_drop h'.

(** An Offer is parked on lane 0 of the top-level stream and the handle
    that its submit returned is destroyed. *)
Definition k_offer_abandoned : Kernel :=
  after (LaneHandle_drop (LaneHandle_adopt 1%nat 0)) k_offer_parked.

(** The handle [h] is destroyed and an item is then submitted. *)
Definition close_then_submit (h : LaneHandle) (self : StreamId) (p : Z)
    (u : StreamControl) : M LaneDescriptor :=
  LaneHandle_drop h ;;; submit self p u.

(** An Offer on lane [p] and an Accept on the opposite lane of a stream,
    then a buffer sent through the descriptor that the Offer's submit
    returned and received through the one that the Accept's returned. *)
Definition converse (self : StreamId) (p : Z) (offer accept send recv : StreamControl)
    : M LaneDescriptor :=
  d0 <- submit self p offer ;;
  d1 <- submit self (1 - p) accept ;;
  LaneDescriptor_submit d0 send ;;;
  LaneDescriptor_submit d1 recv.

(** * Properties *)

(** ** Lane numbers and two-element arrays *)

Lemma is_lane_spec p : is_lane p = true <-> p = 0 \/ p = 1.
Proof.
  unfold is_lane. rewrite Z.eqb_eq, <- Z.ldiff_land.
  change 1 with (Z.ones 1) at 1. rewrite Z.ldiff_ones_r by lia.
  rewrite Z.shiftr_div_pow2, Z.shiftl_mul_pow2 by lia.
  change (2 ^ 1) with 2. split; intros; Z.to_euclidean_division_equations; lia.
Qed.

Lemma is_lane_opposite p : is_lane p = true -> is_lane (1 - p) = true.
Proof. rewrite !is_lane_spec. lia. Qed.

Lemma idx_upd_eq {A} p (x : A) a : idx p (upd p x a) = x.
Proof. unfold idx, upd. by destruct (p =? 0). Qed.

Lemma idx_upd_opposite {A} p (x : A) a :
  is_lane p = true -> idx p (upd (1 - p) x a) = idx p a.
Proof.
  intros [-> | ->]%is_lane_spec; reflexivity.
Qed.

Lemma idx_upd_opposite' {A} p (x : A) a :
  is_lane p = true -> idx (1 - p) (upd p x a) = idx (1 - p) a.
Proof.
  intros [-> | ->]%is_lane_spec; reflexivity.
Qed.

(** ** Receive buffers *)

Lemma write_bytes_lookup_lt data : forall a m i,
  (i < a)%nat -> write_bytes a data m !! i = m !! i.
Proof.
  induction data as [|b data IH]; intros a m i Hi; simpl; [done|].
  rewrite IH by lia. apply lookup_insert_ne. lia.
Qed.

Lemma read_write_bytes data : forall a m,
  read_bytes a (length data) (write_bytes a data m) = map Some data.
Proof.
  unfold read_bytes.
  induction data as [|b data IH]; intros a m; simpl; [done|].
  f_equal.
  - rewrite Nat.add_0_r, write_bytes_lookup_lt by lia. apply lookup_insert_eq.
  - rewrite <- seq_shift, map_map. rewrite <- (IH (S a) (<[a:=b]> m)).
    apply map_ext. intros i. f_equal. lia.
Qed.

(** ** Kernel paths *)

Lemma bind_Ok {A B} (m : M A) (f : A -> M B) K b K' :
  bind m f K = Ok (b, K') <-> exists a K1, m K = Ok (a, K1) /\ f a K1 = Ok (b, K').
Proof.
  unfold bind. split.
  - destruct (m K) as [[a K1]|why]; [eauto | discriminate].
  - intros (a & K1 & -> & Hf). done.
Qed.

Lemma bind_eq {A B} (m : M A) (f : A -> M B) K a K1 :
  m K = Ok (a, K1) -> bind m f K = f a K1.
Proof. unfold bind. by intros ->. Qed.

Lemma bind_Abort {A B} (m : M A) (f : A -> M B) K why :
  m K = Abort why -> bind m f K = Abort why.
Proof. unfold bind. by intros ->. Qed.

Lemma deref_eq s K st : heap K !! s = Some (Some st) -> deref s K = Ok (st, K).
Proof. unfold deref. by intros ->. Qed.

Lemma deref_Ok s K st K' :
  deref s K = Ok (st, K') -> K' = K /\ heap K !! s = Some (Some st).
Proof.
  unfold deref. destruct (heap K !! s) as [[st0|]|]; [|done..].
  by intros [= -> ->].
Qed.

Lemma store_eq s K st0 st :
  heap K !! s = Some (Some st0) -> store s st K = Ok (tt, write_stream s st K).
Proof. unfold store. by intros ->. Qed.

Lemma store_Ok s st K a K' :
  store s st K = Ok (a, K') ->
  K' = write_stream s st K /\ exists st0, heap K !! s = Some (Some st0).
Proof.
  unfold store. destruct (heap K !! s) as [[st0|]|]; [|done..].
  intros [= <- <-]. eauto.
Qed.

Lemma modify_eq s K st f :
  heap K !! s = Some (Some st) -> modify s f K = Ok (tt, write_stream s (f st) K).
Proof.
  intros Hs. unfold modify. rewrite (bind_eq _ _ _ _ _ (deref_eq _ _ _ Hs)).
  by apply store_eq with st.
Qed.

Lemma lookup_write (s : StreamId) st' K (s0 : StreamId) :
  (s < length (heap K))%nat ->
  heap (write_stream s st' K) !! s0
  = if decide (s0 = s) then Some (Some st') else heap K !! s0.
Proof.
  intros Hs. unfold write_stream. simpl. case_decide as E.
  - subst. by apply list_lookup_insert_eq.
  - by apply list_lookup_insert_ne.
Qed.

Lemma lookup_write_live (s : StreamId) st st' K (s0 : StreamId) :
  heap K !! s = Some (Some st) ->
  heap (write_stream s st' K) !! s0
  = if decide (s0 = s) then Some (Some st') else heap K !! s0.
Proof. intros Hs. apply lookup_write. by eapply lookup_lt_Some. Qed.

(** ** The locked part of [submit] *)

Lemma submit_not_lane self p u K :
  is_lane p = false -> submit self p u K = Abort (AssertionFailed "!(p & ~int(1))").
Proof. intros Hp. unfold submit. by rewrite Hp. Qed.

Lemma submit_dangling self p u K :
  is_lane p = true -> (forall this, heap K !! self <> Some (Some this)) ->
  submit self p u K = Abort BadPointer.
Proof.
  intros Hp Hs. unfold submit. rewrite Hp. simpl. unfold bind at 1. simpl.
  unfold bind at 1. unfold deref.
  destruct (heap K !! self) as [[this|]|] eqn:E; [by destruct (Hs this)|done|done].
Qed.

Lemma submit_locally_broken self p u K this :
  is_lane p = true -> heap K !! self = Some (Some this) ->
  idx p (_laneBroken this) = true ->
  submit self p u K = Abort (AssertionFailed "!_laneBroken[p]").
Proof.
  intros Hp Hs Hb. unfold submit. rewrite Hp. simpl. unfold bind at 1. simpl.
  unfold bind at 1. rewrite (deref_eq _ _ _ Hs). by rewrite Hb.
Qed.

Lemma submit_Ok_entry self p u K d K' :
  submit self p u K = Ok (d, K') ->
  is_lane p = true /\ exists this, heap K !! self = Some (Some this) /\
    idx p (_laneBroken this) = false.
Proof.
  intros H. destruct (is_lane p) eqn:Hp; [|by rewrite submit_not_lane in H].
  split; [done|].
  destruct (heap K !! self) as [[this|]|] eqn:Hs.
  - exists this. split; [done|]. destruct (idx p (_laneBroken this)) eqn:Hb; [|done].
    by rewrite (submit_locally_broken _ _ _ _ _ Hp Hs Hb) in H.
  - rewrite submit_dangling in H; [done|done|]. intros this. by rewrite Hs.
  - rewrite submit_dangling in H; [done|done|]. intros this. by rewrite Hs.
Qed.

Lemma submit_pop self p u K this v rest :
  is_lane p = true ->
  heap K !! self = Some (Some this) ->
  idx p (_laneBroken this) = false ->
  idx (1 - p) (_processQueue this) = v :: rest ->
  submit self p u K =
    (conversation <-
       (if OfferBase_classOf v || AcceptBase_classOf v
        then conversation_removeFront self else ret None) ;;
     submit_matched p (1 - p) u v conversation)
      (write_stream self (set_processQueue (1 - p) rest this) K).
Proof.
  intros Hp Hs Hb Hq. unfold submit. rewrite Hp. simpl.
  unfold bind at 1. simpl. unfold bind at 1. rewrite (deref_eq _ _ _ Hs).
  rewrite Hb. simpl. unfold bind at 1. simpl. rewrite Hq.
  unfold bind at 1. by rewrite (store_eq _ _ _ _ Hs).
Qed.

Lemma submit_remotely_broken self p u K this :
  is_lane p = true ->
  heap K !! self = Some (Some this) ->
  idx p (_laneBroken this) = false ->
  idx (1 - p) (_processQueue this) = [] ->
  idx (1 - p) (_laneBroken this) = true ->
  submit self p u K = Abort (AssertionFailed "Handle remotely broken lanes").
Proof.
  intros Hp Hs Hb Hq Hbq. unfold submit. rewrite Hp. simpl.
  unfold bind at 1. simpl. unfold bind at 1. rewrite (deref_eq _ _ _ Hs).
  rewrite Hb. simpl. unfold bind at 1. simpl. by rewrite Hq, Hbq.
Qed.

Lemma submit_park_plain self p u K this :
  is_lane p = true ->
  heap K !! self = Some (Some this) ->
  idx p (_laneBroken this) = false ->
  idx (1 - p) (_processQueue this) = [] ->
  idx (1 - p) (_laneBroken this) = false ->
  handshake u = false ->
  submit self p u K = Ok (LaneDescriptor_empty, write_stream self (addBack p u this) K).
Proof.
  intros Hp Hs Hb Hq Hbq Hu. unfold submit. rewrite Hp. simpl.
  unfold bind at 1. simpl. unfold bind at 1. rewrite (deref_eq _ _ _ Hs).
  rewrite Hb. simpl. unfold bind at 1. simpl. rewrite Hq, Hbq.
  unfold handshake in Hu. rewrite Hu.
  unfold bind at 1. by rewrite (modify_eq _ _ _ _ Hs).
Qed.

Lemma submit_park_handshake self p u K this :
  is_lane p = true ->
  heap K !! self = Some (Some this) ->
  idx p (_laneBroken this) = false ->
  idx (1 - p) (_processQueue this) = [] ->
  idx (1 - p) (_laneBroken this) = false ->
  handshake u = true ->
  let c := length (heap K) in
  submit self p u K =
    Ok (mkLaneDescriptor (LaneHandle_adopt c p),
        set_heap
          (<[self := Some (set_conversationQueue (_conversationQueue this ++ [c])
                             (addBack p u this))]> (heap K)
           ++ [Some (mkStream 3 (2, 2) (false, false) ([], []) [])]) K).
Proof.
  intros Hp Hs Hb Hq Hbq Hu c. unfold submit. rewrite Hp. simpl.
  unfold bind at 1. simpl. unfold bind at 1. rewrite (deref_eq _ _ _ Hs).
  rewrite Hb. simpl. unfold bind at 1. simpl. rewrite Hq, Hbq.
  unfold handshake in Hu. rewrite Hu.
  assert (Hlt : (self < length (heap K))%nat) by by eapply lookup_lt_Some.
  unfold bind at 1. rewrite (modify_eq _ _ _ _ Hs).
  unfold bind at 1. unfold makeShared_Stream.
  set (K1 := write_stream self (addBack p u this) K).
  assert (Hlen : length (heap K1) = c).
  { unfold K1, write_stream. simpl. by rewrite length_insert. }
  rewrite Hlen.
  set (K2 := set_heap (heap K1 ++ [Some Stream_new]) K1).
  assert (Hc2 : heap K2 !! c = Some (Some Stream_new)).
  { unfold K2. simpl. rewrite <- Hlen. by apply list_lookup_middle. }
  unfold bind at 1. rewrite (modify_eq _ _ _ _ Hc2).
  set (K3 := write_stream c (set_counter 3 Stream_new) K2).
  assert (Hc3 : heap K3 !! c = Some (Some (set_counter 3 Stream_new))).
  { unfold K3. rewrite (lookup_write_live _ _ _ _ _ Hc2). by rewrite decide_True. }
  unfold bind at 1. rewrite (modify_eq _ _ _ _ Hc3).
  set (K4 := write_stream c (set_peerCount 0 2 (set_counter 3 Stream_new)) K3).
  assert (Hc4 : heap K4 !! c = Some (Some (set_peerCount 0 2 (set_counter 3 Stream_new)))).
  { unfold K4. rewrite (lookup_write_live _ _ _ _ _ Hc3). by rewrite decide_True. }
  unfold bind at 1. rewrite (modify_eq _ _ _ _ Hc4).
  set (K5 := write_stream c
               (set_peerCount 1 2 (set_peerCount 0 2 (set_counter 3 Stream_new))) K4).
  assert (Hne : self <> c) by (unfold c; lia).
  assert (Hs5 : heap K5 !! self = Some (Some (addBack p u this))).
  { unfold K5. rewrite (lookup_write_live _ _ _ _ _ Hc4), decide_False by done.
    unfold K4. rewrite (lookup_write_live _ _ _ _ _ Hc3), decide_False by done.
    unfold K3. rewrite (lookup_write_live _ _ _ _ _ Hc2), decide_False by done.
    unfold K2, K1, write_stream. simpl.
    rewrite lookup_app_l by (by rewrite length_insert).
    by apply list_lookup_insert_eq. }
  unfold bind at 1. rewrite (modify_eq _ _ _ _ Hs5).
  unfold ret. f_equal. f_equal.
  unfold write_stream, set_heap, K5, K4, K3, K2, K1, write_stream, set_heap. simpl.
  f_equal.
  rewrite !list_insert_insert_eq.
  rewrite (insert_app_r_alt _ _ c) by (by rewrite length_insert).
  rewrite length_insert. unfold c. rewrite Nat.sub_diag. simpl.
  rewrite insert_app_l by (rewrite length_insert; done).
  by rewrite list_insert_insert_eq.
Qed.

(** ** Universes and events *)

Lemma with_universe_eq {A} w (f : Universe -> Result (A * Universe)) K un a un' :
  universes K !! w = Some un -> f un = Ok (a, un') ->
  with_universe w f K = Ok (a, set_universes (<[w := un']> (universes K)) K).
Proof. unfold with_universe. by intros -> ->. Qed.

Lemma attach_under_lock w d K un :
  universes K !! w = Some un -> lock un = false ->
  (grab w ;;;
   with_universe w Guard_acquire ;;;
   handle <- with_universe w (attachDescriptor d) ;;
   with_universe w Guard_release ;;;
   ret handle) K
  = Ok (_nextHandle un, set_universes (<[w := attached d un]> (universes K)) K).
Proof.
  intros Hw Hl. unfold grab, get_kernel, assert.
  unfold bind at 1. unfold bind at 1. rewrite Hw. simpl.
  unfold bind at 1.
  erewrite with_universe_eq; [|done|by unfold Guard_acquire; rewrite Hl].
  unfold bind at 1.
  erewrite with_universe_eq;
    [|by simpl; rewrite lookup_insert_eq|by unfold attachDescriptor].
  simpl. unfold bind at 1.
  erewrite with_universe_eq;
    [|by simpl; rewrite lookup_insert_eq|by unfold Guard_release].
  simpl. unfold ret, set_universes, attached. simpl.
  by rewrite !insert_insert_eq.
Qed.

Lemma AcceptPolicy_makeEvent_eq info error w lane K un :
  universes K !! w = Some un -> lock un = false ->
  AcceptPolicy_makeEvent info error w lane K
  = Ok (mkAsyncEvent kEventAccept info error (Some (_nextHandle un)) None,
        set_universes (<[w := attached (AnyLaneDescriptor lane) un]> (universes K)) K).
Proof.
  intros Hw Hl. pose proof (attach_under_lock w (AnyLaneDescriptor lane) K un Hw Hl) as H.
  unfold AcceptPolicy_makeEvent. unfold bind in *.
  destruct (grab w K) as [[[] K1]|]; [|done].
  destruct (with_universe w Guard_acquire K1) as [[[] K2]|]; [|done].
  destruct (with_universe w (attachDescriptor (AnyLaneDescriptor lane)) K2)
    as [[h K3]|]; [|done].
  destruct (with_universe w Guard_release K3) as [[[] K4]|]; [|done].
  unfold ret in *. by injection H as -> ->.
Qed.

Lemma PullDescriptorPolicy_makeEvent_eq info error w lane K un :
  universes K !! w = Some un -> lock un = false ->
  PullDescriptorPolicy_makeEvent info error w lane K
  = Ok (mkAsyncEvent kEventRecvDescriptor info error (Some (_nextHandle un)) None,
        set_universes (<[w := attached lane un]> (universes K)) K).
Proof.
  intros Hw Hl. pose proof (attach_under_lock w lane K un Hw Hl) as H.
  unfold PullDescriptorPolicy_makeEvent. unfold bind in *.
  destruct (grab w K) as [[[] K1]|]; [|done].
  destruct (with_universe w Guard_acquire K1) as [[[] K2]|]; [|done].
  destruct (with_universe w (attachDescriptor lane) K2) as [[h K3]|]; [|done].
  destruct (with_universe w Guard_release K3) as [[[] K4]|]; [|done].
  unfold ret in *. by injection H as -> ->.
Qed.

Lemma makeEvent_dead_universe w K :
  universes K !! w = None ->
  grab w K = Abort (AssertionFailed "universe").
Proof. intros Hw. unfold grab, get_kernel, bind, assert. by rewrite Hw. Qed.

Lemma attached_lookup d un :
  _descriptorMap (attached d un) !! _nextHandle un = Some d.
Proof. apply lookup_insert_eq. Qed.

Lemma attached_fresh un :
  universe_wf un -> _descriptorMap un !! _nextHandle un = None.
Proof.
  intros Hwf. destruct (_descriptorMap un !! _nextHandle un) eqn:E; [|done].
  assert (_nextHandle un < _nextHandle un); [|lia].
  apply Hwf. by rewrite E.
Qed.

Lemma attached_wf d un : universe_wf un -> universe_wf (attached d un).
Proof.
  intros Hwf h. unfold attached. simpl. rewrite lookup_insert.
  case_decide as E; [subst; lia|]. intros H%Hwf. lia.
Qed.

Lemma attached_others d un h :
  h <> _nextHandle un ->
  _descriptorMap (attached d un) !! h = _descriptorMap un !! h.
Proof. intros Hne. unfold attached. simpl. by rewrite lookup_insert_ne. Qed.

(** ** Dropping and copying lane handles *)

Lemma in_bounds_eq lane K : is_lane lane = true -> in_bounds lane K = Ok (tt, K).
Proof. unfold in_bounds. by intros ->. Qed.

Lemma decrementPeers_more s lane K st :
  is_lane lane = true -> heap K !! s = Some (Some st) ->
  1 < idx lane (_peerCount st) ->
  decrementPeers s lane K
  = Ok (false, write_stream s
                 (set_peerCount lane (wrap_int (idx lane (_peerCount st) - 1)) st) K).
Proof.
  intros Hl Hs Hc. unfold decrementPeers.
  rewrite (bind_eq _ _ _ _ _ (in_bounds_eq _ _ Hl)).
  rewrite (bind_eq _ _ _ _ _ (deref_eq _ _ _ Hs)). simpl.
  rewrite (bind_eq _ _ _ _ _ (store_eq _ _ _ _ Hs)).
  apply Z.ltb_lt in Hc. by rewrite Hc.
Qed.

Lemma decrementPeers_last s lane K st :
  is_lane lane = true -> heap K !! s = Some (Some st) ->
  idx lane (_peerCount st) <= 1 ->
  idx lane (_laneBroken st) = false ->
  decrementPeers s lane K
  = Ok (true, write_stream s
                (set_laneBroken lane true
                   (set_peerCount lane (wrap_int (idx lane (_peerCount st) - 1)) st)) K).
Proof.
  intros Hl Hs Hc Hb. unfold decrementPeers.
  rewrite (bind_eq _ _ _ _ _ (in_bounds_eq _ _ Hl)).
  rewrite (bind_eq _ _ _ _ _ (deref_eq _ _ _ Hs)). simpl.
  rewrite (bind_eq _ _ _ _ _ (store_eq _ _ _ _ Hs)).
  assert ((1 <? idx lane (_peerCount st)) = false) as -> by by apply Z.ltb_ge.
  set (st1 := set_peerCount lane _ st).
  assert (Hs1 : heap (write_stream s st1 K) !! s = Some (Some st1)).
  { rewrite (lookup_write_live _ _ _ _ _ Hs). by rewrite decide_True. }
  rewrite (bind_eq _ _ _ _ _ (deref_eq _ _ _ Hs1)).
  unfold st1 at 1. simpl. rewrite Hb. simpl.
  unfold bind at 1. simpl.
  rewrite (bind_eq _ _ _ _ _ (store_eq _ _ _ _ Hs1)).
  unfold ret, write_stream. simpl. by rewrite list_insert_insert_eq.
Qed.

Lemma decrementPeers_broken s lane K st :
  is_lane lane = true -> heap K !! s = Some (Some st) ->
  idx lane (_peerCount st) <= 1 ->
  idx lane (_laneBroken st) = true ->
  decrementPeers s lane K = Abort (AssertionFailed "!stream->_laneBroken[lane]").
Proof.
  intros Hl Hs Hc Hb. unfold decrementPeers.
  rewrite (bind_eq _ _ _ _ _ (in_bounds_eq _ _ Hl)).
  rewrite (bind_eq _ _ _ _ _ (deref_eq _ _ _ Hs)). simpl.
  rewrite (bind_eq _ _ _ _ _ (store_eq _ _ _ _ Hs)).
  assert ((1 <? idx lane (_peerCount st)) = false) as -> by by apply Z.ltb_ge.
  set (st1 := set_peerCount lane _ st).
  assert (Hs1 : heap (write_stream s st1 K) !! s = Some (Some st1)).
  { rewrite (lookup_write_live _ _ _ _ _ Hs). by rewrite decide_True. }
  rewrite (bind_eq _ _ _ _ _ (deref_eq _ _ _ Hs1)).
  unfold st1 at 1. simpl. by rewrite Hb.
Qed.

Lemma control_decrement_eq s K st :
  heap K !! s = Some (Some st) ->
  control_decrement s K
  = Ok (tt, if counter st =? 1 then free_stream s K
            else write_stream s (set_counter (counter st - 1) st) K).
Proof.
  intros Hs. unfold control_decrement.
  rewrite (bind_eq _ _ _ _ _ (deref_eq _ _ _ Hs)).
  destruct (counter st =? 1); [done|]. by apply store_eq with st.
Qed.

Lemma LaneHandle_drop_more s lane K st :
  is_lane lane = true -> heap K !! s = Some (Some st) ->
  1 < idx lane (_peerCount st) ->
  LaneHandle_drop (LaneHandle_adopt s lane) K
  = Ok (tt, write_stream s
              (set_peerCount lane (wrap_int (idx lane (_peerCount st) - 1)) st) K).
Proof.
  intros Hl Hs Hc. unfold LaneHandle_drop.
  by rewrite (bind_eq _ _ _ _ _ (decrementPeers_more _ _ _ _ Hl Hs Hc)).
Qed.

Lemma LaneHandle_drop_last s lane K st :
  is_lane lane = true -> heap K !! s = Some (Some st) ->
  idx lane (_peerCount st) <= 1 ->
  idx lane (_laneBroken st) = false ->
  LaneHandle_drop (LaneHandle_adopt s lane) K
  = Ok (tt, if counter st =? 1 then free_stream s K
            else write_stream s (lane_closed lane st) K).
Proof.
  intros Hl Hs Hc Hb. unfold LaneHandle_drop.
  rewrite (bind_eq _ _ _ _ _ (decrementPeers_last _ _ _ _ Hl Hs Hc Hb)).
  set (st1 := set_laneBroken _ _ _).
  assert (Hs1 : heap (write_stream s st1 K) !! s = Some (Some st1)).
  { rewrite (lookup_write_live _ _ _ _ _ Hs). by rewrite decide_True. }
  rewrite (control_decrement_eq _ _ _ Hs1). simpl.
  f_equal. f_equal. destruct (counter st =? 1).
  - unfold free_stream, write_stream. simpl. by rewrite list_insert_insert_eq.
  - unfold write_stream. simpl. by rewrite list_insert_insert_eq.
Qed.

(** ** What kernel paths keep *)

Lemma keeps_ret {A} I (a : A) : keeps I (ret a).
Proof. intros K a' K' HI [= <- <-]. done. Qed.

Lemma keeps_panic {A} I why : keeps I (@panic A why).
Proof. intros K a' K' HI [=]. Qed.

Lemma keeps_bind {A B} I (m : M A) (f : A -> M B) :
  keeps I m -> (forall a, keeps I (f a)) -> keeps I (bind m f).
Proof.
  intros Hm Hf K b K' HI (a & K1 & H1 & H2)%bind_Ok. eapply Hf; [|done]. eauto.
Qed.

Lemma keeps_assert I c msg : keeps I (assert c msg).
Proof. unfold assert. destruct c; [apply keeps_ret|apply keeps_panic]. Qed.

Lemma keeps_get_kernel I : keeps I get_kernel.
Proof. intros K a' K' HI [= <- <-]. done. Qed.

Lemma keeps_deref I s : keeps I (deref s).
Proof. intros K a K' HI [-> _]%deref_Ok. done. Qed.

Lemma keeps_in_bounds I lane : keeps I (in_bounds lane).
Proof. unfold in_bounds. destruct (is_lane lane); [apply keeps_ret|apply keeps_panic]. Qed.

Lemma keeps_grab I w : keeps I (grab w).
Proof.
  unfold grab. apply keeps_bind; [apply keeps_get_kernel|]. intros K.
  apply keeps_assert.
Qed.

Create HintDb keeps discriminated.
#[local] Hint Resolve keeps_ret keeps_panic keeps_assert keeps_get_kernel
  keeps_deref keeps_in_bounds keeps_grab : keeps.

(** Break a path into its steps, leaving the steps that are not known to
    keep the property. *)
Ltac keeps_steps :=
  repeat first
    [ solve [auto with keeps]
    | progress cbv zeta
    | match goal with
      | |- keeps _ (bind _ _) => apply keeps_bind; [|intros ?]
      | |- keeps _ (if ?c then _ else _) => destruct c
      | |- keeps _ ?m =>
          match m with
          | context [match ?x with _ => _ end] => destruct x
          end
      end ].

(** *** Paths that leave the log alone *)

Lemma keeps_log_store E s st : keeps (log_is E) (store s st).
Proof. intros K a K' HI [-> _]%store_Ok. exact HI. Qed.

Lemma keeps_log_with_universe {A} E w (f : Universe -> Result (A * Universe)) :
  keeps (log_is E) (with_universe w f).
Proof.
  unfold with_universe. intros K a K' HI H.
  destruct (universes K !! w) as [un|]; [|done].
  destruct (f un) as [[a' un']|]; [|done]. injection H as <- <-. exact HI.
Qed.

Lemma keeps_log_copyTo E acc data size : keeps (log_is E) (copyTo acc data size).
Proof. intros K a K' HI [= <- <-]. exact HI. Qed.

Lemma keeps_log_makeShared E : keeps (log_is E) makeShared_Stream.
Proof. intros K a K' HI [= <- <-]. exact HI. Qed.

#[local] Hint Resolve keeps_log_store keeps_log_with_universe keeps_log_copyTo
  keeps_log_makeShared : keeps.

Lemma keeps_log_modify E s f : keeps (log_is E) (modify s f).
Proof. unfold modify. keeps_steps. Qed.

Lemma keeps_log_control_decrement E s : keeps (log_is E) (control_decrement s).
Proof.
  unfold control_decrement. keeps_steps. intros ? ? ? HI [= <- <-]. exact HI.
Qed.

Lemma keeps_log_incrementPeers E s lane : keeps (log_is E) (incrementPeers s lane).
Proof. unfold incrementPeers. keeps_steps. Qed.

Lemma keeps_log_decrementPeers E s lane : keeps (log_is E) (decrementPeers s lane).
Proof. unfold decrementPeers. keeps_steps. Qed.

#[local] Hint Resolve keeps_log_modify keeps_log_control_decrement
  keeps_log_incrementPeers keeps_log_decrementPeers : keeps.

Lemma keeps_log_release E c : keeps (log_is E) (SharedPtr_release c).
Proof. unfold SharedPtr_release. keeps_steps. Qed.

Lemma keeps_log_LaneHandle_copy E h : keeps (log_is E) (LaneHandle_copy h).
Proof. unfold LaneHandle_copy. keeps_steps. Qed.

Lemma keeps_log_LaneHandle_drop E h : keeps (log_is E) (LaneHandle_drop h).
Proof. unfold LaneHandle_drop. keeps_steps. Qed.

#[local] Hint Resolve keeps_log_release keeps_log_LaneHandle_copy
  keeps_log_LaneHandle_drop : keeps.

Lemma keeps_log_AnyDescriptor_copy E d : keeps (log_is E) (AnyDescriptor_copy d).
Proof. unfold AnyDescriptor_copy. keeps_steps. Qed.

Lemma keeps_log_removeFront E s : keeps (log_is E) (conversation_removeFront s).
Proof. unfold conversation_removeFront. keeps_steps. Qed.

Lemma keeps_log_AcceptPolicy E info error w lane :
  keeps (log_is E) (AcceptPolicy_makeEvent info error w lane).
Proof. unfold AcceptPolicy_makeEvent. keeps_steps. Qed.

Lemma keeps_log_PullDescriptorPolicy E info error w lane :
  keeps (log_is E) (PullDescriptorPolicy_makeEvent info error w lane).
Proof. unfold PullDescriptorPolicy_makeEvent. keeps_steps. Qed.

#[local] Hint Resolve keeps_log_AnyDescriptor_copy keeps_log_removeFront
  keeps_log_AcceptPolicy keeps_log_PullDescriptorPolicy : keeps.

(** A property of the log is kept by a path that leaves the log alone. *)
Lemma keeps_of_log {A} (P : list AsyncEvent -> Prop) (m : M A) :
  (forall E, keeps (log_is E) m) -> keeps (fun K => P (events K)) m.
Proof.
  intros Hm K a K' HI H. specialize (Hm (events K) K a K' eq_refl H).
  unfold log_is in Hm. by rewrite Hm.
Qed.

(** *** Completions carry [kErrSuccess] *)

Lemma keeps_success_frame {A} log (m : M A) :
  (forall E, keeps (log_is E) m) -> keeps (success_since log) m.
Proof.
  intros Hm.
  apply (keeps_of_log (fun ev => exists new, ev = log ++ new /\
           Forall (fun e => ev_error e = kErrSuccess) new) m Hm).
Qed.

Lemma keeps_success_post log e :
  ev_error e = kErrSuccess -> keeps (success_since log) (post e).
Proof.
  intros He K a K' (new & Hev & Hall) [= <- <-]. exists (new ++ [e]). simpl.
  rewrite Hev, app_assoc. split; [done|].
  apply Forall_app. split; [done|]. by apply Forall_singleton.
Qed.

Lemma AcceptPolicy_makeEvent_Ok info error w lane K e K' :
  AcceptPolicy_makeEvent info error w lane K = Ok (e, K') ->
  ev_error e = error /\ ev_submitInfo e = info /\ ev_type e = kEventAccept.
Proof.
  unfold AcceptPolicy_makeEvent.
  intros (? & ? & _ & (? & ? & _ & (h & ? & _ & (? & ? & _ & H)%bind_Ok)%bind_Ok)%bind_Ok)%bind_Ok.
  by injection H as <- <-.
Qed.

Lemma PullDescriptorPolicy_makeEvent_Ok info error w lane K e K' :
  PullDescriptorPolicy_makeEvent info error w lane K = Ok (e, K') ->
  ev_error e = error /\ ev_submitInfo e = info /\ ev_type e = kEventRecvDescriptor.
Proof.
  unfold PullDescriptorPolicy_makeEvent.
  intros (? & ? & _ & (? & ? & _ & (h & ? & _ & (? & ? & _ & H)%bind_Ok)%bind_Ok)%bind_Ok)%bind_Ok.
  by injection H as <- <-.
Qed.

Lemma keeps_success_AcceptBase_complete log info w lane :
  keeps (success_since log) (AcceptBase_complete info kErrSuccess w lane).
Proof.
  unfold AcceptBase_complete. intros K a K' HI (e & K1 & H1 & H2)%bind_Ok.
  destruct (AcceptPolicy_makeEvent_Ok _ _ _ _ _ _ _ H1) as (He & _).
  eapply keeps_success_post; [done| |done].
  eapply keeps_success_frame; [|done|done]. auto with keeps.
Qed.

Lemma keeps_success_PullDescriptorBase_complete log info w lane :
  keeps (success_since log) (PullDescriptorBase_complete info kErrSuccess w lane).
Proof.
  unfold PullDescriptorBase_complete. intros K a K' HI (e & K1 & H1 & H2)%bind_Ok.
  destruct (PullDescriptorPolicy_makeEvent_Ok _ _ _ _ _ _ _ H1) as (He & _).
  eapply keeps_success_post; [done| |done].
  eapply keeps_success_frame; [|done|done]. auto with keeps.
Qed.

(** A step that leaves the log alone keeps what holds of the log. *)
Ltac keeps_success :=
  repeat first
    [ solve [auto with keeps]
    | solve [apply keeps_success_frame; intros; auto with keeps]
    | solve [apply keeps_success_post; reflexivity]
    | apply keeps_success_AcceptBase_complete
    | apply keeps_success_PullDescriptorBase_complete
    | progress cbv zeta
    | match goal with
      | |- keeps _ (bind _ _) => apply keeps_bind; [|intros ?]
      | |- keeps _ (if ?c then _ else _) => destruct c
      | |- keeps _ ?m =>
          match m with
          | context [match ?x with _ => _ end] => destruct x
          end
      end ].

Lemma keeps_success_transfer_offer_accept log offer accept lane :
  keeps (success_since log) (transfer_offer_accept offer accept lane).
Proof.
  unfold transfer_offer_accept, OfferBase_complete. keeps_success.
Qed.

Lemma keeps_success_transfer_send_recv log from to :
  keeps (success_since log) (transfer_send_recv from to).
Proof.
  unfold transfer_send_recv, SendFromBufferBase_complete, RecvToBufferBase_complete.
  keeps_success.
Qed.

Lemma keeps_success_transfer_push_pull log push pull :
  keeps (success_since log) (transfer_push_pull push pull).
Proof.
  unfold transfer_push_pull, PushDescriptorBase_complete. keeps_success.
Qed.

Lemma keeps_success_submit_matched log p q u v conversation :
  keeps (success_since log) (submit_matched p q u v conversation).
Proof.
  unfold submit_matched.
  pose proof (keeps_success_transfer_offer_accept log) as H1.
  pose proof (keeps_success_transfer_send_recv log) as H2.
  pose proof (keeps_success_transfer_push_pull log) as H3.
  keeps_success.
Qed.

Lemma keeps_success_submit log self p u :
  keeps (success_since log) (submit self p u).
Proof.
  unfold submit.
  pose proof (keeps_success_submit_matched log) as H1.
  keeps_success.
Qed.

(** ** Which paths reach the trap of the dispatch *)

Lemma avoids_ret {A} why (a : A) : avoids why (ret a).
Proof. intros K. done. Qed.

Lemma avoids_panic {A} why why' : why' <> why -> avoids why (@panic A why').
Proof. intros Hne K [=]. done. Qed.

Lemma avoids_bind {A B} why (m : M A) (f : A -> M B) :
  avoids why m -> (forall a, avoids why (f a)) -> avoids why (bind m f).
Proof.
  intros Hm Hf K. unfold bind. specialize (Hm K).
  destruct (m K) as [[a K1]|why']; [apply Hf|congruence].
Qed.

Lemma avoids_assert why c msg : AssertionFailed msg <> why -> avoids why (assert c msg).
Proof. intros. unfold assert. destruct c; [apply avoids_ret|by apply avoids_panic]. Qed.

Lemma avoids_get_kernel why : avoids why get_kernel.
Proof. intros K. done. Qed.

Lemma avoids_deref why s : BadPointer <> why -> avoids why (deref s).
Proof.
  intros Hne K. unfold deref. destruct (heap K !! s) as [[st|]|]; congruence.
Qed.

Lemma avoids_store why s st : BadPointer <> why -> avoids why (store s st).
Proof.
  intros Hne K. unfold store. destruct (heap K !! s) as [[st0|]|]; congruence.
Qed.

Lemma avoids_post why e : avoids why (post e).
Proof. intros K. done. Qed.

Lemma avoids_copyTo why acc data size : avoids why (copyTo acc data size).
Proof. intros K. done. Qed.

Lemma avoids_with_universe {A} why w (f : Universe -> Result (A * Universe)) :
  BadPointer <> why -> (forall un, f un <> Abort why) ->
  avoids why (with_universe w f).
Proof.
  intros Hne Hf K. unfold with_universe.
  destruct (universes K !! w) as [un|]; [|congruence].
  specialize (Hf un). destruct (f un) as [[a un']|]; congruence.
Qed.

Ltac avoids_mismatch :=
  unfold mismatch;
  repeat first
    [ apply avoids_ret
    | apply avoids_panic; discriminate
    | apply avoids_assert; discriminate
    | apply avoids_get_kernel
    | apply avoids_deref; discriminate
    | apply avoids_store; discriminate
    | apply avoids_post
    | apply avoids_copyTo
    | solve [auto]
    | progress cbv zeta
    | match goal with
      | |- avoids _ (bind _ _) => apply avoids_bind; [|intros ?]
      | |- avoids _ (if ?c then _ else _) => destruct c
      | |- avoids _ ?m =>
          match m with
          | context [match ?x with _ => _ end] => destruct x
          end
      end ].

Lemma avoids_mismatch_attach w d :
  avoids mismatch
    (grab w ;;;
     with_universe w Guard_acquire ;;;
     handle <- with_universe w (attachDescriptor d) ;;
     with_universe w Guard_release ;;;
     ret handle).
Proof.
  unfold grab. avoids_mismatch.
  - apply avoids_with_universe; [discriminate|].
    intros un. unfold Guard_acquire. by destruct (lock un).
  - apply avoids_with_universe; [discriminate|].
    intros un. unfold attachDescriptor. by destruct (lock un).
  - apply avoids_with_universe; [discriminate|]. done.
Qed.

Lemma avoids_mismatch_AcceptBase_complete info error w lane :
  avoids mismatch (AcceptBase_complete info error w lane).
Proof.
  pose proof (avoids_mismatch_attach w (AnyLaneDescriptor lane)) as H.
  intros K HK. apply (H K). clear H. revert HK.
  unfold AcceptBase_complete, AcceptPolicy_makeEvent, bind, ret, post.
  repeat case_match; congruence.
Qed.

Lemma avoids_mismatch_PullDescriptorBase_complete info error w lane :
  avoids mismatch (PullDescriptorBase_complete info error w lane).
Proof.
  pose proof (avoids_mismatch_attach w lane) as H.
  intros K HK. apply (H K). clear H. revert HK.
  unfold PullDescriptorBase_complete, PullDescriptorPolicy_makeEvent, bind, ret, post.
  repeat case_match; congruence.
Qed.

Lemma avoids_mismatch_control_decrement s : avoids mismatch (control_decrement s).
Proof.
  unfold control_decrement. avoids_mismatch. intros K. done.
Qed.

Lemma avoids_mismatch_LaneHandle_drop h : avoids mismatch (LaneHandle_drop h).
Proof.
  pose proof avoids_mismatch_control_decrement.
  unfold LaneHandle_drop, decrementPeers, in_bounds. avoids_mismatch.
Qed.

Lemma avoids_mismatch_release c : avoids mismatch (SharedPtr_release c).
Proof.
  pose proof avoids_mismatch_control_decrement.
  unfold SharedPtr_release. avoids_mismatch.
Qed.

Lemma avoids_mismatch_AnyDescriptor_copy d : avoids mismatch (AnyDescriptor_copy d).
Proof.
  unfold AnyDescriptor_copy, LaneHandle_copy, incrementPeers, in_bounds.
  avoids_mismatch.
Qed.

Lemma avoids_mismatch_transfer_offer_accept offer accept lane :
  avoids mismatch (transfer_offer_accept offer accept lane).
Proof.
  pose proof avoids_mismatch_AcceptBase_complete.
  unfold transfer_offer_accept, OfferBase_complete. avoids_mismatch.
Qed.

Lemma avoids_mismatch_transfer_send_recv from to :
  avoids mismatch (transfer_send_recv from to).
Proof.
  unfold transfer_send_recv, SendFromBufferBase_complete, RecvToBufferBase_complete.
  avoids_mismatch.
Qed.

Lemma avoids_mismatch_transfer_push_pull push pull :
  avoids mismatch (transfer_push_pull push pull).
Proof.
  pose proof avoids_mismatch_PullDescriptorBase_complete.
  pose proof avoids_mismatch_AnyDescriptor_copy.
  unfold transfer_push_pull, PushDescriptorBase_complete. avoids_mismatch.
Qed.

Lemma submit_matched_unhandled p q u v conversation K :
  handled u v = false ->
  submit_matched p q u v conversation K = Abort mismatch.
Proof.
  unfold handled, submit_matched. intros H.
  repeat (apply orb_false_elim in H; destruct H as [H ?]).
  repeat match goal with H : _ && _ = false |- _ => rewrite H; clear H end.
  done.
Qed.

Lemma submit_matched_handled p q u v conversation :
  handled u v = true ->
  avoids mismatch (submit_matched p q u v conversation).
Proof.
  intros H.
  pose proof avoids_mismatch_transfer_offer_accept.
  pose proof avoids_mismatch_transfer_send_recv.
  pose proof avoids_mismatch_transfer_push_pull.
  pose proof avoids_mismatch_LaneHandle_drop.
  pose proof avoids_mismatch_release.
  unfold handled in H. unfold submit_matched.
  destruct (OfferBase_classOf u && AcceptBase_classOf v); [avoids_mismatch|].
  destruct (OfferBase_classOf v && AcceptBase_classOf u); [avoids_mismatch|].
  destruct (SendFromBufferBase_classOf u && RecvToBufferBase_classOf v);
    [avoids_mismatch|].
  destruct (SendFromBufferBase_classOf v && RecvToBufferBase_classOf u);
    [avoids_mismatch|].
  destruct (PushDescriptorBase_classOf u && PullDescriptorBase_classOf v);
    [avoids_mismatch|].
  done.
Qed.

(** ** How the heap evolves once the lock is released *)

Lemma same_queues_refl st : same_queues st st.
Proof. by split. Qed.

Lemma same_control_refl st : same_control st st.
Proof. by split. Qed.

Lemma same_queues_trans st1 st2 st3 :
  same_queues st1 st2 -> same_queues st2 st3 -> same_queues st1 st3.
Proof. intros [? ?] [? ?]. split; congruence. Qed.

Lemma same_control_trans st1 st2 st3 :
  same_control st1 st2 -> same_control st2 st3 -> same_control st1 st3.
Proof. intros [? ?] [? ?]. split; congruence. Qed.

Lemma evolves_refl c H : evolves c H H.
Proof.
  intros s. destruct (H !! s) as [[st|]|]; [|done..].
  split; [apply same_queues_refl|]. intros _. apply same_control_refl.
Qed.

Lemma evolves_trans c H1 H2 H3 :
  evolves c H1 H2 -> evolves c H2 H3 -> evolves c H1 H3.
Proof.
  intros H12 H23 s. specialize (H12 s). specialize (H23 s).
  destruct (H1 !! s) as [[st1|]|], (H2 !! s) as [[st2|]|], (H3 !! s) as [[st3|]|];
    try done.
  destruct H12 as [Hq12 Hc12], H23 as [Hq23 Hc23].
  split; [by eapply same_queues_trans|].
  intros Hne. eapply same_control_trans; eauto.
Qed.

Lemma evolves_write c K s st st' :
  heap K !! s = Some (Some st) ->
  same_queues st st' ->
  (Some s <> c -> same_control st st') ->
  evolves c (heap K) (heap (write_stream s st' K)).
Proof.
  intros Hs Hq Hc s0. rewrite (lookup_write_live _ _ _ _ _ Hs).
  case_decide as E.
  - subst s0. rewrite Hs. done.
  - destruct (heap K !! s0) as [[st0|]|]; [|done..].
    split; [apply same_queues_refl|]. intros _. apply same_control_refl.
Qed.

Lemma evolves_free K s st :
  heap K !! s = Some (Some st) ->
  evolves (Some s) (heap K) (heap (free_stream s K)).
Proof.
  intros Hs s0.
  change (heap (free_stream s K)) with (<[s := None]> (heap K)).
  destruct (decide (s0 = s)) as [->|E].
  - rewrite Hs. rewrite list_lookup_insert_eq; [done|]. by eapply lookup_lt_Some.
  - rewrite list_lookup_insert_ne by congruence.
    destruct (heap K !! s0) as [[st0|]|]; [|done..].
    split; [apply same_queues_refl|]. intros _. apply same_control_refl.
Qed.

Lemma keeps_heap_post H e : keeps (heap_is H) (post e).
Proof. intros K a K' HI [= <- <-]. exact HI. Qed.

Lemma keeps_heap_with_universe {A} H w (f : Universe -> Result (A * Universe)) :
  keeps (heap_is H) (with_universe w f).
Proof.
  unfold with_universe. intros K a K' HI H1.
  destruct (universes K !! w) as [un|]; [|done].
  destruct (f un) as [[a' un']|]; [|done]. injection H1 as <- <-. exact HI.
Qed.

Lemma keeps_heap_copyTo H acc data size : keeps (heap_is H) (copyTo acc data size).
Proof. intros K a K' HI [= <- <-]. exact HI. Qed.

#[local] Hint Resolve keeps_heap_post keeps_heap_with_universe keeps_heap_copyTo
  : keeps.

Lemma keeps_heap_AcceptBase_complete H info error w lane :
  keeps (heap_is H) (AcceptBase_complete info error w lane).
Proof. unfold AcceptBase_complete, AcceptPolicy_makeEvent. keeps_steps. Qed.

Lemma keeps_heap_PullDescriptorBase_complete H info error w lane :
  keeps (heap_is H) (PullDescriptorBase_complete info error w lane).
Proof. unfold PullDescriptorBase_complete, PullDescriptorPolicy_makeEvent. keeps_steps. Qed.

#[local] Hint Resolve keeps_heap_AcceptBase_complete
  keeps_heap_PullDescriptorBase_complete : keeps.

Lemma keeps_heap_transfer_offer_accept H offer accept lane :
  keeps (heap_is H) (transfer_offer_accept offer accept lane).
Proof. unfold transfer_offer_accept, OfferBase_complete. keeps_steps. Qed.

Lemma keeps_heap_transfer_send_recv H from to :
  keeps (heap_is H) (transfer_send_recv from to).
Proof.
  unfold transfer_send_recv, SendFromBufferBase_complete, RecvToBufferBase_complete.
  keeps_steps.
Qed.

Lemma keeps_of_heap {A} (P : list (option Stream) -> Prop) (m : M A) :
  (forall H, keeps (heap_is H) m) -> keeps (fun K => P (heap K)) m.
Proof.
  intros Hm K a K' HI H. specialize (Hm (heap K) K a K' eq_refl H).
  unfold heap_is in Hm. by rewrite Hm.
Qed.

Lemma keeps_evolved_frame {A} c H0 (m : M A) :
  (forall H, keeps (heap_is H) m) -> keeps (heap_evolved c H0) m.
Proof. intros Hm. apply (keeps_of_heap (evolves c H0) m Hm). Qed.

Lemma in_bounds_Ok lane K a K' :
  in_bounds lane K = Ok (a, K') -> K' = K /\ is_lane lane = true.
Proof. unfold in_bounds. destruct (is_lane lane); [|done]. by intros [= <- <-]. Qed.

Lemma assert_Ok c msg K a K' : assert c msg K = Ok (a, K') -> K' = K /\ c = true.
Proof. unfold assert. destruct c; [|done]. by intros [= <- <-]. Qed.

Lemma heap_evolved_write c H0 K s st st' :
  heap_evolved c H0 K ->
  heap K !! s = Some (Some st) ->
  same_queues st st' ->
  (Some s <> c -> same_control st st') ->
  heap_evolved c H0 (write_stream s st' K).
Proof.
  intros HI Hs Hq Hc. eapply evolves_trans; [exact HI|]. by eapply evolves_write.
Qed.

Lemma keeps_evolved_incrementPeers c H0 s lane :
  keeps (heap_evolved c H0) (incrementPeers s lane).
Proof.
  unfold incrementPeers.
  intros K a K' HI (? & ? & [-> _]%in_bounds_Ok &
    (st & ? & [-> Hs]%deref_Ok &
      (? & ? & [-> _]%store_Ok & [-> _]%assert_Ok)%bind_Ok)%bind_Ok)%bind_Ok.
  eapply heap_evolved_write; [done|done|done|done].
Qed.

Lemma keeps_evolved_decrementPeers H0 s lane :
  keeps (heap_evolved (Some s) H0) (decrementPeers s lane).
Proof.
  unfold decrementPeers.
  intros K a K' HI (? & ? & [-> _]%in_bounds_Ok &
    (st & ? & [-> Hs]%deref_Ok & (? & ? & [-> _]%store_Ok & H)%bind_Ok)%bind_Ok)%bind_Ok.
  assert (HI1 : heap_evolved (Some s) H0
            (write_stream s
               (set_peerCount lane (wrap_int (idx lane (_peerCount st) - 1)) st) K)).
  { eapply heap_evolved_write; [done|done|done|done]. }
  destruct (1 <? idx lane (_peerCount st)); [by injection H as <- <-|].
  apply bind_Ok in H as (st1 & ? & [-> Hs1]%deref_Ok &
    (? & ? & [-> _]%assert_Ok & (? & ? & [-> _]%store_Ok & H)%bind_Ok)%bind_Ok).
  injection H as <- <-.
  eapply heap_evolved_write; [done|done|done|]. by intros [].
Qed.

Lemma keeps_evolved_control_decrement H0 s :
  keeps (heap_evolved (Some s) H0) (control_decrement s).
Proof.
  unfold control_decrement.
  intros K a K' HI (st & ? & [-> Hs]%deref_Ok & H)%bind_Ok.
  destruct (counter st =? 1).
  - injection H as <- <-. eapply evolves_trans; [exact HI|]. by eapply evolves_free.
  - apply store_Ok in H as [-> _].
    eapply heap_evolved_write; [done|done|done|]. by intros [].
Qed.

Lemma keeps_evolved_LaneHandle_drop H0 conversation lane :
  keeps (heap_evolved conversation H0) (LaneHandle_drop (adoptLane conversation lane)).
Proof.
  destruct conversation as [c|]; simpl; [|apply keeps_ret].
  apply keeps_bind; [apply keeps_evolved_decrementPeers|].
  intros [|]; [apply keeps_evolved_control_decrement|apply keeps_ret].
Qed.

Lemma keeps_evolved_release H0 conversation :
  keeps (heap_evolved conversation H0) (SharedPtr_release conversation).
Proof.
  destruct conversation as [c|]; simpl;
    [apply keeps_evolved_control_decrement|apply keeps_ret].
Qed.

Lemma keeps_evolved_AnyDescriptor_copy c H0 d :
  keeps (heap_evolved c H0) (AnyDescriptor_copy d).
Proof.
  pose proof (keeps_evolved_incrementPeers c H0).
  unfold AnyDescriptor_copy, LaneHandle_copy. keeps_steps.
Qed.

Lemma keeps_evolved_transfer_push_pull c H0 push pull :
  keeps (heap_evolved c H0) (transfer_push_pull push pull).
Proof.
  pose proof (keeps_evolved_AnyDescriptor_copy c H0).
  unfold transfer_push_pull, PushDescriptorBase_complete.
  repeat first
    [ solve [auto with keeps]
    | solve [apply keeps_evolved_frame; intros; auto with keeps]
    | match goal with
      | |- keeps _ (bind _ _) => apply keeps_bind; [|intros ?]
      | |- keeps _ ?m =>
          match m with
          | context [match ?x with _ => _ end] => destruct x
          end
      end ].
Qed.

Lemma keeps_evolved_submit_matched H0 p q u v conversation :
  keeps (heap_evolved conversation H0) (submit_matched p q u v conversation).
Proof.
  pose proof (keeps_evolved_transfer_push_pull conversation H0).
  pose proof (keeps_evolved_LaneHandle_drop H0 conversation).
  pose proof (keeps_evolved_release H0 conversation).
  pose proof keeps_heap_transfer_offer_accept.
  pose proof keeps_heap_transfer_send_recv.
  unfold submit_matched.
  repeat first
    [ solve [auto with keeps]
    | solve [apply keeps_evolved_frame; intros; auto with keeps]
    | progress cbv zeta
    | match goal with
      | |- keeps _ (bind _ _) => apply keeps_bind; [|intros ?]
      | |- keeps _ (if ?c then _ else _) => destruct c
      end ].
Qed.

(** ** The invariant of the heap *)

Lemma handshakes_app l1 l2 : handshakes (l1 ++ l2) = handshakes l1 ++ handshakes l2.
Proof.
  induction l1 as [|x l1 IH]; simpl; [done|].
  destruct (handshake x); simpl; by rewrite IH.
Qed.

Lemma parked_pop p this v rest :
  is_lane p = true ->
  idx (1 - p) (_processQueue this) = v :: rest ->
  fst (_processQueue this) = [] \/ snd (_processQueue this) = [] ->
  idx p (_processQueue this) = [] /\
  parked this = v :: rest /\
  parked (set_processQueue (1 - p) rest this) = rest.
Proof.
  unfold parked. destruct this as [n pc lb [q0 q1] cq]. simpl.
  intros [-> | ->]%is_lane_spec; unfold idx; simpl; intros -> [H|H];
    try discriminate; subst; simpl; rewrite ?app_nil_r; done.
Qed.

Lemma parked_addBack p u this :
  is_lane p = true ->
  idx (1 - p) (_processQueue this) = [] ->
  parked (addBack p u this) = parked this ++ [u] /\
  (fst (_processQueue (addBack p u this)) = [] \/
   snd (_processQueue (addBack p u this)) = []).
Proof.
  unfold parked, addBack. destruct this as [n pc lb [q0 q1] cq]. simpl.
  intros [-> | ->]%is_lane_spec; unfold idx; simpl; intros ->; simpl;
    rewrite ?app_nil_r; auto.
Qed.

Lemma kernel_inv_write_self K self this this' pre :
  kernel_inv K ->
  heap K !! self = Some (Some this) ->
  same_control this this' ->
  fst (_processQueue this') = [] \/ snd (_processQueue this') = [] ->
  length (_conversationQueue this') = length (handshakes (parked this')) ->
  _conversationQueue this = pre ++ _conversationQueue this' ->
  kernel_inv (write_stream self this' K).
Proof.
  intros [Hone Hal Hch Hun] Hs [Hcnt Hbr] Hone' Hal' Hpre.
  assert (Hlook := lookup_write_live self this this' K).
  split.
  - intros s st. rewrite Hlook by done. case_decide; [|by apply Hone].
    by intros [= <-].
  - intros s st. rewrite Hlook by done. case_decide; [|by apply Hal].
    by intros [= <-].
  - intros s st c. rewrite Hlook by done. intros Hst Hc.
    assert (exists st0, heap K !! s = Some (Some st0) /\ c ∈ _conversationQueue st0)
      as (st0 & Hst0 & Hc0).
    { destruct (decide (s = self)) as [->|?]; [|by eauto]. injection Hst as <-.
      exists this. split; [done|]. rewrite Hpre. apply elem_of_app. by right. }
    destruct (Hch s st0 c Hst0 Hc0) as (Hne & child & Hchild & Hcounter & Hbroken).
    split; [done|]. rewrite Hlook by done.
    destruct (decide (c = self)) as [->|Hcs]; [|by exists child; split; [|split]].
    rewrite Hs in Hchild. injection Hchild as <-.
    exists this'. split; [done|]. split; congruence.
  - intros s1 st1 i s2 st2 j c. rewrite !Hlook by done. intros H1 H2 Hi Hj.
    assert (exists st0 i0, heap K !! s1 = Some (Some st0) /\
              _conversationQueue st0 !! i0 = Some c /\
              (s1 = self -> i0 = (length pre + i)%nat) /\ (s1 <> self -> i0 = i))
      as (st10 & i0 & H10 & Hi0 & Hi0s & Hi0n).
    { destruct (decide (s1 = self)) as [->|?].
      - injection H1 as <-. exists this, (length pre + i)%nat.
        split_and!; [done| |done|done].
        rewrite Hpre, lookup_app_r by lia.
        by replace (length pre + i - length pre)%nat with i by lia.
      - exists st1, i. by split_and!. }
    assert (exists st0 j0, heap K !! s2 = Some (Some st0) /\
              _conversationQueue st0 !! j0 = Some c /\
              (s2 = self -> j0 = (length pre + j)%nat) /\ (s2 <> self -> j0 = j))
      as (st20 & j0 & H20 & Hj0 & Hj0s & Hj0n).
    { destruct (decide (s2 = self)) as [->|?].
      - injection H2 as <-. exists this, (length pre + j)%nat.
        split_and!; [done| |done|done].
        rewrite Hpre, lookup_app_r by lia.
        by replace (length pre + j - length pre)%nat with j by lia.
      - exists st2, j. by split_and!. }
    destruct (Hun _ _ _ _ _ _ _ H10 H20 Hi0 Hj0) as [<- Heq].
    split; [done|].
    destruct (decide (s1 = self)) as [E|E].
    + specialize (Hi0s E). specialize (Hj0s E). lia.
    + specialize (Hi0n E). specialize (Hj0n E). lia.
Qed.

Lemma unreferenced_popped K self this this' c :
  kernel_inv K ->
  heap K !! self = Some (Some this) ->
  _conversationQueue this = c :: _conversationQueue this' ->
  unreferenced (write_stream self this' K) c.
Proof.
  intros [Hone Hal Hch Hun] Hs Hcq s st.
  rewrite (lookup_write_live _ _ _ _ _ Hs). intros Hst Hc.
  apply list_elem_of_lookup in Hc as [j Hj].
  assert (H0 : _conversationQueue this !! 0%nat = Some c) by by rewrite Hcq.
  destruct (decide (s = self)) as [->|?].
  - injection Hst as <-.
    assert (Hj' : _conversationQueue this !! S j = Some c) by by rewrite Hcq.
    destruct (Hun _ _ _ _ _ _ _ Hs Hs H0 Hj') as [_ ?]. lia.
  - destruct (Hun _ _ _ _ _ _ _ Hs Hst H0 Hj) as [? _]. congruence.
Qed.

Lemma kernel_inv_evolves K K' conversation :
  kernel_inv K ->
  (forall c, conversation = Some c -> unreferenced K c) ->
  evolves conversation (heap K) (heap K') ->
  kernel_inv K'.
Proof.
  intros [Hone Hal Hch Hun] Hunref Hev.
  assert (Hback : forall s st', heap K' !! s = Some (Some st') ->
            exists st, heap K !! s = Some (Some st) /\ same_queues st st').
  { intros s st' Hs'. specialize (Hev s). rewrite Hs' in Hev.
    destruct (heap K !! s) as [[st|]|]; [|done..]. exists st. by destruct Hev. }
  split.
  - intros s st' (st & Hs & [Hq _])%Hback. rewrite Hq. by eapply Hone.
  - intros s st' (st & Hs & [Hq Hcq])%Hback. unfold parked. rewrite Hq, Hcq.
    by eapply Hal.
  - intros s st' c (st & Hs & [Hq Hcq])%Hback. rewrite Hcq. intros Hc.
    destruct (Hch s st c Hs Hc) as (Hne & child & Hchild & Hcounter & Hbroken).
    split; [done|].
    assert (Hnc : Some c <> conversation).
    { intros <-. by eapply (Hunref c eq_refl s st). }
    specialize (Hev c). rewrite Hchild in Hev.
    destruct (heap K' !! c) as [[child'|]|]; [|done..].
    destruct Hev as [_ Hctl]. destruct (Hctl Hnc) as [Hc1 Hc2].
    exists child'. split; [done|]. split; congruence.
  - intros s1 st1' i s2 st2' j c (st1 & Hs1 & [_ Hcq1])%Hback
      (st2 & Hs2 & [_ Hcq2])%Hback. rewrite Hcq1, Hcq2. by eapply Hun.
Qed.

Lemma kernel_inv_alloc K child :
  kernel_inv K ->
  _processQueue child = ([], []) ->
  _conversationQueue child = [] ->
  kernel_inv (set_heap (heap K ++ [Some child]) K) /\
  unreferenced (set_heap (heap K ++ [Some child]) K) (length (heap K)).
Proof.
  intros [Hone Hal Hch Hun] Hq Hcq.
  assert (Hlook : forall s st,
            (heap K ++ [Some child]) !! s = Some (Some st) ->
            heap K !! s = Some (Some st) \/ (s = length (heap K) /\ st = child)).
  { intros s st [H|[Hge H]]%lookup_app_Some; [by left|right].
    apply list_lookup_singleton_Some in H as [H1 [= <-]]. split; [lia|done]. }
  split; [split|]; simpl.
  - intros s st [H|[-> ->]]%Hlook; [by eapply Hone|]. rewrite Hq. by left.
  - intros s st [H|[-> ->]]%Hlook; [by eapply Hal|].
    unfold parked. by rewrite Hq, Hcq.
  - intros s st c [H|[-> ->]]%Hlook; [|rewrite Hcq; by intros ?%elem_of_nil].
    intros Hc. destruct (Hch s st c H Hc) as (Hne & child0 & Hchild & Hfresh).
    split; [done|]. exists child0. split; [|done]. by apply lookup_app_l_Some.
  - intros s1 st1 i s2 st2 j c [H1|[-> ->]]%Hlook [H2|[-> ->]]%Hlook;
      rewrite ?Hcq; try done. by eapply Hun.
  - intros s st [H|[-> ->]]%Hlook; [|rewrite Hcq; by intros ?%elem_of_nil].
    intros Hc. destruct (Hch s st _ H Hc) as (_ & child0 & Hchild & _).
    apply lookup_lt_Some in Hchild. lia.
Qed.

Lemma kernel_inv_push K self this this' c child :
  kernel_inv K ->
  heap K !! self = Some (Some this) ->
  same_control this this' ->
  fst (_processQueue this') = [] \/ snd (_processQueue this') = [] ->
  length (_conversationQueue this') = length (handshakes (parked this')) ->
  _conversationQueue this' = _conversationQueue this ++ [c] ->
  c <> self ->
  heap K !! c = Some (Some child) ->
  fresh_conversation child ->
  unreferenced K c ->
  kernel_inv (write_stream self this' K).
Proof.
  intros [Hone Hal Hch Hun] Hs [Hcnt Hbr] Hone' Hal' Hcq Hcs Hc Hfresh Hunref.
  assert (Hlook := lookup_write_live self this this' K).
  assert (Hkeep : forall c0 child0, heap K !! c0 = Some (Some child0) ->
            fresh_conversation child0 ->
            exists child1, heap (write_stream self this' K) !! c0 = Some (Some child1) /\
              fresh_conversation child1).
  { intros c0 child0 Hc0 [Hf1 Hf2]. rewrite Hlook by done.
    destruct (decide (c0 = self)) as [->|?]; [|by exists child0; split; [|split]].
    rewrite Hs in Hc0. injection Hc0 as <-.
    exists this'. split; [done|]. split; congruence. }
  split.
  - intros s st. rewrite Hlook by done.
    destruct (decide (s = self)) as [->|?]; [|by apply Hone]. by intros [= <-].
  - intros s st. rewrite Hlook by done.
    destruct (decide (s = self)) as [->|?]; [|by apply Hal]. by intros [= <-].
  - intros s st c0. rewrite Hlook by done.
    destruct (decide (s = self)) as [->|?].
    + intros [= <-]. rewrite Hcq. intros [Hc0| ->%list_elem_of_singleton]%elem_of_app.
      * destruct (Hch self this c0 Hs Hc0) as (Hne & child0 & Hchild & Hfr).
        split; [done|]. by eapply Hkeep.
      * split; [done|]. by eapply Hkeep.
    + intros Hst Hc0. destruct (Hch s st c0 Hst Hc0) as (Hne & child0 & Hchild & Hfr).
      split; [done|]. by eapply Hkeep.
  - intros s1 st1 i s2 st2 j c0. rewrite !Hlook by done.
    assert (Hcase : forall s st i, 
              (if decide (s = self) then Some (Some this') else heap K !! s)
                = Some (Some st) ->
              _conversationQueue st !! i = Some c0 ->
              (exists st0, heap K !! s = Some (Some st0) /\
                 _conversationQueue st0 !! i = Some c0) \/
              (s = self /\ i = length (_conversationQueue this) /\ c0 = c)).
    { intros s st k Hst Hk. destruct (decide (s = self)) as [->|?]; [|by eauto].
      injection Hst as <-. rewrite Hcq in Hk.
      apply lookup_app_Some in Hk as [Hk|[Hge Hk]]; [by eauto|].
      apply list_lookup_singleton_Some in Hk as [Hk <-]. right.
      split; [done|]. split; [lia|done]. }
    intros H1 H2 Hi Hj.
    destruct (Hcase _ _ _ H1 Hi) as [(st10 & H10 & Hi0)|(E1 & E2 & E3)],
             (Hcase _ _ _ H2 Hj) as [(st20 & H20 & Hj0)|(E4 & E5 & E6)].
    + by eapply Hun.
    + exfalso. subst c0. eapply Hunref; [done|]. by eapply list_elem_of_lookup_2.
    + exfalso. subst c0. eapply Hunref; [done|]. by eapply list_elem_of_lookup_2.
    + split; congruence.
Qed.

Lemma write_stream_twice s st1 st2 K :
  write_stream s st2 (write_stream s st1 K) = write_stream s st2 K.
Proof. unfold write_stream. simpl. by rewrite list_insert_insert_eq. Qed.

Lemma conversation_removeFront_Ok self K conversation K' :
  conversation_removeFront self K = Ok (conversation, K') ->
  exists this c rest, heap K !! self = Some (Some this) /\
    _conversationQueue this = c :: rest /\ conversation = Some c /\
    K' = write_stream self (set_conversationQueue rest this) K.
Proof.
  unfold conversation_removeFront.
  intros (this & ? & [-> Hs]%deref_Ok & H)%bind_Ok.
  destruct (_conversationQueue this) as [|c rest] eqn:Hcq; [done|].
  apply bind_Ok in H as (? & ? & [-> _]%store_Ok & [= <- <-]).
  by exists this, c, rest.
Qed.

(** After the locked part of a pairing submit the invariant holds again,
    and the conversation that was taken from the queue is referenced by no
    queue any more. *)
Lemma kernel_inv_pop K self this p v rest conversation K2 :
  kernel_inv K ->
  is_lane p = true ->
  heap K !! self = Some (Some this) ->
  idx (1 - p) (_processQueue this) = v :: rest ->
  (if OfferBase_classOf v || AcceptBase_classOf v
   then conversation_removeFront self else ret None)
    (write_stream self (set_processQueue (1 - p) rest this) K)
  = Ok (conversation, K2) ->
  exists this2,
    K2 = write_stream self this2 K /\
    kernel_inv K2 /\
    _processQueue this2 = upd (1 - p) rest (_processQueue this) /\
    same_control this this2 /\
    _conversationQueue this
      = match conversation with
        | Some c => c :: _conversationQueue this2
        | None => _conversationQueue this2
        end /\
    (conversation = None <-> handshake v = false) /\
    (forall c, conversation = Some c -> unreferenced K2 c).
Proof.
  intros Hinv Hp Hs Hq H.
  destruct (parked_pop p this v rest Hp Hq (inv_one_side K Hinv _ _ Hs))
    as (Hpe & Hpk & Hpk').
  set (this1 := set_processQueue (1 - p) rest this) in *.
  assert (Hone1 : fst (_processQueue this1) = [] \/ snd (_processQueue this1) = []).
  { destruct (inv_one_side K Hinv _ _ Hs) as [H0|H0]; unfold this1; simpl;
      apply is_lane_spec in Hp as [-> | ->]; unfold upd; simpl; auto;
      unfold idx in Hpe, Hq; simpl in Hpe, Hq; rewrite ?Hpe; auto. }
  assert (Hal := inv_aligned K Hinv _ _ Hs). rewrite Hpk in Hal. simpl in Hal.
  fold (handshake v) in H. unfold handshake in Hal. fold (handshake v) in Hal.
  destruct (handshake v) eqn:Hv.
  - apply conversation_removeFront_Ok in H as (this1' & c & crest & Hs1 & Hcq & -> & ->).
    rewrite (lookup_write_live _ _ _ _ _ Hs), decide_True in Hs1 by done.
    injection Hs1 as <-.
    rewrite write_stream_twice.
    exists (set_conversationQueue crest this1).
    assert (Hcq' : _conversationQueue this = c :: crest) by exact Hcq.
    split_and!; try done.
    + eapply (kernel_inv_write_self K self this _ [c]); try done.
      simpl. unfold parked in Hpk'. unfold parked. simpl in *. rewrite Hpk'.
      rewrite Hcq' in Hal. simpl in Hal. lia.
    + intros c0 [= <-]. by eapply unreferenced_popped.
  - injection H as <- <-. exists this1.
    split_and!; try done.
    + eapply (kernel_inv_write_self K self this _ []); try done.
      rewrite Hpk'. exact Hal.
Qed.

(** Every [submit] that returns keeps the invariant of the heap. *)
Theorem kernel_inv_submit K self p u d K' :
  kernel_inv K -> submit self p u K = Ok (d, K') -> kernel_inv K'.
Proof.
  intros Hinv H.
  destruct (submit_Ok_entry _ _ _ _ _ _ H) as (Hp & this & Hs & Hb).
  destruct (idx (1 - p) (_processQueue this)) as [|v rest] eqn:Hq.
  - destruct (idx (1 - p) (_laneBroken this)) eqn:Hbq;
      [by rewrite (submit_remotely_broken _ _ _ _ _ Hp Hs Hb Hq Hbq) in H|].
    destruct (parked_addBack p u this Hp Hq) as [Hpk Hone].
    assert (Hal := inv_aligned K Hinv _ _ Hs).
    destruct (handshake u) eqn:Hu.
    + rewrite (submit_park_handshake _ _ _ _ _ Hp Hs Hb Hq Hbq Hu) in H.
      injection H as <- <-.
      set (child := mkStream 3 (2, 2) (false, false) ([], []) []).
      set (c := length (heap K)).
      set (this' := set_conversationQueue _ _).
      destruct (kernel_inv_alloc K child Hinv eq_refl eq_refl) as [Hinv1 Hunref].
      assert (Hlt : (self < length (heap K))%nat) by by eapply lookup_lt_Some.
      replace (set_heap (<[self:=Some this']> (heap K) ++ [Some child]) K)
        with (write_stream self this' (set_heap (heap K ++ [Some child]) K)).
      2: { unfold write_stream. simpl. by rewrite insert_app_l. }
      eapply (kernel_inv_push _ self this this' c child); try done.
      * simpl. by apply lookup_app_l_Some.
      * unfold this'. simpl. rewrite length_app. simpl.
        change (parked _) with (parked (addBack p u this)).
        rewrite Hpk, handshakes_app, length_app. simpl. rewrite Hu. simpl. lia.
      * unfold c. lia.
      * simpl. by apply list_lookup_middle.
    + rewrite (submit_park_plain _ _ _ _ _ Hp Hs Hb Hq Hbq Hu) in H.
      injection H as <- <-.
      eapply (kernel_inv_write_self K self this _ []); try done.
      simpl. change (parked _) with (parked (addBack p u this)).
      rewrite Hpk, handshakes_app, length_app. simpl. rewrite Hu. simpl. lia.
  - rewrite (submit_pop _ _ _ _ _ _ _ Hp Hs Hb Hq) in H.
    apply bind_Ok in H as (conversation & K2 & Hpop & Hm).
    destruct (kernel_inv_pop _ _ _ _ _ _ _ _ Hinv Hp Hs Hq Hpop)
      as (this2 & -> & Hinv2 & _ & _ & _ & _ & Hunref).
    eapply kernel_inv_evolves; [exact Hinv2|exact Hunref|].
    eapply (keeps_evolved_submit_matched _ _ _ _ _ _ _ _ _ (evolves_refl _ _) Hm).
Qed.

Lemma kernel_inv_heap K K' : heap K' = heap K -> kernel_inv K -> kernel_inv K'.
Proof.
  intros Hh [Hone Hal Hch Hun]. split; rewrite Hh; eauto.
Qed.

Lemma kernel_inv_empty : kernel_inv empty_kernel.
Proof. split; simpl; intros; by rewrite ?lookup_nil in *. Qed.

Lemma kernel_inv_createStream K handles K' :
  kernel_inv K -> createStream K = Ok (handles, K') -> kernel_inv K'.
Proof.
  intros Hinv. unfold createStream, makeShared_Stream.
  intros (c & K1 & [= <- <-] & (? & ? & H & [= <- <-])%bind_Ok)%bind_Ok.
  destruct (kernel_inv_alloc K Stream_new Hinv eq_refl eq_refl) as [Hinv1 Hunref].
  set (K1 := set_heap (heap K ++ [Some Stream_new]) K) in *.
  assert (Hc : heap K1 !! length (heap K) = Some (Some Stream_new)).
  { unfold K1. simpl. by apply list_lookup_middle. }
  rewrite (modify_eq _ _ _ _ Hc) in H. injection H as <- <-.
  eapply (kernel_inv_evolves K1 _ (Some (length (heap K)))); [done| |].
  - by intros c [= <-].
  - eapply evolves_write; [done|done|]. by intros [].
Qed.

(** ** The end of a pairing submit on a conversation *)

Lemma finish_conversation K c lane child (result : LaneDescriptor) :
  is_lane lane = true ->
  heap K !! c = Some (Some child) ->
  fresh_conversation child ->
  exists child',
    (LaneHandle_drop (LaneHandle_adopt c lane) ;;;
     SharedPtr_release (Some c) ;;;
     ret result) K
    = Ok (result, write_stream c child' K) /\
    same_queues child child' /\
    0 < counter child'.
Proof.
  intros Hl Hc [Hcnt Hbr].
  destruct (decide (1 < idx lane (_peerCount child))) as [Hmore|Hlast].
  - rewrite (bind_eq _ _ _ _ _ (LaneHandle_drop_more _ _ _ _ Hl Hc Hmore)).
    set (child1 := set_peerCount _ _ child).
    assert (Hc1 : heap (write_stream c child1 K) !! c = Some (Some child1)).
    { rewrite (lookup_write_live _ _ _ _ _ Hc). by rewrite decide_True. }
    simpl. rewrite (bind_eq _ _ _ _ _ (control_decrement_eq _ _ _ Hc1)).
    simpl. rewrite Hcnt. simpl. rewrite write_stream_twice.
    eexists. split; [reflexivity|]. by split.
  - assert (Hb : idx lane (_laneBroken child) = false).
    { rewrite Hbr. unfold idx. by destruct (lane =? 0). }
    rewrite (bind_eq _ _ _ _ _
               (LaneHandle_drop_last _ _ _ _ Hl Hc ltac:(lia) Hb)).
    rewrite Hcnt. simpl.
    set (child1 := lane_closed lane child).
    assert (Hc1 : heap (write_stream c child1 K) !! c = Some (Some child1)).
    { rewrite (lookup_write_live _ _ _ _ _ Hc). by rewrite decide_True. }
    rewrite (bind_eq _ _ _ _ _ (control_decrement_eq _ _ _ Hc1)).
    simpl. rewrite Hcnt. simpl. rewrite write_stream_twice.
    eexists. split; [reflexivity|]. by split.
Qed.

Lemma transfer_offer_accept_eq offer_info accept_info w lane K un :
  universes K !! w = Some un -> lock un = false ->
  transfer_offer_accept (Offer offer_info) (Accept accept_info w) lane K
  = Ok (tt,
        set_events
          (events K ++
             [mkAsyncEvent kEventOffer offer_info kErrSuccess None None;
              mkAsyncEvent kEventAccept accept_info kErrSuccess
                (Some (_nextHandle un)) None])
          (set_universes
             (<[w := attached (AnyLaneDescriptor lane) un]> (universes K)) K)).
Proof.
  intros Hw Hl. unfold transfer_offer_accept, OfferBase_complete, AcceptBase_complete.
  unfold bind at 1. simpl.
  erewrite (bind_eq _ _ _ _ _ (AcceptPolicy_makeEvent_eq _ _ _ _ _ _ _ Hl)).
  unfold post, set_events, set_universes. simpl. by rewrite <- app_assoc.
  Unshelve. exact Hw.
Qed.

Lemma pending_conversations_pop this this2 p v rest c :
  parked this = v :: rest ->
  handshake v = true ->
  _processQueue this2 = upd (1 - p) rest (_processQueue this) ->
  parked (set_processQueue (1 - p) rest this) = rest ->
  _conversationQueue this = c :: _conversationQueue this2 ->
  pending_conversations this = (v, c) :: pending_conversations this2.
Proof.
  intros Hpk Hv Hq Hpk' Hcq. unfold pending_conversations.
  rewrite Hpk, Hcq. simpl. rewrite Hv. simpl. do 2 f_equal.
  unfold parked in *. rewrite Hq. simpl in Hpk'. by rewrite Hpk'.
Qed.

(** An Offer paired with an Accept, whichever of the two was parked: what
    one call of [submit] does. *)
Lemma offer_accept_pair K self this p u v rest
    offer_info accept_info accept_universe un :
  kernel_inv K ->
  is_lane p = true ->
  heap K !! self = Some (Some this) ->
  idx p (_laneBroken this) = false ->
  idx (1 - p) (_processQueue this) = v :: rest ->
  (u = Offer offer_info /\ v = Accept accept_info accept_universe) \/
  (u = Accept accept_info accept_universe /\ v = Offer offer_info) ->
  universes K !! accept_universe = Some un ->
  lock un = false ->
  let accept_lane := if AcceptBase_classOf u then p else 1 - p in
  let offer_lane := 1 - accept_lane in
  exists c K' this' un',
    submit self p u K = Ok (mkLaneDescriptor (LaneHandle_adopt c p), K') /\
    pending_conversations this = (v, c) :: pending_conversations this' /\
    heap K' !! self = Some (Some this') /\
    events K' = events K ++
      [mkAsyncEvent kEventOffer offer_info kErrSuccess None None;
       mkAsyncEvent kEventAccept accept_info kErrSuccess (Some (_nextHandle un)) None] /\
    universes K' !! accept_universe = Some un' /\
    _descriptorMap un' !! _nextHandle un
      = Some (AnyLaneDescriptor (mkLaneDescriptor (LaneHandle_adopt c accept_lane))) /\
    is_lane accept_lane = true /\ is_lane offer_lane = true /\
    accept_lane <> offer_lane /\ (p = accept_lane \/ p = offer_lane).
Proof.
  intros Hinv Hp Hs Hb Hq Huv Hw Hl accept_lane offer_lane.
  assert (Hv : handshake v = true) by (by destruct Huv as [[-> ->]|[-> ->]]).
  destruct (parked_pop p this v rest Hp Hq (inv_one_side K Hinv _ _ Hs))
    as (Hpe & Hpk & Hpk').
  assert (Hal := inv_aligned K Hinv _ _ Hs). rewrite Hpk in Hal. simpl in Hal.
  rewrite Hv in Hal.
  destruct (_conversationQueue this) as [|c crest] eqn:Hcq; [done|].
  set (this1 := set_processQueue (1 - p) rest this).
  set (K1 := write_stream self this1 K).
  set (this2 := set_conversationQueue crest this1).
  assert (Hs1 : heap K1 !! self = Some (Some this1)).
  { unfold K1. rewrite (lookup_write_live _ _ _ _ _ Hs). by rewrite decide_True. }
  assert (Hpop : (if OfferBase_classOf v || AcceptBase_classOf v
                  then conversation_removeFront self else ret None) K1
                 = Ok (Some c, write_stream self this2 K)).
  { fold (handshake v). rewrite Hv. unfold conversation_removeFront.
    rewrite (bind_eq _ _ _ _ _ (deref_eq _ _ _ Hs1)).
    change (_conversationQueue this1) with (_conversationQueue this). rewrite Hcq.
    rewrite (bind_eq _ _ _ _ _ (store_eq _ _ _ _ Hs1)).
    unfold K1. by rewrite write_stream_twice. }
  set (K2 := write_stream self this2 K) in *.
  assert (Hs2 : heap K2 !! self = Some (Some this2)).
  { unfold K2. rewrite (lookup_write_live _ _ _ _ _ Hs). by rewrite decide_True. }
  destruct (inv_child K Hinv self this c Hs) as (Hcs & child & Hc & Hfresh).
  { rewrite Hcq. by left. }
  assert (Hc2 : heap K2 !! c = Some (Some child)).
  { unfold K2. rewrite (lookup_write_live _ _ _ _ _ Hs). by rewrite decide_False. }
  assert (Hlanes : is_lane accept_lane = true /\ is_lane offer_lane = true /\
            accept_lane <> offer_lane /\ (p = accept_lane \/ p = offer_lane)).
  { unfold offer_lane, accept_lane.
    apply is_lane_spec in Hp. destruct (AcceptBase_classOf u);
      rewrite !is_lane_spec; lia. }
  rewrite (submit_pop _ _ _ _ _ _ _ Hp Hs Hb Hq).
  fold this1 K1. rewrite (bind_eq _ _ _ _ _ Hpop).
  assert (Hfin : forall lane_kept lane_dropped,
            is_lane lane_dropped = true ->
            exists child',
              (transfer_offer_accept (Offer offer_info)
                 (Accept accept_info accept_universe)
                 (mkLaneDescriptor (LaneHandle_adopt c lane_kept)) ;;;
               LaneHandle_drop (LaneHandle_adopt c lane_dropped) ;;;
               SharedPtr_release (Some c) ;;;
               ret (mkLaneDescriptor (LaneHandle_adopt c p))) K2
              = Ok (mkLaneDescriptor (LaneHandle_adopt c p),
                    write_stream c child'
                      (set_events
                         (events K ++
                            [mkAsyncEvent kEventOffer offer_info kErrSuccess None None;
                             mkAsyncEvent kEventAccept accept_info kErrSuccess
                               (Some (_nextHandle un)) None])
                         (set_universes
                            (<[accept_universe :=
                                 attached (AnyLaneDescriptor
                                   (mkLaneDescriptor (LaneHandle_adopt c lane_kept))) un]>
                               (universes K)) K2)))).
  { intros lane_kept lane_dropped Hld.
    erewrite (bind_eq _ _ _ _ _ (transfer_offer_accept_eq _ _ _ _ K2 un Hw Hl)).
    match goal with
    | |- exists _, _ ?K3 = _ =>
        destruct (finish_conversation K3 c lane_dropped child
                    (mkLaneDescriptor (LaneHandle_adopt c p)) Hld Hc2 Hfresh)
          as (child' & Hrun & _)
    end.
    exists child'. exact Hrun. }
  destruct Huv as [[-> ->]|[-> ->]]; unfold submit_matched;
    cbn [OfferBase_classOf AcceptBase_classOf andb adoptLane]; cbv zeta.
  - destruct (Hfin (1 - p) p Hp) as (child' & ->).
    eexists c, _, this2, _. split; [reflexivity|].
    split; [by eapply pending_conversations_pop|].
    split; [rewrite lookup_write by (simpl; by eapply lookup_lt_Some);
            by rewrite decide_False|].
    split; [done|].
    split; [simpl; apply lookup_insert_eq|].
    split; [apply attached_lookup|apply Hlanes].
  - destruct (Hfin p (1 - p) (is_lane_opposite _ Hp)) as (child' & ->).
    eexists c, _, this2, _. split; [reflexivity|].
    split; [by eapply pending_conversations_pop|].
    split; [rewrite lookup_write by (simpl; by eapply lookup_lt_Some);
            by rewrite decide_False|].
    split; [done|].
    split; [simpl; apply lookup_insert_eq|].
    split; [apply attached_lookup|apply Hlanes].
Qed.

(** ** Send and receive *)

Lemma submit_send_recv K self this p u v rest send_info buffer recv_info accessor :
  is_lane p = true ->
  heap K !! self = Some (Some this) ->
  idx p (_laneBroken this) = false ->
  idx (1 - p) (_processQueue this) = v :: rest ->
  (u = SendFromBuffer send_info buffer /\ v = RecvToBuffer recv_info accessor) \/
  (u = RecvToBuffer recv_info accessor /\ v = SendFromBuffer send_info buffer) ->
  submit self p u K =
    if (length buffer <=? acc_length accessor)%nat then
      Ok (LaneDescriptor_empty,
          set_events
            (events K ++
               [mkAsyncEvent kEventSendString send_info kErrSuccess None None;
                mkAsyncEvent kEventRecvString recv_info kErrSuccess None
                  (Some (length buffer))])
            (set_memory (write_bytes (acc_address accessor) buffer (memory K))
               (write_stream self (set_processQueue (1 - p) rest this) K)))
    else Abort (AssertionFailed "from->buffer.size() <= to->accessor.length()").
Proof.
  intros Hp Hs Hb Hq Huv. rewrite (submit_pop _ _ _ _ _ _ _ Hp Hs Hb Hq).
  destruct Huv as [[-> ->]|[-> ->]]; simpl;
    unfold bind at 1; simpl; unfold submit_matched; simpl;
    unfold bind at 1; unfold transfer_send_recv;
    unfold bind at 1; destruct (length buffer <=? acc_length accessor)%nat;
    simpl; try done;
    rewrite firstn_all; unfold set_events, set_memory; simpl;
    by rewrite <- app_assoc.
Qed.

(** C1: a SendBuffer paired with a RecvBuffer, whichever of the two was
    parked.  Whenever [submit] returns, it returns no descriptor, the log
    gains the sender's completion ([kErrSuccess], no payload) and the
    receiver's ([kErrSuccess], the length of the sender's buffer), and the
    bytes at the start of the receiver's buffer are those of the sender's
    buffer; and [submit] does return when the lane is not broken and the
    buffer fits. *)
Theorem send_recv_transfer K self this p u v rest send_info buffer recv_info accessor :
  heap K !! self = Some (Some this) ->
  idx (1 - p) (_processQueue this) = v :: rest ->
  (u = SendFromBuffer send_info buffer /\ v = RecvToBuffer recv_info accessor) \/
  (u = RecvToBuffer recv_info accessor /\ v = SendFromBuffer send_info buffer) ->
  (forall d K', submit self p u K = Ok (d, K') ->
     d = LaneDescriptor_empty /\
     events K' = events K ++
       [mkAsyncEvent kEventSendString send_info kErrSuccess None None;
        mkAsyncEvent kEventRecvString recv_info kErrSuccess None
          (Some (length buffer))] /\
     read_bytes (acc_address accessor) (length buffer) (memory K') = map Some buffer)
  /\ (is_lane p = true -> idx p (_laneBroken this) = false ->
      (length buffer <= acc_length accessor)%nat ->
      exists K', submit self p u K = Ok (LaneDescriptor_empty, K')).
Proof.
  intros Hs Hq Huv. split.
  - intros d K' H. destruct (submit_Ok_entry _ _ _ _ _ _ H) as (Hp & this' & Hs' & Hb).
    rewrite Hs in Hs'. injection Hs' as <-.
    rewrite (submit_send_recv _ _ _ _ _ _ _ _ _ _ _ Hp Hs Hb Hq Huv) in H.
    destruct (length buffer <=? acc_length accessor)%nat eqn:Hle; [|done].
    injection H as <- <-. simpl. split_and!; try done.
    apply read_write_bytes.
  - intros Hp Hb Hle.
    rewrite (submit_send_recv _ _ _ _ _ _ _ _ _ _ _ Hp Hs Hb Hq Huv).
    apply Nat.leb_le in Hle. rewrite Hle. eauto.
Qed.

(** C7, as the code has it: a SendBuffer paired with a RecvBuffer whose
    capacity is smaller than the send length.  The sizes are compared when
    the two items are paired, by an assertion; it fails, so [submit] does
    not return: neither item is completed and no byte count is reported. *)
Theorem undersized_recv_asserts K self this p u v rest
    send_info buffer recv_info accessor :
  is_lane p = true ->
  heap K !! self = Some (Some this) ->
  idx p (_laneBroken this) = false ->
  idx (1 - p) (_processQueue this) = v :: rest ->
  (u = SendFromBuffer send_info buffer /\ v = RecvToBuffer recv_info accessor) \/
  (u = RecvToBuffer recv_info accessor /\ v = SendFromBuffer send_info buffer) ->
  (acc_length accessor < length buffer)%nat ->
  submit self p u K
  = Abort (AssertionFailed "from->buffer.size() <= to->accessor.length()").
Proof.
  intros Hp Hs Hb Hq Huv Hlt.
  rewrite (submit_send_recv _ _ _ _ _ _ _ _ _ _ _ Hp Hs Hb Hq Huv).
  apply Nat.leb_gt in Hlt. by rewrite Hlt.
Qed.

(** ** Broken lanes *)

(** C6, at the input where the code departs from it: with nothing parked on
    the opposite lane and that lane broken, [submit] stops in the assertion
    that asks for this case to be handled; the item is not completed with
    [kErrClosedRemotely]. *)
Theorem remotely_broken_lane_asserts K self this p u :
  is_lane p = true ->
  heap K !! self = Some (Some this) ->
  idx p (_laneBroken this) = false ->
  idx (1 - p) (_processQueue this) = [] ->
  idx (1 - p) (_laneBroken this) = true ->
  submit self p u K = Abort (AssertionFailed "Handle remotely broken lanes").
Proof. apply submit_remotely_broken. Qed.

(** ** The dispatch on the kinds of the pair *)

Lemma legal_handled u v :
  handled u v = legal u v && negb (PullDescriptorBase_classOf u && PushDescriptorBase_classOf v).
Proof. by destruct u, v. Qed.

(** C9, as the code has it: the dispatch ends in its trap exactly for the
    pairs that do not match and, among the pairs that match, for a
    PullDescriptor submitted against a parked PushDescriptor. *)
Theorem dispatch_table p q u v conversation K :
  submit_matched p q u v conversation K = Abort mismatch
  <-> legal u v = false \/
      (PullDescriptorBase_classOf u = true /\ PushDescriptorBase_classOf v = true).
Proof.
  split.
  - intros H. destruct (handled u v) eqn:Hh.
    + by destruct (submit_matched_handled p q u v conversation Hh K).
    + rewrite legal_handled in Hh.
      apply andb_false_iff in Hh as [Hh|Hh]; [by left|right].
      apply negb_false_iff in Hh. by apply andb_true_iff in Hh.
  - intros H. apply submit_matched_unhandled. rewrite legal_handled.
    destruct H as [->|[-> ->]]; [done|]. by rewrite andb_false_r.
Qed.

(** ** Pairing submits *)

(** The locked part of a pairing submit on a heap that satisfies the
    invariant: the head [v] of the opposite queue is removed, with the
    oldest conversation when [v] is a handshake item. *)
Lemma submit_pair K self this p u v rest :
  kernel_inv K ->
  is_lane p = true ->
  heap K !! self = Some (Some this) ->
  idx p (_laneBroken this) = false ->
  idx (1 - p) (_processQueue this) = v :: rest ->
  exists conversation this2,
    submit self p u K
    = submit_matched p (1 - p) u v conversation (write_stream self this2 K) /\
    kernel_inv (write_stream self this2 K) /\
    _processQueue this2 = upd (1 - p) rest (_processQueue this) /\
    same_control this this2 /\
    _conversationQueue this
      = match conversation with
        | Some c => c :: _conversationQueue this2
        | None => _conversationQueue this2
        end /\
    (conversation = None <-> handshake v = false) /\
    (forall c, conversation = Some c -> unreferenced (write_stream self this2 K) c).
Proof.
  intros Hinv Hp Hs Hb Hq.
  rewrite (submit_pop _ _ _ _ _ _ _ Hp Hs Hb Hq).
  set (this1 := set_processQueue (1 - p) rest this).
  set (K1 := write_stream self this1 K).
  assert (Hs1 : heap K1 !! self = Some (Some this1)).
  { unfold K1. rewrite (lookup_write_live _ _ _ _ _ Hs). by rewrite decide_True. }
  destruct (parked_pop p this v rest Hp Hq (inv_one_side K Hinv _ _ Hs))
    as (Hpe & Hpk & Hpk').
  assert (Hal := inv_aligned K Hinv _ _ Hs). rewrite Hpk in Hal. simpl in Hal.
  assert (exists conversation K2,
            (if OfferBase_classOf v || AcceptBase_classOf v
             then conversation_removeFront self else ret None) K1
            = Ok (conversation, K2)) as (conversation & K2 & Hpop).
  { fold (handshake v). destruct (handshake v); [|by eexists _, _].
    destruct (_conversationQueue this) as [|c crest] eqn:Hcq; [done|].
    unfold conversation_removeFront.
    rewrite (bind_eq _ _ _ _ _ (deref_eq _ _ _ Hs1)).
    change (_conversationQueue this1) with (_conversationQueue this). rewrite Hcq.
    rewrite (bind_eq _ _ _ _ _ (store_eq _ _ _ _ Hs1)). by eexists _, _. }
  destruct (kernel_inv_pop _ _ _ _ _ _ _ _ Hinv Hp Hs Hq Hpop)
    as (this2 & -> & Hinv2 & Hq2 & Hctl & Hcq & Hnone & Hunref).
  exists conversation, this2. rewrite (bind_eq _ _ _ _ _ Hpop). done.
Qed.

Lemma submit_unhandled K self this p u v rest :
  kernel_inv K ->
  is_lane p = true ->
  heap K !! self = Some (Some this) ->
  idx p (_laneBroken this) = false ->
  idx (1 - p) (_processQueue this) = v :: rest ->
  handled u v = false ->
  submit self p u K = Abort mismatch.
Proof.
  intros Hinv Hp Hs Hb Hq Hh.
  destruct (submit_pair K self this p u v rest Hinv Hp Hs Hb Hq)
    as (conversation & this2 & -> & _).
  by apply submit_matched_unhandled.
Qed.

(** *** The two completions of a pairing submit *)

Lemma post_Ok e K a K' : post e K = Ok (a, K') -> events K' = events K ++ [e].
Proof. by intros [= <- <-]. Qed.

Lemma transfer_offer_accept_events offer accept lane K a K' :
  transfer_offer_accept offer accept lane K = Ok (a, K') ->
  exists e1 e2, events K' = events K ++ [e1; e2] /\
    ev_submitInfo e1 = info_of offer /\ ev_submitInfo e2 = info_of accept.
Proof.
  unfold transfer_offer_accept. destruct offer, accept; try done.
  unfold OfferBase_complete, AcceptBase_complete.
  intros (? & K0 & H0%post_Ok & (e & K1 & H1 & H2%post_Ok)%bind_Ok)%bind_Ok.
  destruct (AcceptPolicy_makeEvent_Ok _ _ _ _ _ _ _ H1) as (_ & Hinfo & _).
  apply (keeps_log_AcceptPolicy (events K0) _ _ _ _ K0 _ _ eq_refl) in H1.
  unfold log_is in H1. eexists _, e. rewrite H2, H1, H0, <- app_assoc. done.
Qed.

Lemma transfer_send_recv_events from to K a K' :
  transfer_send_recv from to K = Ok (a, K') ->
  exists e1 e2, events K' = events K ++ [e1; e2] /\
    ev_submitInfo e1 = info_of from /\ ev_submitInfo e2 = info_of to.
Proof.
  unfold transfer_send_recv. destruct from, to; try done.
  unfold SendFromBufferBase_complete, RecvToBufferBase_complete.
  intros (? & ? & [-> _]%assert_Ok &
    (? & K0 & [= <- <-] & (? & K1 & H1%post_Ok & H2%post_Ok)%bind_Ok)%bind_Ok)%bind_Ok.
  eexists _, _. rewrite H2, H1, <- app_assoc. done.
Qed.

Lemma transfer_push_pull_events push pull K a K' :
  transfer_push_pull push pull K = Ok (a, K') ->
  exists e1 e2, events K' = events K ++ [e1; e2] /\
    ev_submitInfo e1 = info_of push /\ ev_submitInfo e2 = info_of pull.
Proof.
  unfold transfer_push_pull. destruct push, pull; try done.
  unfold PushDescriptorBase_complete, PullDescriptorBase_complete.
  intros (? & K0 & H0%post_Ok &
    (d & K1 & Hcopy & (e & K2 & H1 & H2%post_Ok)%bind_Ok)%bind_Ok)%bind_Ok.
  destruct (PullDescriptorPolicy_makeEvent_Ok _ _ _ _ _ _ _ H1) as (_ & Hinfo & _).
  apply (keeps_log_PullDescriptorPolicy (events K1) _ _ _ _ K1 _ _ eq_refl) in H1.
  apply (keeps_log_AnyDescriptor_copy (events K0) _ K0 _ _ eq_refl) in Hcopy.
  unfold log_is in H1, Hcopy. eexists _, e.
  rewrite H2, H1, Hcopy, H0, <- app_assoc. done.
Qed.

Lemma submit_matched_events p q u v conversation K d K' :
  submit_matched p q u v conversation K = Ok (d, K') ->
  exists e1 e2, events K' = events K ++ [e1; e2] /\
    ((ev_submitInfo e1 = info_of u /\ ev_submitInfo e2 = info_of v) \/
     (ev_submitInfo e1 = info_of v /\ ev_submitInfo e2 = info_of u)).
Proof.
  assert (Htail : forall h (r : LaneDescriptor) K1,
            (LaneHandle_drop h ;;; SharedPtr_release conversation ;;; ret r) K1
            = Ok (d, K') -> events K' = events K1).
  { intros h r K1 H.
    assert (Hk : keeps (log_is (events K1))
              (LaneHandle_drop h ;;; SharedPtr_release conversation ;;; ret r))
      by keeps_steps.
    exact (Hk K1 _ _ eq_refl H). }
  assert (Htail' : forall (r : LaneDescriptor) K1,
            (SharedPtr_release conversation ;;; ret r) K1
            = Ok (d, K') -> events K' = events K1).
  { intros r K1 H.
    assert (Hk : keeps (log_is (events K1))
              (SharedPtr_release conversation ;;; ret r))
      by keeps_steps.
    exact (Hk K1 _ _ eq_refl H). }
  unfold submit_matched.
  destruct (OfferBase_classOf u && AcceptBase_classOf v).
  { intros (? & K1 & (e1 & e2 & He & ? & ?)%transfer_offer_accept_events & ->%Htail)%bind_Ok.
    exists e1, e2. split; [done|]. by left. }
  destruct (OfferBase_classOf v && AcceptBase_classOf u).
  { intros (? & K1 & (e1 & e2 & He & ? & ?)%transfer_offer_accept_events & ->%Htail)%bind_Ok.
    exists e1, e2. split; [done|]. by right. }
  destruct (SendFromBufferBase_classOf u && RecvToBufferBase_classOf v).
  { intros (? & K1 & (e1 & e2 & He & ? & ?)%transfer_send_recv_events & ->%Htail')%bind_Ok.
    exists e1, e2. split; [done|]. by left. }
  destruct (SendFromBufferBase_classOf v && RecvToBufferBase_classOf u).
  { intros (? & K1 & (e1 & e2 & He & ? & ?)%transfer_send_recv_events & ->%Htail')%bind_Ok.
    exists e1, e2. split; [done|]. by right. }
  destruct (PushDescriptorBase_classOf u && PullDescriptorBase_classOf v).
  { intros (? & K1 & (e1 & e2 & He & ? & ?)%transfer_push_pull_events & ->%Htail')%bind_Ok.
    exists e1, e2. split; [done|]. by left. }
  done.
Qed.

(** ** First in, first out *)

Lemma submit_pairs_head K self this p u v rest d K' :
  kernel_inv K ->
  heap K !! self = Some (Some this) ->
  idx (1 - p) (_processQueue this) = v :: rest ->
  submit self p u K = Ok (d, K') ->
  exists this' e1 e2,
    heap K' !! self = Some (Some this') /\
    idx (1 - p) (_processQueue this') = rest /\
    idx p (_processQueue this') = idx p (_processQueue this) /\
    events K' = events K ++ [e1; e2] /\
    ((ev_submitInfo e1 = info_of u /\ ev_submitInfo e2 = info_of v) \/
     (ev_submitInfo e1 = info_of v /\ ev_submitInfo e2 = info_of u)).
Proof.
  intros Hinv Hs Hq H.
  destruct (submit_Ok_entry _ _ _ _ _ _ H) as (Hp & this0 & Hs0 & Hb).
  rewrite Hs in Hs0. injection Hs0 as <-.
  destruct (submit_pair K self this p u v rest Hinv Hp Hs Hb Hq)
    as (conversation & this2 & Heq & Hinv2 & Hq2 & _ & Hcq & _ & _).
  rewrite Heq in H. set (K2 := write_stream self this2 K) in *.
  assert (Hs2 : heap K2 !! self = Some (Some this2)).
  { unfold K2. rewrite (lookup_write_live _ _ _ _ _ Hs). by rewrite decide_True. }
  assert (Hne : Some self <> conversation).
  { intros <-. destruct (inv_child K Hinv self this self Hs) as [? _]; [|done].
    rewrite Hcq. by left. }
  pose proof (keeps_evolved_submit_matched _ _ _ _ _ _ _ _ _ (evolves_refl _ _) H self)
    as Hev.
  rewrite Hs2 in Hev.
  destruct (heap K' !! self) as [[this'|]|]; [|done..].
  destruct Hev as [[Hq' _] _].
  destruct (submit_matched_events _ _ _ _ _ _ _ _ H) as (e1 & e2 & He & Hinfo).
  exists this', e1, e2. rewrite Hq', Hq2. split_and!; try done.
  - apply idx_upd_eq.
  - by apply idx_upd_opposite.
Qed.

Lemma submit_parks_back K self this p u d K' :
  heap K !! self = Some (Some this) ->
  idx (1 - p) (_processQueue this) = [] ->
  submit self p u K = Ok (d, K') ->
  exists this',
    heap K' !! self = Some (Some this') /\
    idx p (_processQueue this') = idx p (_processQueue this) ++ [u] /\
    idx (1 - p) (_processQueue this') = [] /\
    events K' = events K.
Proof.
  intros Hs Hq H.
  destruct (submit_Ok_entry _ _ _ _ _ _ H) as (Hp & this0 & Hs0 & Hb).
  rewrite Hs in Hs0. injection Hs0 as <-.
  assert (Hlt : (self < length (heap K))%nat) by by eapply lookup_lt_Some.
  destruct (idx (1 - p) (_laneBroken this)) eqn:Hbq;
    [by rewrite (submit_remotely_broken _ _ _ _ _ Hp Hs Hb Hq Hbq) in H|].
  destruct (handshake u) eqn:Hu.
  - rewrite (submit_park_handshake _ _ _ _ _ Hp Hs Hb Hq Hbq Hu) in H.
    injection H as <- <-. eexists. split.
    + simpl. rewrite lookup_app_l by (by rewrite length_insert).
      by apply list_lookup_insert_eq.
    + simpl. rewrite idx_upd_eq, idx_upd_opposite' by done. done.
  - rewrite (submit_park_plain _ _ _ _ _ Hp Hs Hb Hq Hbq Hu) in H.
    injection H as <- <-. eexists. split.
    + rewrite (lookup_write_live _ _ _ _ _ Hs). by rewrite decide_True.
    + simpl. rewrite idx_upd_eq, idx_upd_opposite' by done. done.
Qed.

(** The pairing part of [submit] destroys no stream when the conversation
    it was handed is as [submit] created it. *)
Lemma submit_matched_live p u v conversation K d K' :
  is_lane p = true ->
  (forall c, conversation = Some c ->
     exists child, heap K !! c = Some (Some child) /\ fresh_conversation child) ->
  submit_matched p (1 - p) u v conversation K = Ok (d, K') ->
  forall s st, heap K !! s = Some (Some st) ->
    exists st', heap K' !! s = Some (Some st') /\ same_queues st st'.
Proof.
  intros Hp Hchild H s st Hs.
  pose proof (keeps_evolved_submit_matched _ _ _ _ _ _ _ _ _ (evolves_refl _ _) H s)
    as Hev.
  rewrite Hs in Hev.
  destruct (heap K' !! s) as [[st'|]|] eqn:Hs'; [|exfalso|done].
  { exists st'. split; [done|]. by destruct Hev. }
  subst conversation. destruct (Hchild s eq_refl) as (child & Hc & Hfresh).
  assert (Hfin : forall offer accept lane lane_dropped (r : LaneDescriptor),
            is_lane lane_dropped = true ->
            (transfer_offer_accept offer accept lane ;;;
             LaneHandle_drop (LaneHandle_adopt s lane_dropped) ;;;
             SharedPtr_release (Some s) ;;; ret r) K = Ok (d, K') -> False).
  { intros offer accept lane lane_dropped r Hl (? & K3 & Ht & Hrest)%bind_Ok.
    pose proof (keeps_heap_transfer_offer_accept (heap K) _ _ _ K _ _ eq_refl Ht)
      as Hh. unfold heap_is in Hh.
    assert (Hc3 : heap K3 !! s = Some (Some child)) by by rewrite Hh.
    destruct (finish_conversation K3 s lane_dropped child r Hl Hc3 Hfresh)
      as (child' & Hrun & _).
    rewrite Hrun in Hrest. injection Hrest as <- <-.
    rewrite (lookup_write_live _ _ _ _ _ Hc3), decide_True in Hs' by done.
    done. }
  assert (Hno : forall (m : M LaneDescriptor),
            keeps (heap_evolved None (heap K)) m -> m K = Ok (d, K') -> False).
  { intros m Hk Hm. specialize (Hk K d K' (evolves_refl _ _) Hm s).
    rewrite Hs, Hs' in Hk. done. }
  revert H. unfold submit_matched.
  destruct (OfferBase_classOf u && AcceptBase_classOf v);
    [by apply Hfin|].
  destruct (OfferBase_classOf v && AcceptBase_classOf u);
    [by apply Hfin, is_lane_opposite|].
  pose proof (keeps_evolved_transfer_push_pull None (heap K)).
  pose proof keeps_heap_transfer_send_recv.
  pose proof (keeps_evolved_LaneHandle_drop (heap K) (Some s)).
  assert (Hrel : forall (r : LaneDescriptor) K1,
            (SharedPtr_release (Some s) ;;; ret r) K1 = Ok (d, K') ->
            heap K1 = heap K -> False).
  { intros r K1 Hrun Hh. simpl in Hrun.
    assert (Hc1 : heap K1 !! s = Some (Some child)) by by rewrite Hh.
    rewrite (bind_eq _ _ _ _ _ (control_decrement_eq _ _ _ Hc1)) in Hrun.
    destruct Hfresh as [Hcnt _]. rewrite Hcnt in Hrun. simpl in Hrun.
    injection Hrun as <- <-.
    rewrite (lookup_write_live _ _ _ _ _ Hc1), decide_True in Hs' by done.
    done. }
  destruct (SendFromBufferBase_classOf u && RecvToBufferBase_classOf v).
  { intros (? & K1 & Ht & Hrest)%bind_Ok. apply (Hrel _ _ Hrest).
    exact (keeps_heap_transfer_send_recv (heap K) _ _ K _ _ eq_refl Ht). }
  destruct (SendFromBufferBase_classOf v && RecvToBufferBase_classOf u).
  { intros (? & K1 & Ht & Hrest)%bind_Ok. apply (Hrel _ _ Hrest).
    exact (keeps_heap_transfer_send_recv (heap K) _ _ K _ _ eq_refl Ht). }
  destruct (PushDescriptorBase_classOf u && PullDescriptorBase_classOf v); [|done].
  intros (? & K1 & Ht & Hrest)%bind_Ok.
  pose proof (keeps_evolved_transfer_push_pull None (heap K) _ _ K _ _
                (evolves_refl _ _) Ht s) as Hev1.
  rewrite Hs in Hev1.
  destruct (heap K1 !! s) as [[st1|]|] eqn:Hs1; [|done..].
  destruct Hev1 as [_ Hctl]. destruct (Hctl ltac:(done)) as [Hcnt1 _].
  rewrite Hc in Hs. injection Hs as <-.
  simpl in Hrest.
  rewrite (bind_eq _ _ _ _ _ (control_decrement_eq _ _ _ Hs1)) in Hrest.
  destruct Hfresh as [Hcnt _]. rewrite Hcnt1, Hcnt in Hrest. simpl in Hrest.
  injection Hrest as <- <-.
  rewrite (lookup_write_live _ _ _ _ _ Hs1), decide_True in Hs' by done.
  done.
Qed.

(** A submit on one stream leaves the queues of every other stream as they
    are. *)
Lemma submit_other_stream K s p u d K' self this :
  kernel_inv K ->
  submit s p u K = Ok (d, K') ->
  heap K !! self = Some (Some this) ->
  self <> s ->
  exists this', heap K' !! self = Some (Some this') /\ same_queues this this'.
Proof.
  intros Hinv H Hself Hne.
  destruct (submit_Ok_entry _ _ _ _ _ _ H) as (Hp & st & Hs & Hb).
  assert (Hlt : (self < length (heap K))%nat) by by eapply lookup_lt_Some.
  destruct (idx (1 - p) (_processQueue st)) as [|v rest] eqn:Hq.
  - destruct (idx (1 - p) (_laneBroken st)) eqn:Hbq;
      [by rewrite (submit_remotely_broken _ _ _ _ _ Hp Hs Hb Hq Hbq) in H|].
    destruct (handshake u) eqn:Hu.
    + rewrite (submit_park_handshake _ _ _ _ _ Hp Hs Hb Hq Hbq Hu) in H.
      injection H as <- <-. exists this. split; [|apply same_queues_refl]. simpl.
      rewrite lookup_app_l by (by rewrite length_insert).
      by rewrite list_lookup_insert_ne.
    + rewrite (submit_park_plain _ _ _ _ _ Hp Hs Hb Hq Hbq Hu) in H.
      injection H as <- <-. exists this. split; [|apply same_queues_refl].
      rewrite (lookup_write_live _ _ _ _ _ Hs). by rewrite decide_False.
  - destruct (submit_pair K s st p u v rest Hinv Hp Hs Hb Hq)
      as (conversation & st2 & Heq & Hinv2 & Hq2 & _ & Hcq & _ & _).
    rewrite Heq in H.
    assert (Hself2 : heap (write_stream s st2 K) !! self = Some (Some this)).
    { rewrite (lookup_write_live _ _ _ _ _ Hs). by rewrite decide_False. }
    assert (Hchild : forall c, conversation = Some c ->
              exists child, heap (write_stream s st2 K) !! c = Some (Some child) /\
                fresh_conversation child).
    { intros c ->.
      destruct (inv_child K Hinv s st c Hs) as (Hcs & child & Hc & Hfresh).
      { rewrite Hcq. by left. }
      exists child. split; [|done].
      rewrite (lookup_write_live _ _ _ _ _ Hs). by rewrite decide_False. }
    exact (submit_matched_live _ _ _ _ _ _ _ Hp Hchild H self this Hself2).
Qed.

Lemma observe_Ok self p u K step K' :
  observe self p u K = Ok (step, K') ->
  K' = K /\ exists this, heap K !! self = Some (Some this) /\
    step = match idx (1 - p) (_processQueue this) with
           | v :: _ => Paired self p u v
           | [] => Parked self p u
           end.
Proof.
  unfold observe. intros (this & ? & [-> Hs]%deref_Ok & [= <- <-])%bind_Ok.
  split; [done|]. by exists this.
Qed.

Lemma enqueued_other self s lane p u d steps :
  self <> s -> enqueued self lane (Parked s p u d :: steps) = enqueued self lane steps.
Proof. intros Hne. simpl. by rewrite (proj2 (Nat.eqb_neq s self)). Qed.

Lemma dequeued_other self s lane p u v d steps :
  self <> s -> dequeued self lane (Paired s p u v d :: steps) = dequeued self lane steps.
Proof. intros Hne. simpl. by rewrite (proj2 (Nat.eqb_neq s self)). Qed.

Lemma run_fifo self inputs : forall K this steps K',
  kernel_inv K ->
  heap K !! self = Some (Some this) ->
  run inputs K = Ok (steps, K') ->
  exists this',
    heap K' !! self = Some (Some this') /\
    forall lane, is_lane lane = true ->
      idx lane (_processQueue this) ++ enqueued self lane steps
      = dequeued self lane steps ++ idx lane (_processQueue this').
Proof.
  induction inputs as [|[[s p] u] inputs IH]; intros K this steps K' Hinv Hs H.
  - injection H as <- <-. exists this. split; [done|]. intros lane _. simpl.
    by rewrite app_nil_r.
  - simpl in H.
    apply bind_Ok in H as (step & ? & [-> (st & Hst & Hstep)]%observe_Ok & H).
    apply bind_Ok in H as (d & K1 & Hsub & H).
    apply bind_Ok in H as (steps' & K2 & Hrun & [= <- <-]).
    pose proof (kernel_inv_submit _ _ _ _ _ _ Hinv Hsub) as Hinv1.
    destruct (submit_Ok_entry _ _ _ _ _ _ Hsub) as (Hp & _).
    destruct (decide (self = s)) as [<-|Hne].
    + rewrite Hs in Hst. injection Hst as <-.
      destruct (idx (1 - p) (_processQueue this)) as [|v rest] eqn:Hq; subst step.
      * destruct (submit_parks_back _ _ _ _ _ _ _ Hs Hq Hsub)
          as (this1 & Hs1 & Hqp & Hqq & _).
        destruct (IH _ _ _ _ Hinv1 Hs1 Hrun) as (this' & Hs' & Hfifo).
        exists this'. split; [done|]. intros lane Hl. specialize (Hfifo lane Hl).
        simpl. rewrite Nat.eqb_refl. simpl.
        apply is_lane_spec in Hp as [-> | ->];
          apply is_lane_spec in Hl as [-> | ->];
          change (1 - 0) with 1 in *; change (1 - 1) with 0 in *; simpl in *;
          rewrite ?Hqp, ?Hqq, ?Hq in Hfifo; rewrite ?Hq;
          rewrite <- ?app_assoc in Hfifo; exact Hfifo.
      * destruct (submit_pairs_head _ _ _ _ _ _ _ _ _ Hinv Hs Hq Hsub)
          as (this1 & e1 & e2 & Hs1 & Hqq & Hqp & _).
        destruct (IH _ _ _ _ Hinv1 Hs1 Hrun) as (this' & Hs' & Hfifo).
        exists this'. split; [done|]. intros lane Hl. specialize (Hfifo lane Hl).
        simpl. rewrite Nat.eqb_refl. simpl.
        apply is_lane_spec in Hp as [-> | ->];
          apply is_lane_spec in Hl as [-> | ->];
          change (1 - 0) with 1 in *; change (1 - 1) with 0 in *; simpl in *;
          rewrite ?Hqp, ?Hqq in Hfifo; rewrite ?Hq; simpl;
          rewrite <- ?Hfifo; done.
    + destruct (submit_other_stream _ _ _ _ _ _ _ _ Hinv Hsub Hs Hne)
        as (this1 & Hs1 & Hq1 & _).
      destruct (IH _ _ _ _ Hinv1 Hs1 Hrun) as (this' & Hs' & Hfifo).
      exists this'. split; [done|]. intros lane Hl. specialize (Hfifo lane Hl).
      rewrite Hq1 in Hfifo. subst step.
      destruct (idx (1 - p) (_processQueue st)).
      * by rewrite enqueued_other.
      * by rewrite dequeued_other.
Qed.

(** C4: matching is first in, first out on each lane.  On a heap between
    two submits, a submit on lane [p] that finds the opposite queue
    non-empty removes exactly its head [v], leaves its own queue as it was
    and fires the two completions of [u] and [v]; a submit that finds the
    opposite queue empty appends its item at the back of the queue of [p]
    and completes nothing; so over any sequence of submits on the streams
    of the kernel, the items taken from the queue of a lane are, in order,
    the items that were put on it: what was queued at the start followed by
    what was parked is what was paired followed by what is still queued. *)
Theorem fifo_per_lane K self this :
  kernel_inv K ->
  heap K !! self = Some (Some this) ->
  (forall p u v rest d K',
     idx (1 - p) (_processQueue this) = v :: rest ->
     submit self p u K = Ok (d, K') ->
     exists this' e1 e2,
       heap K' !! self = Some (Some this') /\
       idx (1 - p) (_processQueue this') = rest /\
       idx p (_processQueue this') = idx p (_processQueue this) /\
       events K' = events K ++ [e1; e2] /\
       ((ev_submitInfo e1 = info_of u /\ ev_submitInfo e2 = info_of v) \/
        (ev_submitInfo e1 = info_of v /\ ev_submitInfo e2 = info_of u)))
  /\ (forall p u d K',
        idx (1 - p) (_processQueue this) = [] ->
        submit self p u K = Ok (d, K') ->
        exists this',
          heap K' !! self = Some (Some this') /\
          idx p (_processQueue this') = idx p (_processQueue this) ++ [u] /\
          idx (1 - p) (_processQueue this') = [] /\
          events K' = events K)
  /\ (forall inputs steps K',
        run inputs K = Ok (steps, K') ->
        exists this',
          heap K' !! self = Some (Some this') /\
          forall lane, is_lane lane = true ->
            idx lane (_processQueue this) ++ enqueued self lane steps
            = dequeued self lane steps ++ idx lane (_processQueue this')).
Proof.
  intros Hinv Hs. split_and!.
  - intros p u v rest d K' Hq H. by eapply submit_pairs_head.
  - intros p u d K' Hq H. by eapply submit_parks_back.
  - intros inputs steps K' H. by eapply run_fifo.
Qed.

(** ** The handles of a conversation *)

Lemma submit_matched_descriptor p q u v conversation K d K' :
  submit_matched p q u v conversation K = Ok (d, K') ->
  handshake v = handshake u /\
  d = if handshake u then mkLaneDescriptor (adoptLane conversation p)
      else LaneDescriptor_empty.
Proof.
  unfold submit_matched.
  destruct u, v; simpl; try done;
    repeat (intros (? & ? & _ & H)%bind_Ok; revert H);
    by intros [= <- <-].
Qed.

Lemma submit_pairs_conversation K self this p u v rest d K' :
  kernel_inv K ->
  heap K !! self = Some (Some this) ->
  idx (1 - p) (_processQueue this) = v :: rest ->
  submit self p u K = Ok (d, K') ->
  exists this',
    heap K' !! self = Some (Some this') /\
    _processQueue this' = upd (1 - p) rest (_processQueue this) /\
    if handshake v
    then exists c, d = mkLaneDescriptor (LaneHandle_adopt c p) /\
           _conversationQueue this = c :: _conversationQueue this'
    else _conversationQueue this' = _conversationQueue this.
Proof.
  intros Hinv Hs Hq H.
  destruct (submit_Ok_entry _ _ _ _ _ _ H) as (Hp & this0 & Hs0 & Hb).
  rewrite Hs in Hs0. injection Hs0 as <-.
  destruct (submit_pair K self this p u v rest Hinv Hp Hs Hb Hq)
    as (conversation & this2 & Heq & Hinv2 & Hq2 & _ & Hcq & Hnone & _).
  rewrite Heq in H. set (K2 := write_stream self this2 K) in *.
  assert (Hs2 : heap K2 !! self = Some (Some this2)).
  { unfold K2. rewrite (lookup_write_live _ _ _ _ _ Hs). by rewrite decide_True. }
  assert (Hne : Some self <> conversation).
  { intros <-. destruct (inv_child K Hinv self this self Hs) as [? _]; [|done].
    rewrite Hcq. by left. }
  pose proof (keeps_evolved_submit_matched _ _ _ _ _ _ _ _ _ (evolves_refl _ _) H self)
    as Hev.
  rewrite Hs2 in Hev.
  destruct (heap K' !! self) as [[this'|]|]; [|done..].
  destruct Hev as [[Hq' Hcq'] _].
  destruct (submit_matched_descriptor _ _ _ _ _ _ _ _ H) as [Hvu Hd].
  exists this'. split; [done|]. split; [by rewrite Hq', Hq2|].
  rewrite Hcq'. destruct conversation as [c|].
  - destruct (handshake v) eqn:Hv; [|by pose proof (proj2 Hnone eq_refl)].
    exists c. rewrite <- Hvu in Hd. by split.
  - by rewrite (proj1 Hnone eq_refl).
Qed.

Lemma submit_parks_conversation K self this p u d K' :
  heap K !! self = Some (Some this) ->
  idx (1 - p) (_processQueue this) = [] ->
  submit self p u K = Ok (d, K') ->
  exists this',
    heap K' !! self = Some (Some this') /\
    _processQueue this' = _processQueue (addBack p u this) /\
    if handshake u
    then exists c, d = mkLaneDescriptor (LaneHandle_adopt c p) /\
           _conversationQueue this' = _conversationQueue this ++ [c]
    else _conversationQueue this' = _conversationQueue this.
Proof.
  intros Hs Hq H.
  destruct (submit_Ok_entry _ _ _ _ _ _ H) as (Hp & this0 & Hs0 & Hb).
  rewrite Hs in Hs0. injection Hs0 as <-.
  assert (Hlt : (self < length (heap K))%nat) by by eapply lookup_lt_Some.
  destruct (idx (1 - p) (_laneBroken this)) eqn:Hbq;
    [by rewrite (submit_remotely_broken _ _ _ _ _ Hp Hs Hb Hq Hbq) in H|].
  destruct (handshake u) eqn:Hu.
  - rewrite (submit_park_handshake _ _ _ _ _ Hp Hs Hb Hq Hbq Hu) in H.
    injection H as <- <-. eexists. split.
    + simpl. rewrite lookup_app_l by (by rewrite length_insert).
      by apply list_lookup_insert_eq.
    + split; [done|]. by eexists.
  - rewrite (submit_park_plain _ _ _ _ _ Hp Hs Hb Hq Hbq Hu) in H.
    injection H as <- <-. eexists. split.
    + rewrite (lookup_write_live _ _ _ _ _ Hs). by rewrite decide_True.
    + done.
Qed.

Lemma pending_handles_at st lane :
  (parked st <> [] -> parked_lane st = lane) ->
  pending_handles st
  = map (fun vc => (fst vc, LaneHandle_adopt (snd vc) lane)) (pending_conversations st).
Proof.
  intros H. unfold pending_handles, pending_conversations.
  destruct (parked st) as [|x l] eqn:E; [done|]. by rewrite H.
Qed.

Lemma parked_lane_of p st x l :
  is_lane p = true ->
  idx p (_processQueue st) = x :: l ->
  idx (1 - p) (_processQueue st) = [] ->
  parked_lane st = p.
Proof.
  unfold parked_lane, idx.
  intros [-> | ->]%is_lane_spec; simpl; intros H1 H2; rewrite ?H1, ?H2; done.
Qed.

Lemma pending_handles_same st st' :
  same_queues st st' -> pending_handles st' = pending_handles st.
Proof.
  intros [Hq Hcq].
  unfold pending_handles, pending_conversations, parked, parked_lane.
  by rewrite Hq, Hcq.
Qed.

(** What a pairing submit does to the pending handles. *)
Lemma pending_handles_pair K self this p u v rest d K' :
  kernel_inv K ->
  heap K !! self = Some (Some this) ->
  idx (1 - p) (_processQueue this) = v :: rest ->
  submit self p u K = Ok (d, K') ->
  exists this',
    heap K' !! self = Some (Some this') /\
    pending_handles this
    = if handshake v then (v, opposite (_handle d)) :: pending_handles this'
      else pending_handles this'.
Proof.
  intros Hinv Hs Hq H.
  destruct (submit_Ok_entry _ _ _ _ _ _ H) as (Hp & _).
  destruct (submit_pairs_conversation _ _ _ _ _ _ _ _ _ Hinv Hs Hq H)
    as (this' & Hs' & Hq' & Hconv).
  exists this'. split; [done|].
  destruct (parked_pop p this v rest Hp Hq (inv_one_side K Hinv _ _ Hs))
    as (Hpe & Hpk & Hpk').
  assert (Hpk2 : parked this' = rest).
  { unfold parked in *. rewrite Hq'. exact Hpk'. }
  assert (Hlane : parked_lane this = 1 - p).
  { eapply parked_lane_of; [by apply is_lane_opposite|done|].
    by replace (1 - (1 - p)) with p by lia. }
  assert (Hlane' : parked this' <> [] -> parked_lane this' = 1 - p).
  { rewrite Hpk2. destruct rest as [|x l]; [done|]. intros _.
    eapply (parked_lane_of (1 - p) this' x l); [by apply is_lane_opposite| |].
    - by rewrite Hq', idx_upd_eq.
    - replace (1 - (1 - p)) with p by lia.
      rewrite Hq', idx_upd_opposite by done. done. }
  rewrite (pending_handles_at this (1 - p)) by done.
  rewrite (pending_handles_at this' (1 - p)) by done.
  unfold pending_conversations. rewrite Hpk, Hpk2. simpl.
  destruct (handshake v).
  - destruct Hconv as (c & -> & ->). done.
  - by rewrite Hconv.
Qed.

(** What a parking submit does to the pending handles. *)
Lemma pending_handles_park K self this p u d K' :
  kernel_inv K ->
  heap K !! self = Some (Some this) ->
  idx (1 - p) (_processQueue this) = [] ->
  submit self p u K = Ok (d, K') ->
  exists this',
    heap K' !! self = Some (Some this') /\
    pending_handles this'
    = if handshake u then pending_handles this ++ [(u, _handle d)]
      else pending_handles this.
Proof.
  intros Hinv Hs Hq H.
  destruct (submit_Ok_entry _ _ _ _ _ _ H) as (Hp & _).
  destruct (submit_parks_conversation _ _ _ _ _ _ _ Hs Hq H)
    as (this' & Hs' & Hq' & Hconv).
  exists this'. split; [done|].
  destruct (parked_addBack p u this Hp Hq) as [Hpk _].
  assert (Hpk' : parked this' = parked this ++ [u]).
  { unfold parked in *. by rewrite Hq'. }
  assert (Hlane : parked this <> [] -> parked_lane this = p).
  { unfold parked, parked_lane. unfold idx in Hq.
    apply is_lane_spec in Hp as [-> | ->]; simpl in Hq.
    - destruct (_processQueue this).1; [|done]. rewrite Hq. done.
    - by rewrite Hq. }
  assert (Hlane' : parked_lane this' = p).
  { unfold parked_lane. rewrite Hq'. unfold addBack, idx, upd in *. simpl.
    apply is_lane_spec in Hp as [-> | ->]; simpl in *.
    - by destruct (_processQueue this).1.
    - by rewrite Hq. }
  rewrite (pending_handles_at this p) by done.
  rewrite (pending_handles_at this' p) by done.
  unfold pending_conversations. rewrite Hpk', handshakes_app. simpl.
  assert (Hal := inv_aligned K Hinv _ _ Hs).
  destruct (handshake u).
  - destruct Hconv as (c & -> & ->).
    rewrite zip_with_app by (symmetry; exact Hal). by rewrite map_app.
  - by rewrite Hconv, app_nil_r.
Qed.

Lemma handles_parked_other self s p u d steps :
  self <> s -> handles_parked self (Parked s p u d :: steps) = handles_parked self steps.
Proof. intros Hne. simpl. by rewrite (proj2 (Nat.eqb_neq s self)). Qed.

Lemma handles_paired_other self s p u v d steps :
  self <> s -> handles_paired self (Paired s p u v d :: steps) = handles_paired self steps.
Proof. intros Hne. simpl. by rewrite (proj2 (Nat.eqb_neq s self)). Qed.

Lemma run_handles self inputs : forall K this steps K',
  kernel_inv K ->
  heap K !! self = Some (Some this) ->
  run inputs K = Ok (steps, K') ->
  exists this',
    heap K' !! self = Some (Some this') /\
    pending_handles this ++ handles_parked self steps
    = handles_paired self steps ++ pending_handles this'.
Proof.
  induction inputs as [|[[s p] u] inputs IH]; intros K this steps K' Hinv Hs H.
  - injection H as <- <-. exists this. split; [done|]. simpl.
    by rewrite app_nil_r.
  - simpl in H.
    apply bind_Ok in H as (step & ? & [-> (st & Hst & Hstep)]%observe_Ok & H).
    apply bind_Ok in H as (d & K1 & Hsub & H).
    apply bind_Ok in H as (steps' & K2 & Hrun & [= <- <-]).
    pose proof (kernel_inv_submit _ _ _ _ _ _ Hinv Hsub) as Hinv1.
    destruct (decide (self = s)) as [<-|Hne].
    + rewrite Hs in Hst. injection Hst as <-.
      destruct (idx (1 - p) (_processQueue this)) as [|v rest] eqn:Hq; subst step.
      * destruct (pending_handles_park _ _ _ _ _ _ _ Hinv Hs Hq Hsub)
          as (this1 & Hs1 & Hph).
        destruct (IH _ _ _ _ Hinv1 Hs1 Hrun) as (this' & Hs' & Heq).
        exists this'. split; [done|]. simpl. rewrite Nat.eqb_refl. simpl.
        rewrite Hph in Heq. destruct (handshake u); [|done].
        by rewrite <- app_assoc in Heq.
      * destruct (pending_handles_pair _ _ _ _ _ _ _ _ _ Hinv Hs Hq Hsub)
          as (this1 & Hs1 & Hph).
        destruct (IH _ _ _ _ Hinv1 Hs1 Hrun) as (this' & Hs' & Heq).
        exists this'. split; [done|]. simpl. rewrite Nat.eqb_refl. simpl.
        rewrite Hph. destruct (handshake v); [|done].
        simpl. by rewrite Heq.
    + destruct (submit_other_stream _ _ _ _ _ _ _ _ Hinv Hsub Hs Hne)
        as (this1 & Hs1 & Hsame).
      destruct (IH _ _ _ _ Hinv1 Hs1 Hrun) as (this' & Hs' & Heq).
      exists this'. split; [done|].
      rewrite (pending_handles_same _ _ Hsame) in Heq. subst step.
      destruct (idx (1 - p) (_processQueue st)).
      * by rewrite handles_parked_other.
      * by rewrite handles_paired_other.
Qed.

(** C2: an Offer paired with an Accept, whichever of the two was parked.
    On a heap between two submits ([kernel_inv]), with lane [p] not broken
    and the universe of the Accept alive and unlocked, [submit] returns;
    the Offer completes with [kErrSuccess] and no payload; the Accept
    completes with [kErrSuccess] and a handle that resolves, in its
    universe, to the lane of the conversation [c] on the side the Accept
    was submitted on; the caller gets the descriptor of lane [p] of the
    same [c]; and [c] is the conversation whose lane [1 - p] is pending
    for the parked item [v].  Over any sequence of submits, the handle
    that was returned to the submitter of a handshake item when the item
    was parked is the opposite lane of the same conversation as the handle
    returned to the submitter it is paired with: the two sides hold the
    two lanes of one stream. *)
Theorem offer_accept_conversation K self this :
  kernel_inv K ->
  heap K !! self = Some (Some this) ->
  (forall p u v rest offer_info accept_info accept_universe un,
     is_lane p = true ->
     idx p (_laneBroken this) = false ->
     idx (1 - p) (_processQueue this) = v :: rest ->
     (u = Offer offer_info /\ v = Accept accept_info accept_universe) \/
     (u = Accept accept_info accept_universe /\ v = Offer offer_info) ->
     universes K !! accept_universe = Some un ->
     lock un = false ->
     let accept_lane := if AcceptBase_classOf u then p else 1 - p in
     exists c K' this' un',
       submit self p u K = Ok (mkLaneDescriptor (LaneHandle_adopt c p), K') /\
       heap K' !! self = Some (Some this') /\
       pending_handles this
       = (v, LaneHandle_adopt c (1 - p)) :: pending_handles this' /\
       events K' = events K ++
         [mkAsyncEvent kEventOffer offer_info kErrSuccess None None;
          mkAsyncEvent kEventAccept accept_info kErrSuccess
            (Some (_nextHandle un)) None] /\
       universes K' !! accept_universe = Some un' /\
       _descriptorMap un' !! _nextHandle un
       = Some (AnyLaneDescriptor
                 (mkLaneDescriptor (LaneHandle_adopt c accept_lane))) /\
       ((p = 0 /\ 1 - p = 1) \/ (p = 1 /\ 1 - p = 0)))
  /\ (forall inputs steps K',
        run inputs K = Ok (steps, K') ->
        exists this',
          heap K' !! self = Some (Some this') /\
          pending_handles this ++ handles_parked self steps
          = handles_paired self steps ++ pending_handles this').
Proof.
  intros Hinv Hs. split.
  - intros p u v rest offer_info accept_info accept_universe un
      Hp Hb Hq Huv Hw Hl accept_lane.
    destruct (offer_accept_pair K self this p u v rest offer_info accept_info
                accept_universe un Hinv Hp Hs Hb Hq Huv Hw Hl)
      as (c & K' & this' & un' & Hsub & _ & Hs' & Hev & Hun & Hmap & _).
    destruct (pending_handles_pair _ _ _ _ _ _ _ _ _ Hinv Hs Hq Hsub)
      as (this1 & Hs1 & Hph).
    rewrite Hs' in Hs1. injection Hs1 as <-.
    assert (Hv : handshake v = true) by (by destruct Huv as [[-> ->]|[-> ->]]).
    rewrite Hv in Hph. simpl in Hph.
    exists c, K', this', un'. split_and!; try done.
    apply is_lane_spec in Hp. lia.
  - intros inputs steps K' H. by eapply run_handles.
Qed.

(** ** Parking *)

Lemma submit_descriptor K self p u d K' :
  submit self p u K = Ok (d, K') ->
  if handshake u then exists c, d = mkLaneDescriptor (LaneHandle_adopt c p)
  else d = LaneDescriptor_empty.
Proof.
  intros H.
  destruct (submit_Ok_entry _ _ _ _ _ _ H) as (Hp & this & Hs & Hb).
  destruct (idx (1 - p) (_processQueue this)) as [|v rest] eqn:Hq.
  - destruct (idx (1 - p) (_laneBroken this)) eqn:Hbq;
      [by rewrite (submit_remotely_broken _ _ _ _ _ Hp Hs Hb Hq Hbq) in H|].
    destruct (handshake u) eqn:Hu.
    + rewrite (submit_park_handshake _ _ _ _ _ Hp Hs Hb Hq Hbq Hu) in H.
      injection H as <- <-. eauto.
    + rewrite (submit_park_plain _ _ _ _ _ Hp Hs Hb Hq Hbq Hu) in H.
      by injection H as <- <-.
  - rewrite (submit_pop _ _ _ _ _ _ _ Hp Hs Hb Hq) in H.
    apply bind_Ok in H as (conversation & K2 & Hpop & H).
    assert (Hconv : handshake v = true -> exists c, conversation = Some c).
    { intros Hv. fold (handshake v) in Hpop. rewrite Hv in Hpop.
      apply conversation_removeFront_Ok in Hpop as (? & c & ? & _ & _ & -> & _).
      eauto. }
    revert H. unfold submit_matched.
    destruct u, v; simpl; try done;
      try (destruct (Hconv eq_refl) as [c ->]; simpl);
      repeat (intros (? & ? & _ & H)%bind_Ok; revert H);
      intros [= <- <-]; eauto.
Qed.

(** C5: the descriptor that [submit] returns.  An Offer or Accept that
    finds the opposite queue empty and neither lane broken is parked at the
    back of the queue of its lane [p]; a conversation is created at an
    address [c] that was not in use, with three references and both peer
    counts 2, and appended to the queue of conversations; nothing is
    completed; the descriptor returned is lane [p] of [c], and [c] becomes
    the conversation pending for the item.  Any submit that returns, parked
    or paired, returns the empty descriptor when its item is neither an
    Offer nor an Accept, and a descriptor of lane [p] of a stream when it
    is. *)
Theorem handshake_parks_with_conversation :
  (forall K self this p u,
     is_lane p = true ->
     heap K !! self = Some (Some this) ->
     idx p (_laneBroken this) = false ->
     idx (1 - p) (_processQueue this) = [] ->
     idx (1 - p) (_laneBroken this) = false ->
     handshake u = true ->
     let c := length (heap K) in
     exists K' this',
       submit self p u K = Ok (mkLaneDescriptor (LaneHandle_adopt c p), K') /\
       heap K !! c = None /\
       heap K' !! c = Some (Some (mkStream 3 (2, 2) (false, false) ([], []) [])) /\
       heap K' !! self = Some (Some this') /\
       _conversationQueue this' = _conversationQueue this ++ [c] /\
       idx p (_processQueue this') = idx p (_processQueue this) ++ [u] /\
       idx (1 - p) (_processQueue this') = [] /\
       events K' = events K /\
       (kernel_inv K ->
        pending_handles this' = pending_handles this ++ [(u, LaneHandle_adopt c p)]))
  /\ (forall K self p u d K',
        submit self p u K = Ok (d, K') ->
        if handshake u then exists c, d = mkLaneDescriptor (LaneHandle_adopt c p)
        else d = LaneDescriptor_empty).
Proof.
  split; [|apply submit_descriptor].
  intros K self this p u Hp Hs Hb Hq Hbq Hu c.
  assert (Hlt : (self < length (heap K))%nat) by by eapply lookup_lt_Some.
  eexists _, _. split; [by apply submit_park_handshake|]. simpl. split_and!.
  - apply lookup_ge_None. unfold c. lia.
  - rewrite lookup_app_r by (rewrite length_insert; unfold c; lia).
    rewrite length_insert. unfold c. by rewrite Nat.sub_diag.
  - rewrite lookup_app_l by (by rewrite length_insert).
    by apply list_lookup_insert_eq.
  - done.
  - simpl. by rewrite idx_upd_eq.
  - simpl. by rewrite idx_upd_opposite'.
  - done.
  - intros Hinv.
    destruct (pending_handles_park K self this p u _ _ Hinv Hs Hq
                (submit_park_handshake _ _ _ _ _ Hp Hs Hb Hq Hbq Hu))
      as (this1 & Hs1 & Hph).
    simpl in Hs1. rewrite lookup_app_l in Hs1 by (by rewrite length_insert).
    rewrite list_lookup_insert_eq in Hs1 by done. injection Hs1 as <-.
    by rewrite Hu in Hph.
Qed.

(** ** The last handle of a lane *)

(** C8, as the code has it: when the last handle of a lane is dropped
    (the peer count of the lane was 1 and becomes 0), the lane is marked
    broken and the reference that the lane holds on the stream is given
    up; no parked item is drained or completed: both queues and the queue
    of conversations stay as they are and the log gains nothing.  With the
    last reference the stream is destroyed, again without a completion; a
    stream whose two references are those of its lanes is destroyed once
    both lanes are broken. *)
Theorem last_handle_breaks_lane_only :
  (forall K s st lane,
     is_lane lane = true ->
     heap K !! s = Some (Some st) ->
     idx lane (_peerCount st) = 1 ->
     idx lane (_laneBroken st) = false ->
     exists K',
       LaneHandle_drop (LaneHandle_adopt s lane) K = Ok (tt, K') /\
       events K' = events K /\
       (counter st = 1 -> heap K' !! s = Some None) /\
       (counter st <> 1 ->
        exists st',
          heap K' !! s = Some (Some st') /\
          idx lane (_laneBroken st') = true /\
          idx (1 - lane) (_laneBroken st') = idx (1 - lane) (_laneBroken st) /\
          idx lane (_peerCount st') = 0 /\
          counter st' = counter st - 1 /\
          _processQueue st' = _processQueue st /\
          _conversationQueue st' = _conversationQueue st))
  /\ (forall K s st,
        heap K !! s = Some (Some st) ->
        counter st = 2 ->
        _peerCount st = (1, 1) ->
        _laneBroken st = (false, false) ->
        exists K',
          (LaneHandle_drop (LaneHandle_adopt s 0) ;;;
           LaneHandle_drop (LaneHandle_adopt s 1)) K = Ok (tt, K') /\
          heap K' !! s = Some None /\
          events K' = events K).
Proof.
  split.
  - intros K s st lane Hl Hs Hc Hb.
    assert (Hlt : (s < length (heap K))%nat) by by eapply lookup_lt_Some.
    eexists. split; [apply (LaneHandle_drop_last _ _ _ _ Hl Hs); [lia|done]|].
    split; [by destruct (counter st =? 1)|]. split.
    + intros ->. simpl. by apply list_lookup_insert_eq.
    + intros Hne. apply Z.eqb_neq in Hne. rewrite Hne.
      eexists. split; [rewrite (lookup_write_live _ _ _ _ _ Hs); by rewrite decide_True|].
      simpl. rewrite !idx_upd_eq, Hc. split_and!; try done.
      by apply idx_upd_opposite'.
  - intros K s st Hs Hcnt Hpc Hbr.
    assert (Hlt : (s < length (heap K))%nat) by by eapply lookup_lt_Some.
    set (st1 := lane_closed 0 st).
    assert (H1 : LaneHandle_drop (LaneHandle_adopt s 0) K
                 = Ok (tt, write_stream s st1 K)).
    { rewrite (LaneHandle_drop_last s 0 K st eq_refl Hs);
        [by rewrite Hcnt|by rewrite Hpc|by rewrite Hbr]. }
    assert (Hs1 : heap (write_stream s st1 K) !! s = Some (Some st1)).
    { rewrite (lookup_write_live _ _ _ _ _ Hs). by rewrite decide_True. }
    assert (H2 : LaneHandle_drop (LaneHandle_adopt s 1) (write_stream s st1 K)
                 = Ok (tt, free_stream s (write_stream s st1 K))).
    { rewrite (LaneHandle_drop_last s 1 _ st1 eq_refl Hs1).
      - unfold st1. simpl. by rewrite Hcnt.
      - unfold st1. simpl. by rewrite Hpc.
      - unfold st1. simpl. by rewrite Hbr. }
    rewrite (bind_eq _ _ _ _ _ H1), H2.
    eexists. split; [reflexivity|]. split; [|done].
    simpl. apply list_lookup_insert_eq. by rewrite length_insert.
Qed.

(** ** Push and pull *)

Lemma incrementPeers_eq s lane K st :
  is_lane lane = true -> heap K !! s = Some (Some st) ->
  idx lane (_peerCount st) <> 0 ->
  incrementPeers s lane K
  = Ok (tt, write_stream s
              (set_peerCount lane (wrap_int (idx lane (_peerCount st) + 1)) st) K).
Proof.
  intros Hl Hs Hc. unfold incrementPeers.
  rewrite (bind_eq _ _ _ _ _ (in_bounds_eq _ _ Hl)).
  rewrite (bind_eq _ _ _ _ _ (deref_eq _ _ _ Hs)). simpl.
  rewrite (bind_eq _ _ _ _ _ (store_eq _ _ _ _ Hs)).
  apply Z.eqb_neq in Hc. by rewrite Hc.
Qed.

Lemma AnyDescriptor_copy_eq K d :
  copyable K d ->
  exists K', AnyDescriptor_copy d K = Ok (d, K') /\
    universes K' = universes K /\ events K' = events K.
Proof.
  destruct d as [| |[[|s lane]]]; try by eexists.
  intros (Hl & st & Hs & Hc). unfold AnyDescriptor_copy, LaneHandle_copy.
  unfold bind at 1.
  rewrite (bind_eq _ _ _ _ _ (incrementPeers_eq _ _ _ _ Hl Hs Hc)).
  by eexists.
Qed.

Lemma copyable_write K s st st' d :
  heap K !! s = Some (Some st) ->
  _peerCount st' = _peerCount st ->
  copyable K d -> copyable (write_stream s st' K) d.
Proof.
  intros Hs Hpc. unfold copyable. destruct d as [| |[[|s0 lane]]]; try done.
  intros (Hl & st0 & Hs0 & Hc). split; [done|].
  rewrite (lookup_write_live _ _ _ _ _ Hs).
  destruct (decide (s0 = s)) as [->|?]; [|by exists st0].
  rewrite Hs in Hs0. injection Hs0 as <-. exists st'. by rewrite Hpc.
Qed.

Lemma copyable_heap K K' d : heap K' = heap K -> copyable K d -> copyable K' d.
Proof. intros Hh. unfold copyable. by rewrite Hh. Qed.

(** A PushDescriptor submitted against a parked PullDescriptor whose
    universe is alive and unlocked: the pusher completes with
    [kErrSuccess]; the handle in the puller's completion was not in use in
    the puller's universe and now resolves there to the descriptor that
    was pushed; the universe is unlocked again. *)
Lemma push_meets_parked_pull K self this p rest push_info d pull_info w un :
  is_lane p = true ->
  heap K !! self = Some (Some this) ->
  idx p (_laneBroken this) = false ->
  idx (1 - p) (_processQueue this) = PullDescriptor pull_info w :: rest ->
  copyable K d ->
  universes K !! w = Some un ->
  lock un = false ->
  universe_wf un ->
  exists K' un',
    submit self p (PushDescriptor push_info d) K = Ok (LaneDescriptor_empty, K') /\
    events K' = events K ++
      [mkAsyncEvent kEventSendDescriptor push_info kErrSuccess None None;
       mkAsyncEvent kEventRecvDescriptor pull_info kErrSuccess
         (Some (_nextHandle un)) None] /\
    _descriptorMap un !! _nextHandle un = None /\
    universes K' !! w = Some un' /\
    _descriptorMap un' !! _nextHandle un = Some d /\
    lock un' = false /\ universe_wf un'.
Proof.
  intros Hp Hs Hb Hq Hd Hw Hl Hwf.
  rewrite (submit_pop _ _ _ _ _ _ _ Hp Hs Hb Hq). simpl.
  unfold bind at 1. simpl. unfold submit_matched. simpl.
  unfold transfer_push_pull, PushDescriptorBase_complete, PullDescriptorBase_complete.
  unfold bind at 1. unfold bind at 1. simpl.
  set (K1 := set_events _ _).
  assert (Hd1 : copyable K1 d).
  { apply (copyable_heap (write_stream self (set_processQueue (1 - p) rest this) K));
      [reflexivity|].
    by apply (copyable_write K self this). }
  destruct (AnyDescriptor_copy_eq K1 d Hd1) as (K2 & Hcopy & Hun2 & Hev2).
  rewrite (bind_eq _ _ _ _ _ Hcopy).
  assert (Hw2 : universes K2 !! w = Some un) by by rewrite Hun2.
  rewrite (bind_eq _ _ _ _ _ (PullDescriptorPolicy_makeEvent_eq _ _ _ _ _ un Hw2 Hl)).
  simpl. eexists _, _. split; [reflexivity|]. simpl. split_and!.
  - rewrite Hev2. unfold K1. simpl. by rewrite <- app_assoc.
  - by apply attached_fresh.
  - apply lookup_insert_eq.
  - apply attached_lookup.
  - done.
  - by apply attached_wf.
Qed.

(** C3, as the code has it, in the two orders of the pair.  A
    PullDescriptor submitted against a parked PushDescriptor, the order
    that the dispatch has no branch for, stops in the trap of the
    dispatch: the pusher is not completed and no handle is delivered.  A
    PushDescriptor submitted against a parked PullDescriptor whose
    universe is alive and unlocked is delivered: the pusher completes
    with [kErrSuccess] and the handle of the puller's completion, which
    was not in use, resolves in the puller's universe to the descriptor
    that was pushed. *)
Theorem pull_after_push_traps K self this p rest push_info d :
  is_lane p = true ->
  heap K !! self = Some (Some this) ->
  idx p (_laneBroken this) = false ->
  (forall pull_info w,
     idx (1 - p) (_processQueue this) = PushDescriptor push_info d :: rest ->
     submit self p (PullDescriptor pull_info w) K = Abort mismatch)
  /\ (forall pull_info w un,
        idx (1 - p) (_processQueue this) = PullDescriptor pull_info w :: rest ->
        copyable K d ->
        universes K !! w = Some un ->
        lock un = false ->
        universe_wf un ->
        exists K' un',
          submit self p (PushDescriptor push_info d) K
          = Ok (LaneDescriptor_empty, K') /\
          events K' = events K ++
            [mkAsyncEvent kEventSendDescriptor push_info kErrSuccess None None;
             mkAsyncEvent kEventRecvDescriptor pull_info kErrSuccess
               (Some (_nextHandle un)) None] /\
          _descriptorMap un !! _nextHandle un = None /\
          universes K' !! w = Some un' /\
          _descriptorMap un' !! _nextHandle un = Some d).
Proof.
  intros Hp Hs Hb. split.
  - intros pull_info w Hq.
    rewrite (submit_pop _ _ _ _ _ _ _ Hp Hs Hb Hq). simpl.
    unfold bind at 1. simpl. by apply submit_matched_unhandled.
  - intros pull_info w un Hq Hd Hw Hl Hwf.
    destruct (push_meets_parked_pull K self this p rest push_info d pull_info w un
                Hp Hs Hb Hq Hd Hw Hl Hwf)
      as (K' & un' & H1 & H2 & H3 & H4 & H5 & _).
    by exists K', un'.
Qed.

(** ** Every completion carries success *)

(** C10: whenever [submit] returns, the completions it has fired all carry
    [kErrSuccess]; and the abnormal conditions stop it in an assertion:
    a submit on a broken lane, a submit that finds nothing parked on a
    broken opposite lane, a receive buffer smaller than the send buffer it
    is paired with, and a pair of kinds that do not match. *)
Theorem completions_carry_success_only :
  (forall K self p u d K',
     submit self p u K = Ok (d, K') ->
     exists new, events K' = events K ++ new /\
       Forall (fun e => ev_error e = kErrSuccess) new)
  /\ (forall K self this p u,
        is_lane p = true ->
        heap K !! self = Some (Some this) ->
        idx p (_laneBroken this) = true ->
        submit self p u K = Abort (AssertionFailed "!_laneBroken[p]"))
  /\ (forall K self this p u,
        is_lane p = true ->
        heap K !! self = Some (Some this) ->
        idx p (_laneBroken this) = false ->
        idx (1 - p) (_processQueue this) = [] ->
        idx (1 - p) (_laneBroken this) = true ->
        submit self p u K = Abort (AssertionFailed "Handle remotely broken lanes"))
  /\ (forall K self this p u v rest send_info buffer recv_info accessor,
        is_lane p = true ->
        heap K !! self = Some (Some this) ->
        idx p (_laneBroken this) = false ->
        idx (1 - p) (_processQueue this) = v :: rest ->
        (u = SendFromBuffer send_info buffer /\ v = RecvToBuffer recv_info accessor) \/
        (u = RecvToBuffer recv_info accessor /\ v = SendFromBuffer send_info buffer) ->
        (acc_length accessor < length buffer)%nat ->
        submit self p u K
        = Abort (AssertionFailed "from->buffer.size() <= to->accessor.length()"))
  /\ (forall K self this p u v rest,
        kernel_inv K ->
        is_lane p = true ->
        heap K !! self = Some (Some this) ->
        idx p (_laneBroken this) = false ->
        idx (1 - p) (_processQueue this) = v :: rest ->
        legal u v = false ->
        submit self p u K = Abort (AssertionFailed "Operations do not match")).
Proof.
  split_and!.
  - intros K self p u d K' H.
    apply (keeps_success_submit (events K) self p u K d K'); [|done].
    exists []. by rewrite app_nil_r.
  - intros K self this p u. apply submit_locally_broken.
  - intros K self this p u. apply submit_remotely_broken.
  - intros K self this p u v rest send_info buffer recv_info accessor
      Hp Hs Hb Hq Huv Hlt.
    rewrite (submit_send_recv _ _ _ _ _ _ _ _ _ _ _ Hp Hs Hb Hq Huv).
    apply Nat.leb_gt in Hlt. by rewrite Hlt.
  - intros K self this p u v rest Hinv Hp Hs Hb Hq Hl.
    eapply submit_unhandled; try done.
    rewrite legal_handled, Hl. done.
Qed.

(** ** The scenarios *)

Lemma kernel_inv_after_submit K self p u :
  kernel_inv K -> kernel_inv (after (submit self p u) K).
Proof.
  intros Hinv. unfold after.
  destruct (submit self p u K) as [[d K']|] eqn:H; [|done].
  by eapply kernel_inv_submit.
Qed.

Lemma kernel_inv_k_fresh : kernel_inv k_fresh.
Proof.
  apply (kernel_inv_heap (after createStream empty_kernel)); [reflexivity|].
  unfold after. destruct (createStream empty_kernel) as [[h K']|] eqn:H.
  - eapply kernel_inv_createStream; [apply kernel_inv_empty|done].
  - apply kernel_inv_empty.
Qed.

(** Send, then receive: the receiver gets "hello" and the length 5. *)
Example scenario_send_then_recv :
  let K' := after (submit 0%nat 1 recv16) k_send_parked in
  events K' =
    [mkAsyncEvent kEventSendString 1 kErrSuccess None None;
     mkAsyncEvent kEventRecvString 2 kErrSuccess None (Some 5%nat)] /\
  read_bytes 100 5 (memory K') = map Some hello.
Proof. split; reflexivity. Qed.

(** Receive, then send. *)
Example scenario_recv_then_send :
  let K' := after (submit 0%nat 1 (SendFromBuffer 1 hello)) k_recv_parked in
  events K' =
    [mkAsyncEvent kEventSendString 1 kErrSuccess None None;
     mkAsyncEvent kEventRecvString 2 kErrSuccess None (Some 5%nat)] /\
  read_bytes 100 5 (memory K') = map Some hello.
Proof. split; reflexivity. Qed.

(** Offer on lane 0, then Accept on lane 1: the descriptor returned for the
    Offer and the handle completed to the Accept are lanes 0 and 1 of the
    conversation at address 1. *)
Example scenario_offer_then_accept :
  let K2 := after (submit 0%nat 1 (Accept 2 7%nat)) k_offer_parked in
  returned (submit 0%nat 0 (Offer 1)) k_fresh
  = Some (mkLaneDescriptor (LaneHandle_adopt 1%nat 0)) /\
  returned (submit 0%nat 1 (Accept 2 7%nat)) k_offer_parked
  = Some (mkLaneDescriptor (LaneHandle_adopt 1%nat 1)) /\
  events K2 =
    [mkAsyncEvent kEventOffer 1 kErrSuccess None None;
     mkAsyncEvent kEventAccept 2 kErrSuccess (Some 1) None] /\
  (universes K2 !! 7%nat) ≫= (fun un => _descriptorMap un !! 1)
  = Some (AnyLaneDescriptor (mkLaneDescriptor (LaneHandle_adopt 1%nat 1))).
Proof. split_and!; reflexivity. Qed.

(** Two sends on lane 0, then two receives on lane 1 into two buffers: the
    first receiver gets "A", the second gets "B". *)
Example scenario_fifo :
  let K' := after (run two_sends_two_recvs) k_fresh in
  map ev_submitInfo (events K') = [1; 3; 2; 4] /\
  read_bytes 100 1 (memory K') = [Some x41] /\
  read_bytes 200 1 (memory K') = [Some x42].
Proof. split_and!; reflexivity. Qed.

(** ** The theorems at the scenarios *)

Lemma kernel_inv_k_offer_parked : kernel_inv k_offer_parked.
Proof. apply kernel_inv_after_submit, kernel_inv_k_fresh. Qed.

Lemma kernel_inv_k_send_parked : kernel_inv k_send_parked.
Proof. apply kernel_inv_after_submit, kernel_inv_k_fresh. Qed.

(** [send_recv_transfer] where "hello" is parked on lane 0 and a buffer of
    16 bytes is submitted on lane 1. *)
Lemma send_recv_transfer_witness :
  (forall d K', submit 0%nat 1 recv16 k_send_parked = Ok (d, K') ->
     d = LaneDescriptor_empty /\
     events K' = events k_send_parked ++
       [mkAsyncEvent kEventSendString 1 kErrSuccess None None;
        mkAsyncEvent kEventRecvString 2 kErrSuccess None (Some 5%nat)] /\
     read_bytes 100 5 (memory K') = map Some hello)
  /\ exists K', submit 0%nat 1 recv16 k_send_parked = Ok (LaneDescriptor_empty, K').
Proof.
  destruct (send_recv_transfer k_send_parked 0%nat
              (stream_with [SendFromBuffer 1 hello] []) 1 recv16
              (SendFromBuffer 1 hello) [] 1 hello 2 (mkAccessor 100 16)
              eq_refl eq_refl (or_intror (conj eq_refl eq_refl))) as [H1 H2].
  split; [exact H1|]. apply H2; [reflexivity|reflexivity|simpl; lia].
Defined.

(** [offer_accept_conversation] where an Offer is parked on lane 0 and an
    Accept is submitted on lane 1. *)
Lemma offer_accept_conversation_witness :
  exists c K' this' un',
    submit 0%nat 1 (Accept 2 7%nat) k_offer_parked
    = Ok (mkLaneDescriptor (LaneHandle_adopt c 1), K') /\
    heap K' !! 0%nat = Some (Some this') /\
    pending_handles (stream_with [Offer 1] [1%nat])
    = (Offer 1, LaneHandle_adopt c (1 - 1)) :: pending_handles this' /\
    events K' = events k_offer_parked ++
      [mkAsyncEvent kEventOffer 1 kErrSuccess None None;
       mkAsyncEvent kEventAccept 2 kErrSuccess (Some 1) None] /\
    universes K' !! 7%nat = Some un' /\
    _descriptorMap un' !! 1
    = Some (AnyLaneDescriptor (mkLaneDescriptor (LaneHandle_adopt c 1))) /\
    ((1 = 0 /\ 1 - 1 = 1) \/ (1 = 1 /\ 1 - 1 = 0)).
Proof.
  destruct (offer_accept_conversation k_offer_parked 0%nat
              (stream_with [Offer 1] [1%nat]) kernel_inv_k_offer_parked eq_refl)
    as [H _].
  exact (H 1 (Accept 2 7%nat) (Offer 1) [] 1 2 7%nat universe_empty
           eq_refl eq_refl eq_refl (or_intror (conj eq_refl eq_refl))
           eq_refl eq_refl).
Defined.

(** [fifo_per_lane] on two sends on lane 0 followed by two receives on
    lane 1. *)
Lemma fifo_per_lane_witness :
  match run two_sends_two_recvs k_fresh with
  | Ok (steps, K') =>
      exists this',
        heap K' !! 0%nat = Some (Some this') /\
        forall lane, is_lane lane = true ->
          idx lane (_processQueue (stream_with [] [])) ++ enqueued 0%nat lane steps
          = dequeued 0%nat lane steps ++ idx lane (_processQueue this')
  | Abort _ => False
  end.
Proof.
  destruct (fifo_per_lane k_fresh 0%nat (stream_with [] [])
              kernel_inv_k_fresh eq_refl) as (_ & _ & H).
  specialize (H two_sends_two_recvs).
  destruct (run two_sends_two_recvs k_fresh) as [[steps K']|] eqn:E.
  - apply H. reflexivity.
  - vm_compute in E. discriminate E.
Defined.

(** [handshake_parks_with_conversation] where an Offer is submitted on
    lane 0 of a stream with nothing parked. *)
Lemma handshake_parks_with_conversation_witness :
  exists K',
    submit 0%nat 0 (Offer 1) k_fresh
    = Ok (mkLaneDescriptor (LaneHandle_adopt 1%nat 0), K') /\
    heap K' !! 1%nat = Some (Some (mkStream 3 (2, 2) (false, false) ([], []) [])).
Proof.
  destruct handshake_parks_with_conversation as [H _].
  destruct (H k_fresh 0%nat (stream_with [] []) 0 (Offer 1)
              eq_refl eq_refl eq_refl eq_refl eq_refl eq_refl)
    as (K' & this' & H1 & _ & H2 & _).
  exists K'. split; [exact H1|exact H2].
Defined.

Lemma universe_wf_empty : universe_wf universe_empty.
Proof. intros h [x Hx]. simpl in Hx. by rewrite lookup_empty in Hx. Qed.

(** [pull_after_push_traps] on a top-level stream: a pull submitted on
    lane 1 where a push of a memory descriptor is parked on lane 0, and
    the push submitted on lane 1 where a pull is parked on lane 0. *)
Lemma pull_after_push_traps_witness :
  submit 0%nat 1 (PullDescriptor 2 7%nat) k_push_parked = Abort mismatch
  /\ exists K' un',
       submit 0%nat 1 (PushDescriptor 2 memory5) k_pull_parked
       = Ok (LaneDescriptor_empty, K') /\
       events K' = events k_pull_parked ++
         [mkAsyncEvent kEventSendDescriptor 2 kErrSuccess None None;
          mkAsyncEvent kEventRecvDescriptor 1 kErrSuccess (Some 1) None] /\
       _descriptorMap universe_empty !! 1 = None /\
       universes K' !! 7%nat = Some un' /\
       _descriptorMap un' !! 1 = Some memory5.
Proof.
  split.
  - destruct (pull_after_push_traps k_push_parked 0%nat
                (stream_with [PushDescriptor 1 memory5] []) 1 [] 1 memory5
                eq_refl eq_refl eq_refl) as [H _].
    exact (H 2 7%nat eq_refl).
  - destruct (pull_after_push_traps k_pull_parked 0%nat
                (stream_with [PullDescriptor 1 7%nat] []) 1 [] 2 memory5
                eq_refl eq_refl eq_refl) as [_ H].
    exact (H 1 7%nat universe_empty eq_refl I eq_refl eq_refl universe_wf_empty).
Defined.

(** [remotely_broken_lane_asserts] after the only handle of lane 1 was
    dropped: a receive submitted on lane 0. *)
Lemma remotely_broken_lane_asserts_witness :
  submit 0%nat 0 recv16 k_lane1_closed
  = Abort (AssertionFailed "Handle remotely broken lanes").
Proof.
  exact (remotely_broken_lane_asserts k_lane1_closed 0%nat
           (mkStream 1 (1, 0) (false, true) ([], []) []) 0 recv16
           eq_refl eq_refl eq_refl eq_refl eq_refl).
Defined.

(** [undersized_recv_asserts] where "hello" is parked on lane 0 and a
    buffer of 3 bytes is submitted on lane 1. *)
Lemma undersized_recv_asserts_witness :
  submit 0%nat 1 recv3 k_send_parked
  = Abort (AssertionFailed "from->buffer.size() <= to->accessor.length()").
Proof.
  apply (undersized_recv_asserts k_send_parked 0%nat
           (stream_with [SendFromBuffer 1 hello] []) 1 recv3
           (SendFromBuffer 1 hello) [] 1 hello 2 (mkAccessor 100 3)
           eq_refl eq_refl eq_refl eq_refl (or_intror (conj eq_refl eq_refl))).
  simpl. lia.
Defined.

(** C7 as stated fails where "hello" is parked on lane 0 and a buffer of 3
    bytes is submitted on lane 1: [submit] does not return, so the receiver
    gets no [kErrBufferTooSmall] completion and the sender no
    [kErrSuccess]. *)
Lemma undersized_recv_counterexample :
  ~ exists d K',
      submit 0%nat 1 recv3 k_send_parked = Ok (d, K') /\
      exists e, e ∈ events K' /\ ev_submitInfo e = 2 /\
        ev_error e = kErrBufferTooSmall.
Proof. intros (d & K' & H & _). vm_compute in H. discriminate H. Qed.

(** [last_handle_breaks_lane_only] where a receive is parked on lane 0 and
    the only handle of lane 1 is dropped. *)
Lemma last_handle_breaks_lane_only_witness :
  exists K',
    LaneHandle_drop (LaneHandle_adopt 0%nat 1) k_recv_parked = Ok (tt, K') /\
    events K' = events k_recv_parked /\
    exists st',
      heap K' !! 0%nat = Some (Some st') /\
      idx 1 (_laneBroken st') = true /\
      _processQueue st' = ([recv16], []).
Proof.
  destruct last_handle_breaks_lane_only as [H _].
  destruct (H k_recv_parked 0%nat (stream_with [recv16] []) 1
              eq_refl eq_refl eq_refl eq_refl)
    as (K' & H1 & H2 & _ & H3).
  destruct H3 as (st' & H4 & H5 & _ & _ & _ & H6 & _); [discriminate|].
  exists K'. split; [exact H1|]. split; [exact H2|].
  exists st'. split; [exact H4|]. split; [exact H5|exact H6].
Defined.

(** C8 as stated fails where a receive is parked on lane 0: after the only
    handle of lane 1 is dropped the receive is still parked and has not
    been completed with [kErrClosedRemotely]; after the only handle of
    lane 0 is dropped instead it is still parked and has not been
    completed with [kErrClosedLocally]. *)
Lemma parked_item_survives_close :
  (let K' := after (LaneHandle_drop (LaneHandle_adopt 0%nat 1)) k_recv_parked in
   returned (LaneHandle_drop (LaneHandle_adopt 0%nat 1)) k_recv_parked = Some tt /\
   events K' = [] /\
   heap K' = [Some (mkStream 1 (1, 0) (false, true) ([recv16], []) [])])
  /\ (let K' := after (LaneHandle_drop (LaneHandle_adopt 0%nat 0)) k_recv_parked in
      returned (LaneHandle_drop (LaneHandle_adopt 0%nat 0)) k_recv_parked = Some tt /\
      events K' = [] /\
      heap K' = [Some (mkStream 1 (0, 1) (true, false) ([recv16], []) [])]).
Proof. split; split_and!; reflexivity. Qed.

(** [dispatch_table] at a PullDescriptor against a parked PushDescriptor. *)
Lemma dispatch_table_witness :
  submit_matched 1 0 (PullDescriptor 2 7%nat) (PushDescriptor 1 memory5) None k_fresh
  = Abort mismatch.
Proof.
  apply (dispatch_table 1 0 (PullDescriptor 2 7%nat) (PushDescriptor 1 memory5)
           None k_fresh).
  right. split; reflexivity.
Defined.

(** [completions_carry_success_only] where "hello" is parked on lane 0 and
    a buffer of 16 bytes is submitted on lane 1, and where a buffer is
    submitted on the broken lane 1. *)
Lemma completions_carry_success_only_witness :
  (exists new,
     events (after (submit 0%nat 1 recv16) k_send_parked)
     = events k_send_parked ++ new /\
     Forall (fun e => ev_error e = kErrSuccess) new)
  /\ submit 0%nat 1 recv16 k_lane1_closed = Abort (AssertionFailed "!_laneBroken[p]").
Proof.
  destruct completions_carry_success_only as (H1 & H2 & _).
  split.
  - unfold after.
    destruct (submit 0%nat 1 recv16 k_send_parked) as [[d K']|] eqn:E.
    + exact (H1 _ _ _ _ _ _ E).
    + vm_compute in E. discriminate E.
  - exact (H2 k_lane1_closed 0%nat (mkStream 1 (1, 0) (false, true) ([], []) [])
             1 recv16 eq_refl eq_refl eq_refl).
Defined.

(** * Further properties of the stream code *)

(** ** Lane numbers *)

Lemma wrap_int_small z : - 2 ^ 31 <= z < 2 ^ 31 -> wrap_int z = z.
Proof. intros Hz. unfold wrap_int. rewrite Z.mod_small; lia. Qed.

(** X1: the test [!(p & ~int(1))] at the entry of [Stream::submit] accepts the
    lane numbers 0 and 1 and no other, negative ones included; a submit
    with any other lane number stops in that assertion whatever the
    stream pointer, the item and the state of the kernel are. *)
Theorem submit_rejects_other_lanes p :
  (is_lane p = true <-> p = 0 \/ p = 1) /\
  (p <> 0 -> p <> 1 ->
   forall self u K, submit self p u K = Abort (AssertionFailed "!(p & ~int(1))")).
Proof.
  split; [apply is_lane_spec|].
  intros H0 H1 self u K. apply submit_not_lane.
  destruct (is_lane p) eqn:E; [|done]. apply is_lane_spec in E. lia.
Qed.

(** [submit_rejects_other_lanes] at the lane number 2, and at -1. *)
Lemma submit_rejects_other_lanes_witness :
  submit 0%nat 2 recv16 k_fresh = Abort (AssertionFailed "!(p & ~int(1))") /\
  submit 0%nat (-1) recv16 k_fresh = Abort (AssertionFailed "!(p & ~int(1))").
Proof.
  split.
  - apply (proj2 (submit_rejects_other_lanes 2)); lia.
  - apply (proj2 (submit_rejects_other_lanes (-1))); lia.
Defined.

(** ** Copies and drops of lane handles *)

Lemma idx_same {A} lane (x : A) : idx lane (x, x) = x.
Proof. unfold idx. by destruct (lane =? 0). Qed.

Lemma set_peerCount_twice lane n m st :
  set_peerCount lane n (set_peerCount lane m st) = set_peerCount lane n st.
Proof. unfold set_peerCount, upd. simpl. by destruct (lane =? 0). Qed.

Lemma set_peerCount_same lane st :
  set_peerCount lane (idx lane (_peerCount st)) st = st.
Proof.
  destruct st as [? [? ?] ? ? ?]. unfold set_peerCount, upd, idx. simpl.
  by destruct (lane =? 0).
Qed.

Lemma write_stream_same s st K :
  heap K !! s = Some (Some st) -> write_stream s st K = K.
Proof.
  intros Hs. destruct K. unfold write_stream, set_heap. simpl in *.
  by rewrite list_insert_id.
Qed.

Lemma lookup_write_eq s st st' K :
  heap K !! s = Some (Some st) ->
  heap (write_stream s st' K) !! s = Some (Some st').
Proof. intros Hs. rewrite (lookup_write_live _ _ _ _ _ Hs). by rewrite decide_True. Qed.

(** X2: a lane handle that is copied and whose copy is destroyed: the peer
    count of the lane goes up by one and down again, no lane is broken, no
    reference of the stream is given up, and the kernel is as it was. *)
Theorem copy_then_drop_restores K s lane st :
  is_lane lane = true ->
  heap K !! s = Some (Some st) ->
  0 < idx lane (_peerCount st) < 2 ^ 31 - 1 ->
  copy_then_drop (LaneHandle_adopt s lane) K = Ok (tt, K).
Proof.
  intros Hl Hs Hc. unfold copy_then_drop, LaneHandle_copy.
  rewrite (bind_eq _ _ _ _ _
             (bind_eq _ _ _ _ _ (incrementPeers_eq _ _ _ _ Hl Hs ltac:(lia)))).
  unfold ret.
  set (st1 := set_peerCount lane _ st).
  assert (Hc1 : idx lane (_peerCount st1) = idx lane (_peerCount st) + 1).
  { unfold st1. simpl. rewrite idx_upd_eq. apply wrap_int_small. lia. }
  rewrite (LaneHandle_drop_more _ _ _ st1 Hl (lookup_write_eq _ _ _ _ Hs))
    by (rewrite Hc1; lia).
  rewrite write_stream_twice, Hc1. unfold st1. rewrite set_peerCount_twice.
  replace (idx lane (_peerCount st) + 1 - 1) with (idx lane (_peerCount st)) by lia.
  rewrite wrap_int_small by lia.
  by rewrite set_peerCount_same, write_stream_same.
Qed.

(** [copy_then_drop_restores] on the handle of lane 1 of a top-level
    stream. *)
Lemma copy_then_drop_restores_witness :
  copy_then_drop (LaneHandle_adopt 0%nat 1) k_fresh = Ok (tt, k_fresh).
Proof.
  apply (copy_then_drop_restores k_fresh 0%nat 1 (stream_with [] []));
    [reflexivity|reflexivity|vm_compute; split; reflexivity].
Defined.

(** X3: a lane handle that is destroyed while other handles of its lane
    remain: the peer count of the lane goes down by one and nothing else
    changes; the lane stays open, the stream keeps its references and its
    parked items, and nothing is completed. *)
Theorem drop_before_last_keeps_lane_open K s lane st :
  is_lane lane = true ->
  heap K !! s = Some (Some st) ->
  1 < idx lane (_peerCount st) < 2 ^ 31 ->
  exists K' st',
    LaneHandle_drop (LaneHandle_adopt s lane) K = Ok (tt, K') /\
    heap K' = <[s := Some st']> (heap K) /\
    idx lane (_peerCount st') = idx lane (_peerCount st) - 1 /\
    idx (1 - lane) (_peerCount st') = idx (1 - lane) (_peerCount st) /\
    _laneBroken st' = _laneBroken st /\
    counter st' = counter st /\
    _processQueue st' = _processQueue st /\
    _conversationQueue st' = _conversationQueue st /\
    events K' = events K /\ universes K' = universes K /\ memory K' = memory K.
Proof.
  intros Hl Hs Hc. eexists _, _.
  split; [apply (LaneHandle_drop_more _ _ _ _ Hl Hs); lia|].
  split; [reflexivity|]. simpl. split_and!; try done.
  - rewrite idx_upd_eq. apply wrap_int_small. lia.
  - by apply idx_upd_opposite'.
Qed.

(** [drop_before_last_keeps_lane_open] on lane 0 of a conversation that an
    Offer has just created. *)
Lemma drop_before_last_keeps_lane_open_witness :
  exists K' st',
    LaneHandle_drop (LaneHandle_adopt 1%nat 0) k_offer_parked = Ok (tt, K') /\
    heap K' !! 1%nat = Some (Some st') /\
    _peerCount st' = (1, 2) /\ _laneBroken st' = (false, false) /\ counter st' = 3.
Proof.
  destruct (drop_before_last_keeps_lane_open k_offer_parked 1%nat 0
              (mkStream 3 (2, 2) (false, false) ([], []) [])
              eq_refl eq_refl ltac:(vm_compute; split; reflexivity))
    as (K' & st' & H1 & H2 & H3 & H4 & H5 & H6 & _).
  exists K', st'. split; [exact H1|]. rewrite H2.
  split; [reflexivity|]. destruct st' as [? [? ?] ? ? ?]. simpl in *.
  change (idx 0 (z, z0)) with z in H3. change (idx (1 - 0) (z, z0)) with z0 in H4.
  change (idx 0 (2, 2)) with 2 in H3. change (idx (1 - 0) (2, 2)) with 2 in H4.
  split; [by rewrite H3, H4|]. by split.
Defined.

(** X4: the last handle of a lane is destroyed, the stream surviving with
    another reference, and the handle is used again: a second destruction
    stops in the assertion that the lane is not yet broken, and a copy
    stops in the assertion that the peer count was not zero. *)
Theorem closed_lane_use_asserts K s lane st :
  is_lane lane = true ->
  heap K !! s = Some (Some st) ->
  idx lane (_peerCount st) = 1 ->
  idx lane (_laneBroken st) = false ->
  counter st <> 1 ->
  drop_twice (LaneHandle_adopt s lane) K
  = Abort (AssertionFailed "!stream->_laneBroken[lane]") /\
  copy_after_drop (LaneHandle_adopt s lane) K = Abort (AssertionFailed "count").
Proof.
  intros Hl Hs Hc Hb Hcnt.
  pose proof (LaneHandle_drop_last _ _ _ _ Hl Hs ltac:(lia) Hb) as Hdrop.
  apply Z.eqb_neq in Hcnt. rewrite Hcnt in Hdrop.
  set (st1 := lane_closed lane st) in *.
  pose proof (lookup_write_eq _ _ st1 _ Hs) as Hs1.
  assert (Hc1 : idx lane (_peerCount st1) = 0).
  { unfold st1. simpl. rewrite idx_upd_eq, Hc. reflexivity. }
  assert (Hb1 : idx lane (_laneBroken st1) = true).
  { unfold st1. simpl. by rewrite idx_upd_eq. }
  split.
  - unfold drop_twice. rewrite (bind_eq _ _ _ _ _ Hdrop).
    unfold LaneHandle_drop. apply bind_Abort.
    apply (decrementPeers_broken _ _ _ st1); try done. lia.
  - unfold copy_after_drop. rewrite (bind_eq _ _ _ _ _ Hdrop).
    unfold LaneHandle_copy. apply bind_Abort. unfold incrementPeers.
    rewrite (bind_eq _ _ _ _ _ (in_bounds_eq _ _ Hl)).
    rewrite (bind_eq _ _ _ _ _ (deref_eq _ _ _ Hs1)). cbv zeta.
    rewrite (bind_eq _ _ _ _ _ (store_eq _ _ _ _ Hs1)).
    by rewrite Hc1.
Qed.

(** [closed_lane_use_asserts] on lane 1 of a top-level stream. *)
Lemma closed_lane_use_asserts_witness :
  drop_twice (LaneHandle_adopt 0%nat 1) k_fresh
  = Abort (AssertionFailed "!stream->_laneBroken[lane]") /\
  copy_after_drop (LaneHandle_adopt 0%nat 1) k_fresh = Abort (AssertionFailed "count").
Proof.
  apply (closed_lane_use_asserts k_fresh 0%nat 1 (stream_with [] []));
    [reflexivity|reflexivity|reflexivity|reflexivity|discriminate].
Defined.

(** ** What a submit leaves alone *)

Lemma evolves_length c H H' : evolves c H H' -> length H = length H'.
Proof.
  intros He. apply Nat.le_antisymm.
  - apply Nat.nlt_ge. intros Hlt. specialize (He (length H')).
    rewrite (proj2 (lookup_ge_None H' (length H'))) in He by lia.
    destruct (lookup_lt_is_Some_2 H (length H') Hlt) as [[st|] Hx];
      by rewrite Hx in He.
  - apply Nat.nlt_ge. intros Hlt. specialize (He (length H)).
    rewrite (proj2 (lookup_ge_None H (length H))) in He by lia.
    destruct (lookup_lt_is_Some_2 H' (length H) Hlt) as [[st|] Hx];
      by rewrite Hx in He.
Qed.

Lemma submit_matched_evolves p q u v conversation K d K' :
  submit_matched p q u v conversation K = Ok (d, K') ->
  evolves conversation (heap K) (heap K').
Proof.
  intros H.
  apply (keeps_evolved_submit_matched (heap K) p q u v conversation K d K');
    [apply evolves_refl|exact H].
Qed.

(** X5: a [submit] that returns destroys no stream, breaks no lane and gives
    up no reference, of the stream it is called on or of any other, with
    one exception: the conversation that it takes from the queue of
    conversations when it pairs an Offer with an Accept. *)
Theorem submit_keeps_streams_open K self this p u d K' :
  kernel_inv K ->
  heap K !! self = Some (Some this) ->
  submit self p u K = Ok (d, K') ->
  forall s st,
    heap K !! s = Some (Some st) ->
    taken_conversation p this <> Some s ->
    exists st',
      heap K' !! s = Some (Some st') /\
      counter st' = counter st /\ _laneBroken st' = _laneBroken st.
Proof.
  intros Hinv Hs H s st Hst Htaken.
  destruct (submit_Ok_entry _ _ _ _ _ _ H) as (Hp & this0 & Hs0 & Hb).
  rewrite Hs in Hs0. injection Hs0 as <-.
  pose proof (lookup_lt_Some _ _ _ Hs) as Hlt.
  destruct (idx (1 - p) (_processQueue this)) as [|v rest] eqn:Hq.
  - destruct (idx (1 - p) (_laneBroken this)) eqn:Hbq;
      [by rewrite (submit_remotely_broken _ _ _ _ _ Hp Hs Hb Hq Hbq) in H|].
    destruct (handshake u) eqn:Hu.
    + rewrite (submit_park_handshake _ _ _ _ _ Hp Hs Hb Hq Hbq Hu) in H.
      injection H as <- <-. simpl.
      rewrite lookup_app_l
        by (rewrite length_insert; by eapply lookup_lt_Some).
      destruct (decide (s = self)) as [->|Hne].
      * rewrite list_lookup_insert_eq by done.
        rewrite Hs in Hst. injection Hst as <-. by eexists.
      * rewrite list_lookup_insert_ne by done. by exists st.
    + rewrite (submit_park_plain _ _ _ _ _ Hp Hs Hb Hq Hbq Hu) in H.
      injection H as <- <-. rewrite (lookup_write_live _ _ _ _ _ Hs).
      destruct (decide (s = self)) as [->|Hne]; [|by exists st].
      rewrite Hs in Hst. injection Hst as <-. by eexists.
  - destruct (submit_pair K self this p u v rest Hinv Hp Hs Hb Hq)
      as (conversation & this2 & Heq & _ & _ & [Hcnt Hbr] & Hcq & Hnone & _).
    rewrite Heq in H. apply submit_matched_evolves in H.
    assert (Hc : Some s <> conversation).
    { unfold taken_conversation in Htaken. rewrite Hq in Htaken.
      destruct conversation as [c|]; [|done]. rewrite Hcq in Htaken.
      destruct (handshake v); [simpl in Htaken; congruence|].
      by destruct (proj2 Hnone eq_refl). }
    specialize (H s). rewrite (lookup_write_live _ _ _ _ _ Hs) in H.
    destruct (decide (s = self)) as [->|Hne].
    + rewrite Hs in Hst. injection Hst as <-.
      destruct (heap K' !! self) as [[st'|]|]; [|congruence|done].
      destruct H as [_ Hctl]. destruct (Hctl Hc) as [? ?].
      exists st'. split; [done|]. split; congruence.
    + rewrite Hst in H.
      destruct (heap K' !! s) as [[st'|]|]; [|congruence|done].
      destruct H as [_ Hctl]. destruct (Hctl Hc) as [? ?]. by exists st'.
Qed.

(** [submit_keeps_streams_open] where an Accept is paired with a parked
    Offer: the stream that carries the pair keeps its two references and
    its open lanes. *)
Lemma submit_keeps_streams_open_witness :
  exists st',
    heap (after (submit 0%nat 1 (Accept 2 7%nat)) k_offer_parked) !! 0%nat
    = Some (Some st') /\
    counter st' = 2 /\ _laneBroken st' = (false, false).
Proof.
  apply (submit_keeps_streams_open k_offer_parked 0%nat
           (stream_with [Offer 1] [1%nat]) 1 (Accept 2 7%nat)
           (mkLaneDescriptor (LaneHandle_adopt 1%nat 1))
           (after (submit 0%nat 1 (Accept 2 7%nat)) k_offer_parked)
           kernel_inv_k_offer_parked eq_refl eq_refl 0%nat
           (stream_with [Offer 1] [1%nat]) eq_refl).
  vm_compute. discriminate.
Defined.

(** X6: a [submit] that returns creates a stream in exactly one case, when it
    parks an Offer or an Accept; a submit that parks another item, and a
    submit that pairs its item, leave the number of stream objects as it
    was. *)
Theorem submit_allocates_for_parked_handshake K self this p u d K' :
  heap K !! self = Some (Some this) ->
  submit self p u K = Ok (d, K') ->
  length (heap K')
  = (length (heap K) + if parks_handshake p u this then 1 else 0)%nat.
Proof.
  intros Hs H.
  destruct (submit_Ok_entry _ _ _ _ _ _ H) as (Hp & this0 & Hs0 & Hb).
  rewrite Hs in Hs0. injection Hs0 as <-.
  unfold parks_handshake.
  destruct (idx (1 - p) (_processQueue this)) as [|v rest] eqn:Hq.
  - destruct (idx (1 - p) (_laneBroken this)) eqn:Hbq;
      [by rewrite (submit_remotely_broken _ _ _ _ _ Hp Hs Hb Hq Hbq) in H|].
    destruct (handshake u) eqn:Hu.
    + rewrite (submit_park_handshake _ _ _ _ _ Hp Hs Hb Hq Hbq Hu) in H.
      injection H as <- <-. simpl. by rewrite length_app, length_insert.
    + rewrite (submit_park_plain _ _ _ _ _ Hp Hs Hb Hq Hbq Hu) in H.
      injection H as <- <-. simpl. rewrite length_insert. lia.
  - rewrite (submit_pop _ _ _ _ _ _ _ Hp Hs Hb Hq) in H.
    apply bind_Ok in H as (conversation & K2 & Hpop & H).
    apply submit_matched_evolves, evolves_length in H. rewrite <- H.
    assert (length (heap K2) = length (heap K)) as ->; [|lia].
    destruct (OfferBase_classOf v || AcceptBase_classOf v).
    + apply conversation_removeFront_Ok in Hpop as (? & ? & ? & _ & _ & _ & ->).
      simpl. by rewrite !length_insert.
    + injection Hpop as _ <-. simpl. by rewrite length_insert.
Qed.

(** [submit_allocates_for_parked_handshake] where an Offer is parked on a
    top-level stream, and where an Accept is then paired with it. *)
Lemma submit_allocates_for_parked_handshake_witness :
  length (heap (after (submit 0%nat 0 (Offer 1)) k_fresh)) = 2%nat /\
  length (heap (after (submit 0%nat 1 (Accept 2 7%nat)) k_offer_parked)) = 2%nat.
Proof.
  split.
  - apply (submit_allocates_for_parked_handshake k_fresh 0%nat (stream_with [] [])
             0 (Offer 1) (mkLaneDescriptor (LaneHandle_adopt 1%nat 0))
             (after (submit 0%nat 0 (Offer 1)) k_fresh) eq_refl eq_refl).
  - apply (submit_allocates_for_parked_handshake k_offer_parked 0%nat
             (stream_with [Offer 1] [1%nat]) 1 (Accept 2 7%nat)
             (mkLaneDescriptor (LaneHandle_adopt 1%nat 1))
             (after (submit 0%nat 1 (Accept 2 7%nat)) k_offer_parked)
             eq_refl eq_refl).
Defined.

(** ** Sequences of submits *)

Lemma kernel_inv_idle K : idle K -> kernel_inv K.
Proof.
  intros Hidle. split.
  - intros s st Hs. destruct (Hidle s st Hs) as [-> _]. by left.
  - intros s st Hs. destruct (Hidle s st Hs) as [Hq ->]. unfold parked.
    by rewrite Hq.
  - intros s st c Hs Hc. destruct (Hidle s st Hs) as [_ Hcq].
    rewrite Hcq in Hc. by apply elem_of_nil in Hc.
  - intros s1 st1 i s2 st2 j c Hs1 _ Hi _. destruct (Hidle s1 st1 Hs1) as [_ Hcq].
    by rewrite Hcq in Hi.
Qed.

Lemma kernel_inv_run inputs : forall K steps K',
  kernel_inv K -> run inputs K = Ok (steps, K') -> kernel_inv K'.
Proof.
  induction inputs as [|[[s p] u] inputs IH]; intros K steps K' Hinv H.
  - by injection H as <- <-.
  - simpl in H.
    apply bind_Ok in H as (step & ? & [-> _]%observe_Ok & H).
    apply bind_Ok in H as (d & K1 & Hsub & H).
    apply bind_Ok in H as (steps' & K2 & Hrun & [= <- <-]).
    eapply IH; [|exact Hrun]. by eapply kernel_inv_submit.
Qed.

(** X7: starting with nothing parked, after any sequence of submits on any
    streams that all return: no stream has items parked on both of its
    lanes; a stream has as many pending conversations as it has parked
    Offers and Accepts; its pending conversations are distinct, and each
    of them is a live stream, other than the stream itself, with its
    three references and no broken lane. *)
Theorem run_keeps_queues_one_sided K inputs steps K' :
  idle K ->
  run inputs K = Ok (steps, K') ->
  forall s st,
    heap K' !! s = Some (Some st) ->
    (idx 0 (_processQueue st) = [] \/ idx 1 (_processQueue st) = []) /\
    length (_conversationQueue st)
    = length (handshakes (idx 0 (_processQueue st) ++ idx 1 (_processQueue st))) /\
    NoDup (_conversationQueue st) /\
    forall c, c ∈ _conversationQueue st ->
      c <> s /\
      exists child, heap K' !! c = Some (Some child) /\
        counter child = 3 /\ _laneBroken child = (false, false).
Proof.
  intros Hidle Hrun s st Hs.
  pose proof (kernel_inv_run _ _ _ _ (kernel_inv_idle _ Hidle) Hrun) as Hinv.
  split_and!.
  - apply (inv_one_side K' Hinv s st Hs).
  - apply (inv_aligned K' Hinv s st Hs).
  - apply NoDup_alt. intros i j c Hi Hj.
    by destruct (inv_unique K' Hinv s st i s st j c Hs Hs Hi Hj).
  - intros c Hc. apply (inv_child K' Hinv s st c Hs Hc).
Qed.

Lemma idle_k_fresh : idle k_fresh.
Proof.
  intros s st Hs. destruct s as [|s]; [|done]. by injection Hs as <-.
Qed.

(** [run_keeps_queues_one_sided] after an Offer and a send are parked on
    lane 0 of a top-level stream. *)
Lemma run_keeps_queues_one_sided_witness :
  exists st,
    heap (after (run [(0%nat, 0, Offer 1); (0%nat, 0, SendFromBuffer 2 hello)])
            k_fresh) !! 0%nat = Some (Some st) /\
    _processQueue st = ([Offer 1; SendFromBuffer 2 hello], []) /\
    (idx 0 (_processQueue st) = [] \/ idx 1 (_processQueue st) = []) /\
    length (_conversationQueue st)
    = length (handshakes (idx 0 (_processQueue st) ++ idx 1 (_processQueue st))).
Proof.
  eexists. split; [reflexivity|]. split; [reflexivity|].
  destruct (run_keeps_queues_one_sided k_fresh
              [(0%nat, 0, Offer 1); (0%nat, 0, SendFromBuffer 2 hello)]
              _ _ idle_k_fresh eq_refl 0%nat _ eq_refl) as (H1 & H2 & _).
  split; [exact H1|exact H2].
Defined.

(** X8: over any sequence of submits that all return, the completions that
    fire are those of the items that were paired, two for each pairing
    submit: an item that is still parked has not been completed, and no
    item is completed twice. *)
Theorem run_completes_paired_items inputs : forall K steps K',
  kernel_inv K ->
  run inputs K = Ok (steps, K') ->
  exists new,
    events K' = events K ++ new /\
    map ev_submitInfo new ≡ₚ completed steps.
Proof.
  induction inputs as [|[[s p] u] inputs IH]; intros K steps K' Hinv H.
  - injection H as <- <-. exists []. by rewrite app_nil_r.
  - simpl in H.
    apply bind_Ok in H as (step & ? & [-> (st & Hst & Hstep)]%observe_Ok & H).
    apply bind_Ok in H as (d & K1 & Hsub & H).
    apply bind_Ok in H as (steps' & K2 & Hrun & [= <- <-]).
    pose proof (kernel_inv_submit _ _ _ _ _ _ Hinv Hsub) as Hinv1.
    destruct (IH _ _ _ Hinv1 Hrun) as (new & Hev & Hperm).
    destruct (idx (1 - p) (_processQueue st)) as [|v rest] eqn:Hq; subst step.
    + destruct (submit_parks_back _ _ _ _ _ _ _ Hst Hq Hsub) as (_ & _ & _ & _ & He).
      exists new. rewrite Hev, He. by split.
    + destruct (submit_pairs_head _ _ _ _ _ _ _ _ _ Hinv Hst Hq Hsub)
        as (_ & e1 & e2 & _ & _ & _ & He & Hinfo).
      exists (e1 :: e2 :: new). rewrite Hev, He, <- app_assoc. split; [done|].
      simpl. destruct Hinfo as [[-> ->]|[-> ->]].
      * by rewrite Hperm.
      * rewrite Hperm. apply perm_swap.
Qed.

(** [run_completes_paired_items] on two sends followed by two receives. *)
Lemma run_completes_paired_items_witness :
  match run two_sends_two_recvs k_fresh with
  | Ok (steps, K') =>
      exists new,
        events K' = events k_fresh ++ new /\
        map ev_submitInfo new ≡ₚ completed steps
  | Abort _ => False
  end.
Proof.
  pose proof (run_completes_paired_items two_sends_two_recvs k_fresh) as H.
  destruct (run two_sends_two_recvs k_fresh) as [[steps K']|] eqn:E.
  - apply H; [apply kernel_inv_k_fresh|reflexivity].
  - vm_compute in E. discriminate E.
Defined.

(** ** The references of a conversation *)

Lemma finish_conversation_adopted K c lane child (result : LaneDescriptor) :
  is_lane lane = true ->
  heap K !! c = Some (Some child) ->
  counter child = 3 ->
  _peerCount child = (2, 2) ->
  (LaneHandle_drop (LaneHandle_adopt c lane) ;;;
   SharedPtr_release (Some c) ;;;
   ret result) K
  = Ok (result, write_stream c (set_counter 2 (set_peerCount lane 1 child)) K).
Proof.
  intros Hl Hc Hcnt Hpc.
  assert (Hidx : idx lane (_peerCount child) = 2).
  { rewrite Hpc. unfold idx. by destruct (lane =? 0). }
  rewrite (bind_eq _ _ _ _ _
             (LaneHandle_drop_more _ _ _ _ Hl Hc ltac:(rewrite Hidx; lia))).
  rewrite Hidx. change (wrap_int (2 - 1)) with 1.
  simpl. rewrite (bind_eq _ _ _ _ _
                    (control_decrement_eq _ _ _ (lookup_write_eq _ _ _ _ Hc))).
  simpl. rewrite Hcnt. simpl. by rewrite write_stream_twice.
Qed.

(** An Offer paired with an Accept: the state in which [submit] returns,
    given the state [child'] in which the destruction of the local handle
    of the Offer's lane and of the local pointer leave the conversation. *)
Lemma offer_accept_finish K self this p u v rest offer_info accept_info w un
    c crest child child' :
  is_lane p = true ->
  heap K !! self = Some (Some this) ->
  idx p (_laneBroken this) = false ->
  idx (1 - p) (_processQueue this) = v :: rest ->
  (u = Offer offer_info /\ v = Accept accept_info w) \/
  (u = Accept accept_info w /\ v = Offer offer_info) ->
  universes K !! w = Some un ->
  lock un = false ->
  _conversationQueue this = c :: crest ->
  c <> self ->
  heap K !! c = Some (Some child) ->
  let offer_lane := if OfferBase_classOf u then p else 1 - p in
  let accept_lane := if AcceptBase_classOf u then p else 1 - p in
  (forall K3 (result : LaneDescriptor),
     heap K3 !! c = Some (Some child) ->
     (LaneHandle_drop (LaneHandle_adopt c offer_lane) ;;;
      SharedPtr_release (Some c) ;;;
      ret result) K3
     = Ok (result, write_stream c child' K3)) ->
  submit self p u K
  = Ok (mkLaneDescriptor (LaneHandle_adopt c p),
        write_stream c child'
          (set_events
             (events K ++
                [mkAsyncEvent kEventOffer offer_info kErrSuccess None None;
                 mkAsyncEvent kEventAccept accept_info kErrSuccess
                   (Some (_nextHandle un)) None])
             (set_universes
                (<[w := attached
                          (AnyLaneDescriptor
                             (mkLaneDescriptor (LaneHandle_adopt c accept_lane))) un]>
                   (universes K))
                (write_stream self
                   (set_conversationQueue crest (set_processQueue (1 - p) rest this))
                   K)))).
Proof.
  intros Hp Hs Hb Hq Huv Hw Hl Hcq Hcs Hc offer_lane accept_lane Hfinish.
  assert (Hv : handshake v = true) by (by destruct Huv as [[-> ->]|[-> ->]]).
  set (this1 := set_processQueue (1 - p) rest this).
  set (K1 := write_stream self this1 K).
  set (this2 := set_conversationQueue crest this1).
  pose proof (lookup_write_eq _ _ this1 _ Hs) as Hs1. fold K1 in Hs1.
  assert (Hpop : (if OfferBase_classOf v || AcceptBase_classOf v
                  then conversation_removeFront self else ret None) K1
                 = Ok (Some c, write_stream self this2 K)).
  { fold (handshake v). rewrite Hv. unfold conversation_removeFront.
    rewrite (bind_eq _ _ _ _ _ (deref_eq _ _ _ Hs1)).
    change (_conversationQueue this1) with (_conversationQueue this). rewrite Hcq.
    rewrite (bind_eq _ _ _ _ _ (store_eq _ _ _ _ Hs1)).
    unfold K1. by rewrite write_stream_twice. }
  set (K2 := write_stream self this2 K) in *.
  assert (Hc2 : heap K2 !! c = Some (Some child)).
  { unfold K2. rewrite (lookup_write_live _ _ _ _ _ Hs). by rewrite decide_False. }
  rewrite (submit_pop _ _ _ _ _ _ _ Hp Hs Hb Hq).
  fold this1 K1. rewrite (bind_eq _ _ _ _ _ Hpop).
  assert (Hfin : forall lane_kept,
            (transfer_offer_accept (Offer offer_info) (Accept accept_info w)
               (mkLaneDescriptor (LaneHandle_adopt c lane_kept)) ;;;
             LaneHandle_drop (LaneHandle_adopt c offer_lane) ;;;
             SharedPtr_release (Some c) ;;;
             ret (mkLaneDescriptor (LaneHandle_adopt c p))) K2
            = Ok (mkLaneDescriptor (LaneHandle_adopt c p),
                  write_stream c child'
                    (set_events
                       (events K ++
                          [mkAsyncEvent kEventOffer offer_info kErrSuccess None None;
                           mkAsyncEvent kEventAccept accept_info kErrSuccess
                             (Some (_nextHandle un)) None])
                       (set_universes
                          (<[w := attached (AnyLaneDescriptor
                                   (mkLaneDescriptor (LaneHandle_adopt c lane_kept))) un]>
                             (universes K)) K2)))).
  { intros lane_kept.
    erewrite (bind_eq _ _ _ _ _ (transfer_offer_accept_eq _ _ _ _ K2 un Hw Hl)).
    by apply Hfinish. }
  unfold offer_lane, accept_lane in *.
  destruct Huv as [[-> ->]|[-> ->]]; unfold submit_matched;
    cbn [OfferBase_classOf AcceptBase_classOf andb adoptLane] in *; cbv zeta.
  - apply (Hfin (1 - p)).
  - apply (Hfin p).
Qed.

(** An Offer paired with an Accept when no handle of the conversation has
    been copied or dropped since it was created: the state in which
    [submit] returns. *)
Lemma offer_accept_child K self this p u v rest offer_info accept_info w un
    c crest child :
  is_lane p = true ->
  heap K !! self = Some (Some this) ->
  idx p (_laneBroken this) = false ->
  idx (1 - p) (_processQueue this) = v :: rest ->
  (u = Offer offer_info /\ v = Accept accept_info w) \/
  (u = Accept accept_info w /\ v = Offer offer_info) ->
  universes K !! w = Some un ->
  lock un = false ->
  _conversationQueue this = c :: crest ->
  c <> self ->
  heap K !! c = Some (Some child) ->
  counter child = 3 ->
  _peerCount child = (2, 2) ->
  let offer_lane := if OfferBase_classOf u then p else 1 - p in
  let accept_lane := if AcceptBase_classOf u then p else 1 - p in
  submit self p u K
  = Ok (mkLaneDescriptor (LaneHandle_adopt c p),
        write_stream c (set_counter 2 (set_peerCount offer_lane 1 child))
          (set_events
             (events K ++
                [mkAsyncEvent kEventOffer offer_info kErrSuccess None None;
                 mkAsyncEvent kEventAccept accept_info kErrSuccess
                   (Some (_nextHandle un)) None])
             (set_universes
                (<[w := attached
                          (AnyLaneDescriptor
                             (mkLaneDescriptor (LaneHandle_adopt c accept_lane))) un]>
                   (universes K))
                (write_stream self
                   (set_conversationQueue crest (set_processQueue (1 - p) rest this))
                   K)))).
Proof.
  intros Hp Hs Hb Hq Huv Hw Hl Hcq Hcs Hc Hcnt Hpc offer_lane accept_lane.
  apply (offer_accept_finish K self this p u v rest offer_info accept_info w un
           c crest child); try done.
  intros K3 result Hc3. apply finish_conversation_adopted; try done.
  unfold offer_lane. destruct (OfferBase_classOf u); [done|].
  by apply is_lane_opposite.
Qed.

(** X9: an Offer is paired with an Accept, whichever of the two was parked,
    and no handle of their conversation has been copied or dropped since
    the conversation was created.  When [submit] returns the conversation
    is alive with two references, one for each lane, and no broken lane;
    the peer count of the Offer's lane is 1, for the handle that the
    Offer's submit returned, and the peer count of the Accept's lane is 2,
    for the handle that the Accept's submit returned and the one attached
    to the Accept's universe.  What is parked on the conversation stays
    parked. *)
Theorem offer_accept_reference_counts K self this p u v rest
    offer_info accept_info w un c crest child :
  kernel_inv K ->
  is_lane p = true ->
  heap K !! self = Some (Some this) ->
  idx p (_laneBroken this) = false ->
  idx (1 - p) (_processQueue this) = v :: rest ->
  (u = Offer offer_info /\ v = Accept accept_info w) \/
  (u = Accept accept_info w /\ v = Offer offer_info) ->
  universes K !! w = Some un ->
  lock un = false ->
  _conversationQueue this = c :: crest ->
  heap K !! c = Some (Some child) ->
  _peerCount child = (2, 2) ->
  let offer_lane := if OfferBase_classOf u then p else 1 - p in
  let accept_lane := if AcceptBase_classOf u then p else 1 - p in
  exists K' child',
    submit self p u K = Ok (mkLaneDescriptor (LaneHandle_adopt c p), K') /\
    heap K' !! c = Some (Some child') /\
    counter child' = 2 /\
    idx offer_lane (_peerCount child') = 1 /\
    idx accept_lane (_peerCount child') = 2 /\
    _laneBroken child' = (false, false) /\
    _processQueue child' = _processQueue child /\
    _conversationQueue child' = _conversationQueue child.
Proof.
  intros Hinv Hp Hs Hb Hq Huv Hw Hl Hcq Hc Hpc offer_lane accept_lane.
  destruct (inv_child K Hinv self this c Hs) as (Hcs & child0 & Hc0 & Hcnt & Hbr).
  { rewrite Hcq. by left. }
  rewrite Hc in Hc0. injection Hc0 as <-.
  eexists _, _.
  split; [by eapply (offer_accept_child K self this p u v rest)|].
  split.
  { apply lookup_write_eq with (st := child).
    unfold set_events, set_universes. cbn [heap].
    rewrite (lookup_write_live _ _ _ _ _ Hs). by rewrite decide_False. }
  simpl. split; [done|]. rewrite Hpc.
  split_and!; try done; unfold accept_lane, offer_lane;
    apply is_lane_spec in Hp;
    destruct Huv as [[-> ->]|[-> ->]], Hp as [-> | ->]; reflexivity.
Qed.

(** [offer_accept_reference_counts] where an Accept on lane 1 is paired
    with an Offer parked on lane 0. *)
Lemma offer_accept_reference_counts_witness :
  exists K' child',
    submit 0%nat 1 (Accept 2 7%nat) k_offer_parked
    = Ok (mkLaneDescriptor (LaneHandle_adopt 1%nat 1), K') /\
    heap K' !! 1%nat = Some (Some child') /\
    counter child' = 2 /\
    idx 0 (_peerCount child') = 1 /\
    idx 1 (_peerCount child') = 2 /\
    _laneBroken child' = (false, false).
Proof.
  destruct (offer_accept_reference_counts k_offer_parked 0%nat
              (stream_with [Offer 1] [1%nat]) 1 (Accept 2 7%nat) (Offer 1) []
              1 2 7%nat universe_empty 1%nat []
              (mkStream 3 (2, 2) (false, false) ([], []) [])
              kernel_inv_k_offer_parked eq_refl eq_refl eq_refl eq_refl
              (or_intror (conj eq_refl eq_refl)) eq_refl eq_refl eq_refl eq_refl
              eq_refl)
    as (K' & child' & H1 & H2 & H3 & H4 & H5 & H6 & _).
  exists K', child'. split_and!; assumption.
Defined.

Lemma finish_conversation_closing K c lane child (result : LaneDescriptor) :
  is_lane lane = true ->
  heap K !! c = Some (Some child) ->
  counter child = 3 ->
  idx lane (_peerCount child) = 1 ->
  idx lane (_laneBroken child) = false ->
  (LaneHandle_drop (LaneHandle_adopt c lane) ;;;
   SharedPtr_release (Some c) ;;;
   ret result) K
  = Ok (result, write_stream c (set_counter 1 (lane_closed lane child)) K).
Proof.
  intros Hl Hc Hcnt Hpc Hb.
  rewrite (bind_eq _ _ _ _ _ (LaneHandle_drop_last _ _ _ _ Hl Hc ltac:(lia) Hb)).
  rewrite Hcnt. simpl.
  rewrite (bind_eq _ _ _ _ _
             (control_decrement_eq _ _ _ (lookup_write_eq _ _ _ _ Hc))).
  simpl. rewrite Hcnt. simpl. by rewrite write_stream_twice.
Qed.

(** X17: an Accept is paired with a parked Offer whose submitter has
    already destroyed the handle that it was returned, so that the peer
    count of the Offer's lane of the conversation is 1.  The pairing
    destroys the last handle of that lane: [submit] returns the Accept's
    side as usual, but leaves the conversation with the Offer's lane
    broken and a single reference; and when nothing is parked on the
    Offer's lane of the conversation, every item then submitted through
    the descriptor that was returned stops in the assertion on remotely
    broken lanes. *)
Theorem pairing_closes_abandoned_offer_lane K self this p rest
    offer_info accept_info w un c crest child :
  is_lane p = true ->
  heap K !! self = Some (Some this) ->
  idx p (_laneBroken this) = false ->
  idx (1 - p) (_processQueue this) = Offer offer_info :: rest ->
  universes K !! w = Some un ->
  lock un = false ->
  _conversationQueue this = c :: crest ->
  c <> self ->
  heap K !! c = Some (Some child) ->
  counter child = 3 ->
  _laneBroken child = (false, false) ->
  idx (1 - p) (_peerCount child) = 1 ->
  exists K' child',
    submit self p (Accept accept_info w) K
    = Ok (mkLaneDescriptor (LaneHandle_adopt c p), K') /\
    heap K' !! c = Some (Some child') /\
    counter child' = 1 /\
    idx (1 - p) (_laneBroken child') = true /\
    idx p (_laneBroken child') = false /\
    idx (1 - p) (_peerCount child') = 0 /\
    idx p (_peerCount child') = idx p (_peerCount child) /\
    _processQueue child' = _processQueue child /\
    (idx (1 - p) (_processQueue child) = [] ->
     forall item,
       LaneDescriptor_submit (mkLaneDescriptor (LaneHandle_adopt c p)) item K'
       = Abort (AssertionFailed "Handle remotely broken lanes")).
Proof.
  intros Hp Hs Hb Hq Hw Hl Hcq Hcs Hc Hcnt Hbr Hpc.
  pose proof (is_lane_opposite _ Hp) as Hp'.
  assert (Hbq : idx (1 - p) (_laneBroken child) = false)
    by (rewrite Hbr; apply idx_same).
  pose proof (offer_accept_finish K self this p (Accept accept_info w)
                (Offer offer_info) rest offer_info accept_info w un c crest child
                (set_counter 1 (lane_closed (1 - p) child))
                Hp Hs Hb Hq (or_intror (conj eq_refl eq_refl)) Hw Hl Hcq Hcs Hc)
    as Hsub.
  cbv zeta in Hsub. cbn [OfferBase_classOf AcceptBase_classOf] in Hsub.
  specialize (Hsub (fun K3 result Hc3 =>
                      finish_conversation_closing K3 c (1 - p) child result
                        Hp' Hc3 Hcnt Hpc Hbq)).
  set (child' := set_counter 1 (lane_closed (1 - p) child)) in *.
  set (K' := write_stream c child' _) in Hsub.
  assert (Hc' : heap K' !! c = Some (Some child')).
  { unfold K'. apply lookup_write_eq with (st := child).
    unfold set_events, set_universes. cbn [heap].
    rewrite (lookup_write_live _ _ _ _ _ Hs). by rewrite decide_False. }
  assert (Hbp : idx p (_laneBroken child') = false).
  { unfold child'. simpl. rewrite idx_upd_opposite by done. rewrite Hbr.
    apply idx_same. }
  assert (Hbq' : idx (1 - p) (_laneBroken child') = true).
  { unfold child'. simpl. by rewrite idx_upd_eq. }
  exists K', child'. split_and!; try done.
  - unfold child'. simpl. by rewrite idx_upd_eq, Hpc.
  - unfold child'. simpl. by rewrite idx_upd_opposite.
  - intros Hempty item. unfold LaneDescriptor_submit. simpl.
    by apply (submit_remotely_broken c p item K' child').
Qed.

(** [pairing_closes_abandoned_offer_lane] where an Offer is parked on
    lane 0, the handle that its submit returned is destroyed, and an
    Accept is submitted on lane 1. *)
Lemma pairing_closes_abandoned_offer_lane_witness :
  exists K' child',
    submit 0%nat 1 (Accept 2 7%nat) k_offer_abandoned
    = Ok (mkLaneDescriptor (LaneHandle_adopt 1%nat 1), K') /\
    heap K' !! 1%nat = Some (Some child') /\
    counter child' = 1 /\
    _laneBroken child' = (true, false) /\
    LaneDescriptor_submit (mkLaneDescriptor (LaneHandle_adopt 1%nat 1)) recv16 K'
    = Abort (AssertionFailed "Handle remotely broken lanes").
Proof.
  destruct (pairing_closes_abandoned_offer_lane k_offer_abandoned 0%nat
              (stream_with [Offer 1] [1%nat]) 1 [] 1 2 7%nat universe_empty 1%nat []
              (mkStream 3 (1, 2) (false, false) ([], []) [])
              eq_refl eq_refl eq_refl eq_refl eq_refl eq_refl eq_refl
              ltac:(lia) eq_refl eq_refl eq_refl eq_refl)
    as (K' & child' & H1 & H2 & H3 & H4 & H5 & _ & _ & _ & H6).
  exists K', child'. split; [exact H1|]. split; [exact H2|]. split; [exact H3|].
  split; [|exact (H6 eq_refl recv16)].
  destruct child' as [? ? [b0 b1] ? ?]. simpl in *.
  change (idx (1 - 1) (b0, b1)) with b0 in H4. change (idx 1 (b0, b1)) with b1 in H5.
  by rewrite H4, H5.
Defined.

(** ** A conversation in use *)

(** X10: an Offer is submitted on lane [p] of a stream with nothing parked and
    an Accept on the opposite lane; then a buffer is sent through the
    descriptor that the Offer's submit returned and received through the
    descriptor that the Accept's submit returned.  The four submits return,
    the two descriptors are the two lanes of one new stream, the four
    completions fire in this order, all with [kErrSuccess], and the
    receiver's buffer holds the sender's bytes: the pair of descriptors
    that a handshake hands out is a working channel. *)
Theorem conversation_carries_send_recv K self this p w un
    offer_info accept_info send_info buffer recv_info accessor :
  is_lane p = true ->
  heap K !! self = Some (Some this) ->
  _processQueue this = ([], []) ->
  _conversationQueue this = [] ->
  _laneBroken this = (false, false) ->
  universes K !! w = Some un ->
  lock un = false ->
  (length buffer <= acc_length accessor)%nat ->
  exists K',
    converse self p (Offer offer_info) (Accept accept_info w)
      (SendFromBuffer send_info buffer) (RecvToBuffer recv_info accessor) K
    = Ok (LaneDescriptor_empty, K') /\
    returned (submit self p (Offer offer_info)) K
    = Some (mkLaneDescriptor (LaneHandle_adopt (length (heap K)) p)) /\
    events K' = events K ++
      [mkAsyncEvent kEventOffer offer_info kErrSuccess None None;
       mkAsyncEvent kEventAccept accept_info kErrSuccess (Some (_nextHandle un)) None;
       mkAsyncEvent kEventSendString send_info kErrSuccess None None;
       mkAsyncEvent kEventRecvString recv_info kErrSuccess None
         (Some (length buffer))] /\
    read_bytes (acc_address accessor) (length buffer) (memory K') = map Some buffer.
Proof.
  intros Hp Hs Hq Hcq Hbr Hw Hl Hlen.
  pose proof (is_lane_opposite _ Hp) as Hp'.
  assert (Hpp : 1 - (1 - p) = p) by lia.
  assert (Hall : forall (b : bool * bool) lane, b = (false, false) -> idx lane b = false).
  { intros b lane ->. unfold idx. by destruct (lane =? 0). }
  assert (Hnil : forall lane, idx lane (_processQueue this) = []).
  { intros lane. rewrite Hq. unfold idx. by destruct (lane =? 0). }
  pose proof (lookup_lt_Some _ _ _ Hs) as Hlt.
  set (c := length (heap K)).
  (* the Offer is parked *)
  pose proof (submit_park_handshake self p (Offer offer_info) K this Hp Hs
                (Hall _ _ Hbr) (Hnil _) (Hall _ _ Hbr) eq_refl) as Hpark.
  cbv zeta in Hpark. fold c in Hpark.
  set (child := mkStream 3 (2, 2) (false, false) ([], []) []) in *.
  set (this1 := set_conversationQueue _ _) in Hpark.
  set (K1 := set_heap _ K) in Hpark.
  assert (Hs1 : heap K1 !! self = Some (Some this1)).
  { unfold K1. simpl. rewrite lookup_app_l by (by rewrite length_insert).
    by apply list_lookup_insert_eq. }
  assert (Hc1 : heap K1 !! c = Some (Some child)).
  { unfold K1. simpl. rewrite lookup_app_r by (rewrite length_insert; unfold c; lia).
    rewrite length_insert. unfold c. by rewrite Nat.sub_diag. }
  (* the Accept is paired with it *)
  pose proof (offer_accept_child K1 self this1 (1 - p) (Accept accept_info w)
                (Offer offer_info) [] offer_info accept_info w un c [] child
                Hp') as Hpair.
  cbv zeta in Hpair. cbn [OfferBase_classOf AcceptBase_classOf] in Hpair.
  rewrite Hpp in Hpair.
  specialize (Hpair Hs1).
  assert (Hq1 : idx p (_processQueue this1) = [Offer offer_info]).
  { unfold this1. simpl. rewrite idx_upd_eq. by rewrite Hnil. }
  specialize (Hpair (Hall _ _ Hbr) Hq1 (or_intror (conj eq_refl eq_refl)) Hw Hl).
  assert (Hcq1 : _conversationQueue this1 = [c]).
  { unfold this1. simpl. by rewrite Hcq. }
  specialize (Hpair Hcq1 ltac:(unfold c; lia) Hc1 eq_refl eq_refl).
  set (child2 := set_counter 2 (set_peerCount p 1 child)) in Hpair.
  set (K2 := write_stream c child2 _) in Hpair.
  assert (Hc2 : heap K2 !! c = Some (Some child2)).
  { unfold K2. apply lookup_write_eq with (st := child).
    unfold set_events, set_universes. cbn [heap].
    rewrite (lookup_write_live _ _ _ _ _ Hs1). rewrite decide_False; [done|].
    unfold c. lia. }
  (* the send is parked on the conversation *)
  pose proof (submit_park_plain c p (SendFromBuffer send_info buffer) K2 child2 Hp Hc2
                (idx_same _ _) (idx_same _ _) (idx_same _ _) eq_refl)
    as Hsend.
  set (child3 := addBack p _ child2) in Hsend.
  set (K3 := write_stream c child3 K2) in Hsend.
  pose proof (lookup_write_eq _ _ child3 _ Hc2) as Hc3. fold K3 in Hc3.
  (* the receive is paired with it *)
  assert (Hq3 : idx (1 - (1 - p)) (_processQueue child3)
                = [SendFromBuffer send_info buffer]).
  { rewrite Hpp. unfold child3, addBack. simpl. rewrite idx_upd_eq.
    unfold idx. by destruct (p =? 0). }
  pose proof (submit_send_recv K3 c child3 (1 - p)
                (RecvToBuffer recv_info accessor) (SendFromBuffer send_info buffer) []
                send_info buffer recv_info accessor Hp' Hc3 (idx_same _ _) Hq3
                (or_intror (conj eq_refl eq_refl))) as Hrecv.
  rewrite (proj2 (Nat.leb_le _ _) Hlen) in Hrecv.
  eexists. split.
  { unfold converse. rewrite (bind_eq _ _ _ _ _ Hpark).
    rewrite (bind_eq _ _ _ _ _ Hpair).
    unfold LaneDescriptor_submit. simpl _handle. cbv iota.
    rewrite (bind_eq _ _ _ _ _ Hsend). exact Hrecv. }
  split; [unfold returned; by rewrite Hpark|].
  split.
  - simpl. rewrite <- app_assoc. reflexivity.
  - simpl. apply read_write_bytes.
Qed.

(** [conversation_carries_send_recv] on lane 0 of a top-level stream:
    "hello" is sent into a buffer of 16 bytes. *)
Lemma conversation_carries_send_recv_witness :
  exists K',
    converse 0%nat 0 (Offer 1) (Accept 2 7%nat) (SendFromBuffer 3 hello)
      (RecvToBuffer 4 (mkAccessor 100 16)) k_fresh
    = Ok (LaneDescriptor_empty, K') /\
    events K' =
      [mkAsyncEvent kEventOffer 1 kErrSuccess None None;
       mkAsyncEvent kEventAccept 2 kErrSuccess (Some 1) None;
       mkAsyncEvent kEventSendString 3 kErrSuccess None None;
       mkAsyncEvent kEventRecvString 4 kErrSuccess None (Some 5%nat)] /\
    read_bytes 100 5 (memory K') = map Some hello.
Proof.
  destruct (conversation_carries_send_recv k_fresh 0%nat (stream_with [] []) 0
              7%nat universe_empty 1 2 3 hello 4 (mkAccessor 100 16)
              eq_refl eq_refl eq_refl eq_refl eq_refl eq_refl eq_refl
              ltac:(simpl; lia))
    as (K' & H1 & _ & H2 & H3).
  exists K'. split; [exact H1|]. split; [exact H2|exact H3].
Defined.

(** ** Pushing a lane *)




(** ** Universes that are gone *)

(** X12: a pairing of an Offer with an Accept, in either order, or of a
    PushDescriptor with a parked PullDescriptor, when the universe of the
    Accept or of the PullDescriptor no longer exists: [submit] stops in
    the assertion of [makeEvent] on the universe. *)
Theorem pairing_needs_live_universe K self this p u v rest w :
  kernel_inv K ->
  is_lane p = true ->
  heap K !! self = Some (Some this) ->
  idx p (_laneBroken this) = false ->
  idx (1 - p) (_processQueue this) = v :: rest ->
  universes K !! w = None ->
  (exists offer_info accept_info,
     (u = Offer offer_info /\ v = Accept accept_info w) \/
     (u = Accept accept_info w /\ v = Offer offer_info)) \/
  (exists push_info d pull_info,
     u = PushDescriptor push_info d /\ v = PullDescriptor pull_info w /\
     copyable K d) ->
  submit self p u K = Abort (AssertionFailed "universe").
Proof.
  intros Hinv Hp Hs Hb Hq Hw Huv.
  assert (Hdead : forall K3, universes K3 = universes K ->
            grab w K3 = Abort (AssertionFailed "universe")).
  { intros K3 HK3. apply makeEvent_dead_universe. by rewrite HK3. }
  destruct Huv as [(offer_info & accept_info & Huv)
                  |(push_info & d & pull_info & -> & -> & Hd)].
  - destruct (submit_pair K self this p u v rest Hinv Hp Hs Hb Hq)
      as (conversation & this2 & -> & _).
    destruct Huv as [[-> ->]|[-> ->]];
      unfold submit_matched; cbn [OfferBase_classOf AcceptBase_classOf andb];
      cbv zeta; apply bind_Abort;
      unfold transfer_offer_accept, OfferBase_complete;
      (erewrite bind_eq; [|reflexivity]);
      unfold AcceptBase_complete, AcceptPolicy_makeEvent;
      do 2 apply bind_Abort; by apply Hdead.
  - rewrite (submit_pop _ _ _ _ _ _ _ Hp Hs Hb Hq).
    cbn [OfferBase_classOf AcceptBase_classOf orb].
    erewrite bind_eq; [|reflexivity].
    unfold submit_matched.
    cbn [OfferBase_classOf AcceptBase_classOf SendFromBufferBase_classOf
         RecvToBufferBase_classOf PushDescriptorBase_classOf
         PullDescriptorBase_classOf andb].
    cbv zeta. apply bind_Abort. unfold transfer_push_pull, PushDescriptorBase_complete.
    erewrite bind_eq; [|reflexivity].
    match goal with
    | |- bind _ _ ?K3 = _ =>
        assert (Hd3 : copyable K3 d)
          by (apply (copyable_heap
                       (write_stream self (set_processQueue (1 - p) rest this) K));
              [reflexivity|by apply (copyable_write K self this)]);
        destruct (AnyDescriptor_copy_eq K3 d Hd3) as (K4 & Hcopy & Hun4 & _)
    end.
    rewrite (bind_eq _ _ _ _ _ Hcopy).
    unfold PullDescriptorBase_complete, PullDescriptorPolicy_makeEvent.
    do 2 apply bind_Abort. apply Hdead. by rewrite Hun4.
Qed.

(** [pairing_needs_live_universe] where an Offer is parked on lane 0 and
    an Accept that names a universe that does not exist is submitted on
    lane 1. *)
Lemma pairing_needs_live_universe_witness :
  submit 0%nat 1 (Accept 2 8%nat) k_offer_parked
  = Abort (AssertionFailed "universe").
Proof.
  apply (pairing_needs_live_universe k_offer_parked 0%nat
           (stream_with [Offer 1] [1%nat]) 1 (Accept 2 8%nat) (Offer 1) [] 8%nat
           kernel_inv_k_offer_parked eq_refl eq_refl eq_refl eq_refl eq_refl).
  left. exists 1, 2. right. split; reflexivity.
Defined.

(** ** Universes and memory that a submit leaves alone *)

Section HeapPaths.

(** A property of the kernel that does not depend on the heap or on the
    log is kept by the paths that only work on streams and post
    events. *)
Variable I : Kernel -> Prop.
Hypothesis I_heap : forall h K, I K -> I (set_heap h K).
Hypothesis I_events : forall e K, I K -> I (set_events e K).

Lemma frame_store s st : keeps I (store s st).
Proof. intros K a K' HI [-> _]%store_Ok. by apply I_heap. Qed.

Lemma frame_post e : keeps I (post e).
Proof. intros K a K' HI [= <- <-]. by apply I_events. Qed.

Lemma frame_makeShared : keeps I makeShared_Stream.
Proof. intros K a K' HI [= <- <-]. by apply I_heap. Qed.

#[local] Hint Resolve frame_store frame_post frame_makeShared : keeps.

Lemma frame_modify s f : keeps I (modify s f).
Proof. unfold modify. keeps_steps. Qed.

Lemma frame_removeFront s : keeps I (conversation_removeFront s).
Proof. unfold conversation_removeFront. keeps_steps. Qed.

Lemma frame_control_decrement s : keeps I (control_decrement s).
Proof.
  unfold control_decrement. keeps_steps. intros ? ? ? HI [= <- <-].
  by apply I_heap.
Qed.

Lemma frame_incrementPeers s lane : keeps I (incrementPeers s lane).
Proof. unfold incrementPeers. keeps_steps. Qed.

Lemma frame_decrementPeers s lane : keeps I (decrementPeers s lane).
Proof. unfold decrementPeers. keeps_steps. Qed.

#[local] Hint Resolve frame_modify frame_removeFront frame_control_decrement
  frame_incrementPeers frame_decrementPeers : keeps.

Lemma frame_release c : keeps I (SharedPtr_release c).
Proof. unfold SharedPtr_release. keeps_steps. Qed.

Lemma frame_LaneHandle_copy h : keeps I (LaneHandle_copy h).
Proof. unfold LaneHandle_copy. keeps_steps. Qed.

Lemma frame_LaneHandle_drop h : keeps I (LaneHandle_drop h).
Proof. unfold LaneHandle_drop. keeps_steps. Qed.

#[local] Hint Resolve frame_release frame_LaneHandle_copy frame_LaneHandle_drop
  : keeps.

Lemma frame_AnyDescriptor_copy d : keeps I (AnyDescriptor_copy d).
Proof. unfold AnyDescriptor_copy. keeps_steps. Qed.

(** The locked part of [submit]: what is left to show is that the
    dispatch on the pair keeps the property. *)
Lemma frame_submit self p u :
  (forall q v conversation, keeps I (submit_matched p q u v conversation)) ->
  keeps I (submit self p u).
Proof. intros Hm. unfold submit. keeps_steps. Qed.

(** The three branches of the dispatch, given that the transfers keep
    the property. *)
Lemma frame_submit_matched p q u v conversation :
  (forall offer accept lane, OfferBase_classOf offer = true ->
     AcceptBase_classOf accept = true -> handshake u = true ->
     keeps I (transfer_offer_accept offer accept lane)) ->
  (forall from to, SendFromBufferBase_classOf u || RecvToBufferBase_classOf u = true ->
     keeps I (transfer_send_recv from to)) ->
  (forall pull, PushDescriptorBase_classOf u = true ->
     keeps I (transfer_push_pull u pull)) ->
  keeps I (submit_matched p q u v conversation).
Proof.
  intros Hoa Hsr Hpp. unfold submit_matched.
  destruct (OfferBase_classOf u && AcceptBase_classOf v) eqn:E1.
  { apply andb_prop in E1 as [Eu Ev].
    pose proof (Hoa u v (mkLaneDescriptor (adoptLane conversation q)) Eu Ev
                  ltac:(unfold handshake; by rewrite Eu)).
    keeps_steps. }
  destruct (OfferBase_classOf v && AcceptBase_classOf u) eqn:E2.
  { apply andb_prop in E2 as [Ev Eu].
    pose proof (Hoa v u (mkLaneDescriptor (adoptLane conversation p)) Ev Eu
                  ltac:(unfold handshake; rewrite Eu; apply orb_true_r)).
    keeps_steps. }
  destruct (SendFromBufferBase_classOf u && RecvToBufferBase_classOf v) eqn:E3.
  { apply andb_prop in E3 as [Eu Ev].
    pose proof (Hsr u v ltac:(by rewrite Eu)). keeps_steps. }
  destruct (SendFromBufferBase_classOf v && RecvToBufferBase_classOf u) eqn:E4.
  { apply andb_prop in E4 as [Ev Eu].
    pose proof (Hsr v u ltac:(rewrite Eu; apply orb_true_r)). keeps_steps. }
  destruct (PushDescriptorBase_classOf u && PullDescriptorBase_classOf v) eqn:E5.
  { apply andb_prop in E5 as [Eu Ev]. pose proof (Hpp v Eu). keeps_steps. }
  apply keeps_panic.
Qed.

End HeapPaths.

Lemma keeps_memory_with_universe {A} mem w (f : Universe -> Result (A * Universe)) :
  keeps (memory_is mem) (with_universe w f).
Proof.
  unfold with_universe. intros K a K' HI H.
  destruct (universes K !! w) as [un|]; [|done].
  destruct (f un) as [[a' un']|]; [|done]. injection H as <- <-. exact HI.
Qed.

Lemma keeps_memory_transfer_offer_accept mem offer accept lane :
  keeps (memory_is mem) (transfer_offer_accept offer accept lane).
Proof.
  pose proof (@keeps_memory_with_universe unit mem).
  pose proof (@keeps_memory_with_universe Z mem).
  pose proof (frame_post (memory_is mem) ltac:(done)).
  unfold transfer_offer_accept, OfferBase_complete, AcceptBase_complete,
    AcceptPolicy_makeEvent.
  keeps_steps.
Qed.

Lemma keeps_memory_transfer_push_pull mem push pull :
  keeps (memory_is mem) (transfer_push_pull push pull).
Proof.
  pose proof (@keeps_memory_with_universe unit mem).
  pose proof (@keeps_memory_with_universe Z mem).
  pose proof (frame_post (memory_is mem) ltac:(done)).
  pose proof (frame_AnyDescriptor_copy (memory_is mem) ltac:(done)).
  unfold transfer_push_pull, PushDescriptorBase_complete, PullDescriptorBase_complete,
    PullDescriptorPolicy_makeEvent.
  keeps_steps.
Qed.

Lemma keeps_universes_transfer_send_recv U from to :
  keeps (universes_are U) (transfer_send_recv from to).
Proof.
  pose proof (frame_post (universes_are U) ltac:(done)).
  assert (forall acc data size, keeps (universes_are U) (copyTo acc data size))
    by (intros acc data size K a K' HI [= <- <-]; exact HI).
  unfold transfer_send_recv, SendFromBufferBase_complete, RecvToBufferBase_complete.
  keeps_steps.
Qed.

(** X13: a SendBuffer or RecvBuffer whose [submit] returns has left every
    universe as it was: no handle was attached anywhere.  Any other item
    whose [submit] returns has left the memory of the receive buffers as
    it was.  A submit that parks its item has left both as they were. *)
Theorem submit_leaves_universes_and_memory K self this p u d K' :
  heap K !! self = Some (Some this) ->
  submit self p u K = Ok (d, K') ->
  (SendFromBufferBase_classOf u || RecvToBufferBase_classOf u = true ->
   universes K' = universes K) /\
  (SendFromBufferBase_classOf u || RecvToBufferBase_classOf u = false ->
   memory K' = memory K) /\
  (idx (1 - p) (_processQueue this) = [] ->
   universes K' = universes K /\ memory K' = memory K).
Proof.
  intros Hs H. split_and!.
  - intros Hu.
    apply (frame_submit (universes_are (universes K)) ltac:(done) self p u) with (K := K) (a := d); [|done|exact H].
    intros q v conversation.
    apply frame_submit_matched; try done.
    + intros offer accept lane _ _ Hh. by destruct u.
    + intros from to _. apply keeps_universes_transfer_send_recv.
    + intros pull Hpush. by destruct u.
  - intros Hu.
    apply (frame_submit (memory_is (memory K)) ltac:(done) self p u) with (K := K) (a := d); [|done|exact H].
    intros q v conversation.
    apply frame_submit_matched; try done.
    + intros offer accept lane _ _ _. apply keeps_memory_transfer_offer_accept.
    + intros from to Hsr. by rewrite Hsr in Hu.
    + intros pull _. apply keeps_memory_transfer_push_pull.
  - intros Hq.
    destruct (submit_Ok_entry _ _ _ _ _ _ H) as (Hp & this0 & Hs0 & Hb).
    rewrite Hs in Hs0. injection Hs0 as <-.
    destruct (idx (1 - p) (_laneBroken this)) eqn:Hbq;
      [by rewrite (submit_remotely_broken _ _ _ _ _ Hp Hs Hb Hq Hbq) in H|].
    destruct (handshake u) eqn:Hu.
    + rewrite (submit_park_handshake _ _ _ _ _ Hp Hs Hb Hq Hbq Hu) in H.
      by injection H as <- <-.
    + rewrite (submit_park_plain _ _ _ _ _ Hp Hs Hb Hq Hbq Hu) in H.
      by injection H as <- <-.
Qed.

(** [submit_leaves_universes_and_memory] where a receive is paired with
    "hello" parked on lane 0. *)
Lemma submit_leaves_universes_and_memory_witness :
  universes (after (submit 0%nat 1 recv16) k_send_parked) = universes k_send_parked.
Proof.
  destruct (submit_leaves_universes_and_memory k_send_parked 0%nat
              (stream_with [SendFromBuffer 1 hello] []) 1 recv16 LaneDescriptor_empty
              (after (submit 0%nat 1 recv16) k_send_parked) eq_refl eq_refl)
    as [H _].
  apply H. reflexivity.
Defined.

(** ** Other streams *)

(** X14: a [submit] that returns changes the queues of the stream it is called
    on and of no other: what is parked on another stream, and the
    conversations pending there, are as they were, also for the
    conversation that the submit takes from the queue. *)
Theorem submit_leaves_other_queues K self p u d K' s st :
  kernel_inv K ->
  submit self p u K = Ok (d, K') ->
  heap K !! s = Some (Some st) ->
  s <> self ->
  exists st',
    heap K' !! s = Some (Some st') /\
    _processQueue st' = _processQueue st /\
    _conversationQueue st' = _conversationQueue st.
Proof.
  intros Hinv H Hs Hne.
  destruct (submit_other_stream K self p u d K' s st Hinv H Hs Hne)
    as (st' & Hs' & Hq & Hcq).
  by exists st'.
Qed.

(** [submit_leaves_other_queues] where a buffer is parked on the
    conversation of a parked Offer: the Offer stays parked on the
    top-level stream. *)
Lemma submit_leaves_other_queues_witness :
  exists st',
    heap (after (submit 1%nat 0 (SendFromBuffer 2 hello)) k_offer_parked) !! 0%nat
    = Some (Some st') /\
    _processQueue st' = ([Offer 1], []) /\
    _conversationQueue st' = [1%nat].
Proof.
  apply (submit_leaves_other_queues k_offer_parked 1%nat 0 (SendFromBuffer 2 hello)
           LaneDescriptor_empty
           (after (submit 1%nat 0 (SendFromBuffer 2 hello)) k_offer_parked)
           0%nat (stream_with [Offer 1] [1%nat])
           kernel_inv_k_offer_parked eq_refl eq_refl).
  discriminate.
Defined.

(** ** Items parked on a lane that is closed *)

(** X15: the last handle of a lane is destroyed while a RecvBuffer is parked
    on that lane, the stream surviving with another reference, and a
    SendBuffer that fits is then submitted on the opposite lane.  The
    submit does not look at the broken flag of the lane it takes the
    parked item from: the pair is matched as on an open lane, the bytes
    are written to the buffer of the receiver and both items complete
    with [kErrSuccess]. *)
Theorem parked_item_pairs_after_close K s q st recv_info accessor rest
    send_info buffer :
  is_lane q = true ->
  heap K !! s = Some (Some st) ->
  idx q (_peerCount st) = 1 ->
  _laneBroken st = (false, false) ->
  counter st <> 1 ->
  idx q (_processQueue st) = RecvToBuffer recv_info accessor :: rest ->
  (length buffer <= acc_length accessor)%nat ->
  exists K' st',
    close_then_submit (LaneHandle_adopt s q) s (1 - q)
      (SendFromBuffer send_info buffer) K
    = Ok (LaneDescriptor_empty, K') /\
    heap K' !! s = Some (Some st') /\
    idx q (_laneBroken st') = true /\
    idx q (_processQueue st') = rest /\
    events K' = events K ++
      [mkAsyncEvent kEventSendString send_info kErrSuccess None None;
       mkAsyncEvent kEventRecvString recv_info kErrSuccess None
         (Some (length buffer))] /\
    read_bytes (acc_address accessor) (length buffer) (memory K') = map Some buffer.
Proof.
  intros Hl Hs Hc Hbr Hcnt Hq Hlen.
  pose proof (is_lane_opposite _ Hl) as Hl'.
  assert (Hqq : 1 - (1 - q) = q) by lia.
  assert (Hb : idx q (_laneBroken st) = false) by (rewrite Hbr; apply idx_same).
  pose proof (LaneHandle_drop_last _ _ _ _ Hl Hs ltac:(lia) Hb) as Hdrop.
  apply Z.eqb_neq in Hcnt. rewrite Hcnt in Hdrop.
  set (st1 := lane_closed q st) in *.
  pose proof (lookup_write_eq _ _ st1 _ Hs) as Hs1.
  assert (Hb1 : idx (1 - q) (_laneBroken st1) = false).
  { unfold st1. simpl. rewrite idx_upd_opposite' by done. rewrite Hbr.
    apply idx_same. }
  assert (Hq1 : idx (1 - (1 - q)) (_processQueue st1)
                = RecvToBuffer recv_info accessor :: rest).
  { rewrite Hqq. exact Hq. }
  pose proof (submit_send_recv _ s st1 (1 - q) (SendFromBuffer send_info buffer)
                (RecvToBuffer recv_info accessor) rest send_info buffer recv_info
                accessor Hl' Hs1 Hb1 Hq1 (or_introl (conj eq_refl eq_refl))) as Hsub.
  rewrite (proj2 (Nat.leb_le _ _) Hlen) in Hsub.
  eexists _, _. split.
  { unfold close_then_submit. rewrite (bind_eq _ _ _ _ _ Hdrop). exact Hsub. }
  split.
  { unfold set_events, set_memory. cbn [heap]. apply (lookup_write_eq _ _ _ _ Hs1). }
  rewrite Hqq. simpl. split_and!; try done.
  - by rewrite idx_upd_eq.
  - by rewrite idx_upd_eq.
  - apply read_write_bytes.
Qed.

(** [parked_item_pairs_after_close] where a receive is parked on lane 0
    of a top-level stream and the handle of lane 0 is destroyed. *)
Lemma parked_item_pairs_after_close_witness :
  exists K' st',
    close_then_submit (LaneHandle_adopt 0%nat 0) 0%nat 1 (SendFromBuffer 3 hello)
      k_recv_parked
    = Ok (LaneDescriptor_empty, K') /\
    heap K' !! 0%nat = Some (Some st') /\
    idx 0 (_laneBroken st') = true /\
    events K' =
      [mkAsyncEvent kEventSendString 3 kErrSuccess None None;
       mkAsyncEvent kEventRecvString 2 kErrSuccess None (Some 5%nat)] /\
    read_bytes 100 5 (memory K') = map Some hello.
Proof.
  destruct (parked_item_pairs_after_close k_recv_parked 0%nat 0
              (stream_with [recv16] []) 2 (mkAccessor 100 16) [] 3 hello
              eq_refl eq_refl eq_refl eq_refl ltac:(discriminate) eq_refl
              ltac:(simpl; lia))
    as (K' & st' & H1 & H2 & H3 & _ & H4 & H5).
  exists K', st'. split_and!; assumption.
Defined.

(** ** The events that the policies make *)

(** X16: [AcceptPolicy::makeEvent] and [PullDescriptorPolicy::makeEvent] on a
    universe that exists and is not locked: the event that is returned
    carries the submit info and the error that were passed in, whatever
    the error is, and the handle under which the descriptor is now
    attached in that universe; the lock of the universe is released again;
    no other universe, no stream and no receive buffer is touched, and the
    event is returned without being posted. *)
Theorem makeEvent_reports_attached_handle K info error w un :
  universes K !! w = Some un ->
  lock un = false ->
  (forall lane, exists K' un',
     AcceptPolicy_makeEvent info error w lane K
     = Ok (mkAsyncEvent kEventAccept info error (Some (_nextHandle un)) None, K') /\
     universes K' = <[w := un']> (universes K) /\
     _descriptorMap un' !! _nextHandle un = Some (AnyLaneDescriptor lane) /\
     lock un' = false /\
     heap K' = heap K /\ events K' = events K /\ memory K' = memory K)
  /\ (forall d, exists K' un',
        PullDescriptorPolicy_makeEvent info error w d K
        = Ok (mkAsyncEvent kEventRecvDescriptor info error (Some (_nextHandle un)) None,
              K') /\
        universes K' = <[w := un']> (universes K) /\
        _descriptorMap un' !! _nextHandle un = Some d /\
        lock un' = false /\
        heap K' = heap K /\ events K' = events K /\ memory K' = memory K).
Proof.
  intros Hw Hl. split.
  - intros lane. eexists _, _.
    split; [by apply AcceptPolicy_makeEvent_eq|].
    split; [reflexivity|]. split; [apply attached_lookup|done].
  - intros d. eexists _, _.
    split; [by apply PullDescriptorPolicy_makeEvent_eq|].
    split; [reflexivity|]. split; [apply attached_lookup|done].
Qed.

(** [makeEvent_reports_attached_handle] on the universe of the scenarios,
    with an error other than success. *)
Lemma makeEvent_reports_attached_handle_witness :
  exists K' un',
    PullDescriptorPolicy_makeEvent 9 kErrThreadExited 7%nat memory5 k_fresh
    = Ok (mkAsyncEvent kEventRecvDescriptor 9 kErrThreadExited (Some 1) None, K') /\
    universes K' = <[7%nat := un']> (universes k_fresh) /\
    _descriptorMap un' !! 1 = Some memory5 /\
    lock un' = false.
Proof.
  destruct (makeEvent_reports_attached_handle k_fresh 9 kErrThreadExited 7%nat
              universe_empty eq_refl eq_refl) as [_ H].
  destruct (H memory5) as (K' & un' & H1 & H2 & H3 & H4 & _).
  exists K', un'. split_and!; assumption.
Defined.
